(** * R2KS: pairwise rank-list scoring and its work distribution

    A shallow embedding of [r2ks.cpp]: the weight function, the
    history-based scorer, the list reader and the static partition of the
    list pairs over the MPI client processes.

    Conventions of the embedding:
    - [unsigned int] and [int] are [Z] with the 32-bit wrap-around written
      out ([u32], [s32]);
    - [double] and [float] are IEEE 754 binary64 and binary32 values, taken
      from the specification of floating-point arithmetic of the standard
      library ([SpecFloat]), so every operation rounds as the hardware does;
    - a [std::vector] is a list; [operator[]] does no bounds check, so an
      access outside the vector is undefined behaviour, recorded as the
      outcome [Undefined];
    - loops are folds over the range of their counter. *)

From Stdlib Require Import ZArith Bool Lia String Ascii SpecFloat.
From stdpp Require Import base list.

Local Open Scope Z_scope.

(** ** Machine integers *)

Definition u32_modulus : Z := 2 ^ 32.
Definition u32_max : Z := u32_modulus - 1.

(** Reduction of a mathematical integer to [unsigned int]. *)
Definition u32 (z : Z) : Z := z mod u32_modulus.

(** Conversion of an [unsigned int] value to [int]. *)
Definition s32 (z : Z) : Z := (z + 2 ^ 31) mod u32_modulus - 2 ^ 31.

(** ** Options *)

Record Options := {
  num_genes : Z;
  num_lists : Z;
  pivot : Z;
  two_tailed : bool;
  num_procs : Z;
  mpi_id : Z
}.

(** ** Outcomes

    The program has no error path of its own.  What can go wrong is
    undefined behaviour: an index outside a vector, or a [float] converted
    to an [unsigned int] that cannot hold it. *)

Inductive fault : Type :=
| OutOfBounds (idx : Z)
| ConversionOutOfRange.

Inductive outcome (A : Type) : Type :=
| Done (a : A)
| Undefined (why : fault).
Arguments Done {A} a.
Arguments Undefined {A} why.

#[global] Instance outcome_ret : MRet outcome := @Done.
#[global] Instance outcome_bind : MBind outcome := fun A B f m =>
  match m with
  | Done a => f a
  | Undefined why => Undefined why
  end.
#[global] Instance outcome_fmap : FMap outcome := fun A B f m =>
  match m with
  | Done a => Done (f a)
  | Undefined why => Undefined why
  end.

(** ** Vectors of [unsigned int] *)

(** [v[i]] as a read. *)
Definition vget (v : list Z) (i : Z) : outcome Z :=
  match v !! Z.to_nat i with
  | Some x => Done x
  | None => Undefined (OutOfBounds i)
  end.

(** [v[i] = x]. *)
Definition vset (v : list Z) (i x : Z) : outcome (list Z) :=
  if i <? Z.of_nat (length v) then Done (<[Z.to_nat i := x]> v)
  else Undefined (OutOfBounds i).

(** ** Floating point *)

Module Double.
Definition prec : Z := 53.
Definition emax : Z := 1024.

Definition of_uint (n : Z) : spec_float := binary_normalize prec emax n 0 false.
(** A [float] read as a [double]: the same number, in the binary64 format. *)
Definition of_float (x : spec_float) : spec_float :=
  match x with
  | S754_finite s m e => binary_round prec emax s m e
  | _ => x
  end.

Definition zero : spec_float := S754_zero false.
Definition one : spec_float := of_uint 1.
Definition two : spec_float := of_uint 2.

Definition add := SFadd prec emax.
Definition sub := SFsub prec emax.
Definition mul := SFmul prec emax.
Definition div := SFdiv prec emax.
Definition sqrt := SFsqrt prec emax.
Definition ltb := SFltb.
Definition gtb (x y : spec_float) : bool := SFltb y x.
End Double.

Module Single.
Definition prec : Z := 24.
Definition emax : Z := 128.

Definition of_uint (n : Z) : spec_float := binary_normalize prec emax n 0 false.
(** A [double] stored in a [float]: rounded to binary32. *)
Definition of_double (x : spec_float) : spec_float :=
  match x with
  | S754_finite s m e => binary_round prec emax s m e
  | _ => x
  end.

Definition zero : spec_float := S754_zero false.
Definition gtb (x y : spec_float) : bool := SFltb y x.

(** The integer part of a finite value, towards zero. *)
Definition trunc (x : spec_float) : option Z :=
  match x with
  | S754_zero _ => Some 0
  | S754_finite s m e =>
      let a := if 0 <=? e then Z.pos m * 2 ^ e else Z.pos m / 2 ^ (- e) in
      Some (if s then - a else a)
  | _ => None
  end.

(** A [float] stored in an [unsigned int]: truncated; undefined when the
    truncated value does not fit. *)
Definition to_uint (x : spec_float) : outcome Z :=
  match trunc x with
  | Some a => if (0 <=? a) && (a <=? u32_max) then Done a
              else Undefined ConversionOutOfRange
  | None => Undefined ConversionOutOfRange
  end.
End Single.

(** ** calculateWeight *)

Definition calculateWeight (idx pivot : Z) : spec_float :=
  if pivot =? 0 then Double.one
  else
    let h := Double.sub (Double.of_uint pivot) (Double.of_uint idx) in
    if Double.ltb h Double.zero then Double.one
    else Double.div (Double.mul h (Double.add h Double.one)) Double.two.

(** ** scoreLists *)

Record History := { pos_y : Z; value : spec_float }.

(** The two variables the main loop updates. *)
Record scan := { history : list History; rvalue : spec_float }.

Section Scorer.
Variable options : Options.

(** [float total_weight]: the sum of the weights, each partial sum stored
    back in a [float]. *)
Definition total_weight (size : nat) : spec_float :=
  foldl (fun tw i =>
           Single.of_double
             (Double.add (Double.of_float tw) (calculateWeight i (pivot options))))
        Single.zero (seqZ 0 (Z.of_nat size)).

(** [buff[gene_list1[i]] = i] for every [i] below the size of
    [gene_list0]. *)
Definition rank_lookup (size : nat) (gene_list1 : list Z) : outcome (list Z) :=
  foldl (fun acc i =>
           buff ← acc;
           g ← vget gene_list1 i;
           vset buff g i)
        (Done (replicate size 0)) (seqZ 0 (Z.of_nat size)).

Definition one_over : spec_float :=
  Double.div Double.one (Double.of_uint (u32 (num_genes options * num_genes options))).

(** [nvalue] for an entry at step [i], and the update of [rvalue]. *)
Definition candidate (tw : spec_float) (i : Z) (h : History) : spec_float :=
  let second_term :=
    Double.mul (Double.of_uint (u32 (u32 (pos_y h + 1) * u32 (i + 1)))) one_over in
  Double.sub (Double.div (value h) (Double.of_float tw)) second_term.

Definition keep_max (nvalue rv : spec_float) : spec_float :=
  if Double.gtb nvalue rv then nvalue else rv.

(** The block before the loop: the first gene of [gene_list0]. *)
Definition first_step (buff gene_list0 : list Z) : outcome scan :=
  ivalue ← vget gene_list0 0;
  b ← vget buff ivalue;
  let pivot_f := Single.of_uint b in
  let w := calculateWeight 0 (pivot options) in
  p ← Single.to_uint pivot_f;
  mret {| history := [ {| pos_y := p; value := w |} ]; rvalue := Double.zero |}.

(** The backward walk of the else branch.  [k] is the position of the
    iterator [it]; the walk ends at [history.begin()], or at the first
    entry whose [pos_y] is not above [pivot].  (The test inside the body of
    the loop repeats the condition of the loop.)  Returns the position
    where the iterator stopped. *)
Fixpoint trawl (tw : spec_float) (i : Z) (pivot_f w : spec_float)
         (k : nat) (st : scan) : nat * scan :=
  match k with
  | O => (O, st)
  | S k' =>
      match history st !! k with
      | Some e =>
          if Single.gtb (Single.of_uint (pos_y e)) pivot_f then
            let e' := {| pos_y := pos_y e; value := Double.add (value e) w |} in
            trawl tw i pivot_f w k'
              {| history := <[k := e']> (history st);
                 rvalue := keep_max (candidate tw i e') (rvalue st) |}
          else (k, st)
      | None => (k, st)
      end
  end.

(** One iteration of the main loop, for [i >= 1]. *)
Definition step (tw : spec_float) (buff gene_list0 : list Z)
           (st : scan) (i : Z) : outcome scan :=
  ivalue ← vget gene_list0 i;
  b ← vget buff ivalue;
  let pivot_f := Single.of_uint b in
  let iw := calculateWeight i (pivot options) in
  p ← Single.to_uint pivot_f;
  let jw := calculateWeight p (pivot options) in
  let w := if Double.ltb iw jw then iw else jw in
  match last (history st) with
  | None => Undefined (OutOfBounds (-1))
  | Some lh =>
      if Single.gtb pivot_f (Single.of_uint (pos_y lh)) then
        let nh := {| pos_y := p; value := Double.add (value lh) w |} in
        mret {| history := history st ++ [nh];
                rvalue := keep_max (candidate tw i nh) (rvalue st) |}
      else
        let '(k, st') := trawl tw i pivot_f w (length (history st) - 1)%nat st in
        match history st' !! k with
        | None => Undefined (OutOfBounds (Z.of_nat k))
        | Some stop =>
            let nh := {| pos_y := p; value := Double.add (value stop) w |} in
            mret {| history := take (S k) (history st') ++ nh :: drop (S k) (history st');
                    rvalue := keep_max (candidate tw i nh) (rvalue st') |}
        end
  end.

(** The state after the whole scan. *)
Definition run_scan (gene_list0 gene_list1 : list Z) : outcome scan :=
  let tw := total_weight (length gene_list0) in
  buff ← rank_lookup (length gene_list0) gene_list1;
  st0 ← first_step buff gene_list0;
  foldl (fun acc i => st ← acc; step tw buff gene_list0 st i)
        (Done st0) (seqZ 1 (num_genes options - 1)).

Definition scoreLists (gene_list0 gene_list1 : list Z) : outcome spec_float :=
  st ← run_scan gene_list0 gene_list1;
  mret (Double.mul (rvalue st) (Double.sqrt (Double.of_uint (num_genes options)))).

End Scorer.

(** ** The input file

    The file is its sequence of characters.  [fin >> gene_expression] skips
    white space (line ends included), takes a sign if there is one, then
    reads the longest run of decimal digits, which must start at once; it
    fails, and the stream stays failed, at the end of the file, on a
    character that starts no number, or on digits whose value does not fit
    an [unsigned int].  After a minus sign the value is negated in
    [unsigned int]: [-1] is read as 4294967295. *)

Module Stream.

Definition newline : ascii := "010"%char.

Definition is_space (c : ascii) : bool :=
  let n := nat_of_ascii c in
  (n =? 32)%nat || ((9 <=? n)%nat && (n <=? 13)%nat).

Definition is_digit (c : ascii) : bool :=
  let n := nat_of_ascii c in
  (48 <=? n)%nat && (n <=? 57)%nat.

Definition digit_value (c : ascii) : Z := Z.of_nat (nat_of_ascii c) - 48.

(** [fin.ignore(max, '\n')]: drop the characters up to and including the
    next line end. *)
Fixpoint ignore_line (s : string) : string :=
  match s with
  | EmptyString => EmptyString
  | String c rest => if Ascii.eqb c newline then rest else ignore_line rest
  end.

Fixpoint skip_space (s : string) : string :=
  match s with
  | EmptyString => EmptyString
  | String c rest => if is_space c then skip_space rest else s
  end.

Fixpoint read_digits (acc : Z) (s : string) : Z * string :=
  match s with
  | EmptyString => (acc, s)
  | String c rest =>
      if is_digit c then read_digits (10 * acc + digit_value c) rest else (acc, s)
  end.

(** [fin >> x] for an [unsigned int] [x]: the value and the rest of the
    stream, or [None] when the extraction fails. *)
Definition extract_uint (s : string) : option (Z * string) :=
  match skip_space s with
  | EmptyString => None
  | String c rest =>
      let negative := Ascii.eqb c "-"%char in
      let digits := if negative || Ascii.eqb c "+"%char then rest else String c rest in
      match digits with
      | EmptyString => None
      | String d _ =>
          if is_digit d then
            let '(v, s') := read_digits 0 digits in
            if v <=? u32_max then Some (if negative then u32 (- v) else v, s')
            else None
          else None
      end
  end.

(** A file given by its lines, each ended by a line end. *)
Definition of_lines (ls : list string) : string :=
  foldr (fun l rest => append l (String newline rest)) EmptyString ls.

End Stream.

(** ** readLineIndex *)

(** The [while] loop of [readLineIndex].  [remaining] is
    [num_genes - gidx]: the test [gidx < options.num_genes] holds exactly
    when it is not zero.  The token is extracted before the test is made.
    Returns the vector and the final [gidx]. *)
Fixpoint read_loop (remaining : nat) (s : string) (gidx : Z) (gene_list : list Z)
  : outcome (list Z * Z) :=
  match Stream.extract_uint s with
  | None => Done (gene_list, gidx)
  | Some (gene_expression, s') =>
      match remaining with
      | O => Done (gene_list, gidx)
      | S remaining' =>
          gene_list' ← vset gene_list gene_expression gidx;
          read_loop remaining' s' (gidx + 1) gene_list'
      end
  end.

(** The stream after the [idx] calls of [ignore]. *)
Definition line_start (file : string) (idx : Z) : string :=
  Nat.iter (Z.to_nat idx) Stream.ignore_line file.

Definition read_line (o : Options) (file : string) (idx : Z) (gene_list : list Z)
  : outcome (list Z * Z) :=
  read_loop (Z.to_nat (num_genes o)) (line_start file idx) 0 gene_list.

Definition readLineIndex (o : Options) (file : string) (idx : Z) (gene_list : list Z)
  : outcome (list Z) :=
  fst <$> read_line o file idx gene_list.

(** The number of tokens [readLineIndex] stored. *)
Definition tokens_stored (o : Options) (file : string) (idx : Z) (gene_list : list Z)
  : outcome Z :=
  snd <$> read_line o file idx gene_list.

(** ** Scoring one pair

    The body of the pair loop, the same in [main] and in [clientProcess]:
    read both lists into fresh vectors of [num_genes] zeros, score them,
    and with [-t] score again with the second vector reversed.  The scores
    are held in [float] variables. *)
Definition score_pair (o : Options) (file : string) (l0 l1 : Z) : outcome spec_float :=
  gene_list0 ← readLineIndex o file l0 (replicate (Z.to_nat (num_genes o)) 0);
  gene_list1 ← readLineIndex o file l1 (replicate (Z.to_nat (num_genes o)) 0);
  r ← scoreLists o gene_list0 gene_list1;
  let rvalue := Single.of_double r in
  if two_tailed o then
    t ← scoreLists o gene_list0 (reverse gene_list1);
    let tvalue := Single.of_double t in
    mret (if Single.gtb tvalue rvalue then tvalue else rvalue)
  else mret rvalue.

(** ** Work distribution (masterProcess, clientProcess, main) *)

Module Partition.

(** [int total_tests = num_lists * (num_lists - 1) / 2], computed on
    [unsigned int] and stored in an [int]. *)
Definition total_tests (o : Options) : Z :=
  s32 (u32 (num_lists o * u32 (num_lists o - 1)) / 2).

Definition processes_per_node (o : Options) : Z :=
  Z.quot (total_tests o) (num_procs o - 1).

Definition extra_processes (o : Options) : Z :=
  Z.rem (total_tests o) (num_procs o - 1).

(** The two nested loops that fill [test_numbers]: [i] from 1 while
    [i < num_lists + 1], [j] from [i] while [j < num_lists + 1]; each
    iteration pushes [i] then [j]. *)
Definition pairs_from (i bound : Z) : list (Z * Z) :=
  (fun j => (i, j)) <$> seqZ i (bound - i).

Definition enumeration (o : Options) : list (Z * Z) :=
  let bound := u32 (num_lists o + 1) in
  i ← seqZ 1 (bound - 1); pairs_from i bound.

Definition test_numbers (o : Options) : list Z :=
  '(i, j) ← enumeration o; [i; j].

(** What the master sends to client [i] (1 <= i < num_procs):
    [send_count] integers of [test_numbers], starting at [offset]. *)
Definition send_count (o : Options) (i : Z) : Z :=
  2 * (processes_per_node o +
       (if i =? num_procs o - 1 then extra_processes o else 0)).

Definition offset (o : Options) (i : Z) : Z :=
  processes_per_node o * 2 * (i - 1).

Definition buffer (o : Options) (i : Z) : list Z :=
  take (Z.to_nat (send_count o i)) (drop (Z.to_nat (offset o i)) (test_numbers o)).

(** The client walks its buffer two integers at a time. *)
Fixpoint client_pairs (buf : list Z) : list (Z * Z) :=
  match buf with
  | l0 :: l1 :: rest => (l0, l1) :: client_pairs rest
  | _ => []
  end.

(** The pairs scored by client [i]. *)
Definition scored_by (o : Options) (i : Z) : list (Z * Z) :=
  client_pairs (buffer o i).

(** The clients are the processes 1 .. num_procs - 1. *)
Definition clients (o : Options) : list Z := seqZ 1 (num_procs o - 1).

(** All the pairs scored, client after client. *)
Definition scored (o : Options) : list (Z * Z) :=
  i ← clients o; scored_by o i.

(** The loop of [main] without MPI: [i] from 0 below [num_lists], [j]
    from [i + 1] below [num_lists], scoring the lists [i + 1] and
    [j + 1]. *)
Definition main_pairs (o : Options) : list (Z * Z) :=
  i ← seqZ 0 (num_lists o);
  (fun j => (i + 1, j + 1)) <$> seqZ (i + 1) (num_lists o - (i + 1)).

End Partition.

(** ** Notions used by the statements *)

(** The tokens the loop of [readLineIndex] stores: the first [remaining]
    tokens of the stream, fewer when an extraction fails. *)
Fixpoint stored_tokens (remaining : nat) (s : string) : list Z :=
  match remaining with
  | O => []
  | S remaining' =>
      match Stream.extract_uint s with
      | None => []
      | Some (t, s') => t :: stored_tokens remaining' s'
      end
  end.

(** A history whose [pos_y] strictly increase from the front to the back. *)
Definition increasing_pos_y (h : list History) : Prop :=
  forall (i j : nat) (a b : History),
    (i < j)%nat -> h !! i = Some a -> h !! j = Some b -> pos_y a < pos_y b.

Definition entry (p : Z) (v : spec_float) : History := {| pos_y := p; value := v |}.

(** ** Inputs used by the examples *)

Definition three_lists_one_client : Options :=
  {| num_genes := 4; num_lists := 3; pivot := 0; two_tailed := false;
     num_procs := 2; mpi_id := 0 |}.

Definition two_genes : Options :=
  {| num_genes := 2; num_lists := 2; pivot := 0; two_tailed := false;
     num_procs := 1; mpi_id := 0 |}.

Definition four_genes : Options :=
  {| num_genes := 4; num_lists := 2; pivot := 0; two_tailed := false;
     num_procs := 1; mpi_id := 0 |}.

(** A file whose first list names the gene 2, outside [0, 2). *)
Definition file_bad_gene : string := Stream.of_lines ["2 2"; "0 2"; "1 0"]%string.

(** A file of two lists of two genes. *)
Definition file_two_lists : string := Stream.of_lines ["2 2"; "0 1"; "1 0"]%string.

(** A file whose first list is one token short. *)
Definition file_short_line : string := Stream.of_lines ["2 2"; "0"; "1 0"]%string.

(** A file that announces two lists and holds one. *)
Definition file_one_list : string := Stream.of_lines ["2 2"; "0 1"]%string.

(** ** Notions used by the statements about floating point *)

Module Format.

(** Comparison of two finite values of one sign: by exponent, then by
    mantissa. *)
Definition lex (e1 : Z) (m1 : positive) (e2 : Z) (m2 : positive) : comparison :=
  match e1 ?= e2 with
  | Lt => Lt
  | Gt => Gt
  | Eq => (m1 ?= m2)%positive
  end.

(** [0 <= x]: [x] is a zero, or a positive number, finite or not. *)
Definition nonneg (x : spec_float) : bool := SFleb (S754_zero false) x.

(** [x] is a zero, an infinity or a finite value of sign [s]: not a NaN. *)
Definition signed (s : bool) (x : spec_float) : Prop :=
  match x with
  | S754_zero s' | S754_infinity s' | S754_finite s' _ _ => s' = s
  | S754_nan => False
  end.

(** Round to nearest, ties to even, of [M / 2 ^ n]. *)
Definition rne (M n : Z) : Z :=
  if n <=? 0 then M
  else
    let q := M / 2 ^ n in
    if Z.testbit M (n - 1) then
      if negb (M mod 2 ^ (n - 1) =? 0) then q + 1
      else if Z.even q then q else q + 1
    else q.

Section Defs.
Variables prec emax : Z.

(** The result of [binary_round_aux] once the mantissa has [prec] digits,
    or is the next power of two. *)
Definition pack (s : bool) (m e : Z) : spec_float :=
  if m =? 2 ^ prec then S754_finite s (Z.to_pos (2 ^ (prec - 1))) (e + 1)
  else S754_finite s (Z.to_pos m) e.

Definition canon_abs (s : bool) (N : Z) : spec_float :=
  S754_finite s (Z.to_pos (N * 2 ^ (prec - Zdigits2 N))) (Zdigits2 N - prec).

(** The value of the format that is the integer [z], for [|z| < 2 ^ prec]. *)
Definition canon (z : Z) : spec_float :=
  match z with
  | 0 => S754_zero false
  | Z.pos p =>
      S754_finite false (Z.to_pos (z * 2 ^ (prec - Zdigits2 z))) (Zdigits2 z - prec)
  | Z.neg p =>
      S754_finite true (Z.to_pos (- z * 2 ^ (prec - Zdigits2 z))) (Zdigits2 z - prec)
  end.

Definition of_int (z : Z) : spec_float := binary_normalize prec emax z 0 false.

(** A mantissa of exactly [prec] digits, with an exponent away from the
    ends of the range: what the operations below take and return. *)
Definition normal (x : spec_float) : Prop :=
  match x with
  | S754_finite _ m e =>
      2 ^ (prec - 1) <= Z.pos m < 2 ^ prec
      /\ SpecFloat.emin prec emax <= e /\ e <= emax - prec
  | _ => False
  end.

(** The value of the format nearest to the positive integer [V]. *)
Definition rint (V : Z) : Z :=
  if Zdigits2 V <=? prec then V * 2 ^ (prec - Zdigits2 V)
  else rne V (Zdigits2 V - prec).

Definition round_int (s : bool) (V : Z) : spec_float :=
  pack s (rint V) (Zdigits2 V - prec).

End Defs.

End Format.

(** ** The main loop on lists

    A second description of the main loop, on lists in place of iterators:
    which entries a step adds or changes, in the order the step visits
    them, and the running maximum of the candidates of these entries.
    [first_candidate] says whether the first gene contributes a candidate
    as well. *)

Module Spec.

(** What a step leaves behind: the history, and the entries it touched. *)
Record update := { new_history : list History; touched : list History }.

Definition bump (w : spec_float) (e : History) : History :=
  {| pos_y := pos_y e; value := Double.add (value e) w |}.

Definition above (pivot_f : spec_float) (e : History) : bool :=
  Single.gtb (Single.of_uint (pos_y e)) pivot_f.

(** The number of entries passed over by the backward walk, given the
    entries from the tail of the history to its second entry. *)
Fixpoint walk_back (pivot_f : spec_float) (from_tail : list History) : nat :=
  match from_tail with
  | [] => O
  | e :: rest => if above pivot_f e then S (walk_back pivot_f rest) else O
  end.

(** Case A: the new position is beyond the last entry. *)
Definition extend (p : Z) (w : spec_float) (hist : list History) (lh : History) : update :=
  let nh := {| pos_y := p; value := Double.add (value lh) w |} in
  {| new_history := hist ++ [nh]; touched := [nh] |}.

(** Case B: every entry passed over gets [w] added; the new entry is put
    after the entry where the walk stopped, with the value of that entry
    plus [w].  The walk never passes over the first entry. *)
Definition insert_within (pivot_f : spec_float) (p : Z) (w : spec_float)
           (hist : list History) : option update :=
  let k := (length hist - 1 - walk_back pivot_f (reverse (tail hist)))%nat in
  stop ← hist !! k;
  let nh := {| pos_y := p; value := Double.add (value stop) w |} in
  let bumped := bump w <$> drop (S k) hist in
  Some {| new_history := take (S k) hist ++ nh :: bumped;
          touched := reverse bumped ++ [nh] |}.

Section Scan.
Variable options : Options.

(** The running maximum, over the candidates of the entries [es]. *)
Definition max_over (tw : spec_float) (i : Z) (es : list History) (rv : spec_float)
  : spec_float :=
  foldl (fun rv e => keep_max (candidate options tw i e) rv) rv es.

Definition first (first_candidate : bool) (tw : spec_float) (buff gene_list0 : list Z)
  : outcome scan :=
  st ← first_step options buff gene_list0;
  mret {| history := history st;
          rvalue := if first_candidate then max_over tw 0 (history st) (rvalue st)
                    else rvalue st |}.

Definition next (tw : spec_float) (buff gene_list0 : list Z) (st : scan) (i : Z)
  : outcome scan :=
  ivalue ← vget gene_list0 i;
  b ← vget buff ivalue;
  let pivot_f := Single.of_uint b in
  let iw := calculateWeight i (pivot options) in
  p ← Single.to_uint pivot_f;
  let jw := calculateWeight p (pivot options) in
  let w := if Double.ltb iw jw then iw else jw in
  match last (history st) with
  | None => Undefined (OutOfBounds (-1))
  | Some lh =>
      let u :=
        if Single.gtb pivot_f (Single.of_uint (pos_y lh))
        then Some (extend p w (history st) lh)
        else insert_within pivot_f p w (history st) in
      match u with
      | None => Undefined (OutOfBounds (-1))
      | Some u =>
          mret {| history := new_history u;
                  rvalue := max_over tw i (touched u) (rvalue st) |}
      end
  end.

Definition scan_all (first_candidate : bool) (gene_list0 gene_list1 : list Z)
  : outcome scan :=
  let tw := total_weight options (length gene_list0) in
  buff ← rank_lookup (length gene_list0) gene_list1;
  st0 ← first first_candidate tw buff gene_list0;
  foldl (fun acc i => st ← acc; next tw buff gene_list0 st i)
        (Done st0) (seqZ 1 (num_genes options - 1)).

Definition score (first_candidate : bool) (gene_list0 gene_list1 : list Z)
  : outcome spec_float :=
  st ← scan_all first_candidate gene_list0 gene_list1;
  mret (Double.mul (rvalue st) (Double.sqrt (Double.of_uint (num_genes options)))).

End Scan.

End Spec.

(** [options] with the flag [-t] set or cleared. *)
Definition with_two_tailed (b : bool) (o : Options) : Options :=
  {| num_genes := num_genes o; num_lists := num_lists o; pivot := pivot o;
     two_tailed := b; num_procs := num_procs o; mpi_id := mpi_id o |}.

(** The larger of two [float] scores, as the pair loop takes it. *)
Definition float_max (fwd rev : spec_float) : spec_float :=
  if Single.gtb rev fwd then rev else fwd.


(** ** Further notions used by the statements *)

(** A line of text: it holds no line end. *)
Definition one_line (l : string) : bool :=
  forallb (fun c => negb (Ascii.eqb c Stream.newline)) (list_ascii_of_string l).

(** The position [scoreLists] gives the gene at rank [i] of [gene_list0]:
    [buff[gene_list0[i]]], stored in the [float pivot] and from there in
    the [unsigned int pos_y] of the new entry. *)
Definition position (buff gene_list0 : list Z) (i : Z) : outcome Z :=
  ivalue ← vget gene_list0 i;
  b ← vget buff ivalue;
  Single.to_uint (Single.of_uint b).

(** Options for a file of 65536 genes. *)
Definition many_genes : Options :=
  {| num_genes := 65536; num_lists := 2; pivot := 0; two_tailed := false;
     num_procs := 1; mpi_id := 0 |}.

(** A file whose lists carry signs: the first names the gene [-1], read
    as 4294967295, the second the gene [+2]; both are outside [0, 2). *)
Definition file_signed_gene : string :=
  Stream.of_lines ["2 2"; "0 -1"; "0 +2"]%string.

(** A file whose first list writes the gene 1 with a plus sign. *)
Definition file_plus_sign : string :=
  Stream.of_lines ["2 2"; "0 +1"; "1 0"]%string.

(** A file that holds the same list twice. *)
Definition file_same_lists : string := Stream.of_lines ["2 2"; "0 1"; "0 1"]%string.

(** Five lists, the master and three clients. *)
Definition five_lists_three_clients : Options :=
  {| num_genes := 4; num_lists := 5; pivot := 0; two_tailed := false;
     num_procs := 4; mpi_id := 0 |}.

(** ** The score as the claim words it

    A second description of the score, from the words of the claim: the
    candidates of the entries that the steps touch, by their formula; the
    maximum of 0.0 and these candidates; and the product with the square
    root of the number of genes.  The products of integers in the formula
    are taken in the integers.  [first_candidate] says whether the first
    gene contributes a candidate as well.  What a step does to the history,
    and which entries it touches, is taken from [Spec]. *)

Module Claimed.

Section Score.
Variable options : Options.

(** [value / total_weight - (pos_y + 1) * (i + 1) * (1.0 / (num_genes * num_genes))]. *)
Definition statistic (tw : spec_float) (i : Z) (e : History) : spec_float :=
  SFsub 53 1024
    (SFdiv 53 1024 (value e) (Double.of_float tw))
    (SFmul 53 1024
       (binary_normalize 53 1024 ((pos_y e + 1) * (i + 1)) 0 false)
       (SFdiv 53 1024
          (binary_normalize 53 1024 1 0 false)
          (binary_normalize 53 1024 (num_genes options * num_genes options) 0 false))).

(** The larger of the running maximum and a candidate. *)
Definition larger (running c : spec_float) : spec_float :=
  if SFltb running c then c else running.

(** The maximum of 0.0 and the candidates. *)
Definition maximum (cs : list spec_float) : spec_float :=
  foldl larger (S754_zero false) cs.

(** The change of the history in step [i], and the entries touched. *)
Definition touch (buff gene_list0 : list Z) (hist : list History) (i : Z)
  : outcome Spec.update :=
  ivalue ← vget gene_list0 i;
  b ← vget buff ivalue;
  let pivot_f := Single.of_uint b in
  let iw := calculateWeight i (pivot options) in
  p ← Single.to_uint pivot_f;
  let jw := calculateWeight p (pivot options) in
  let w := if Double.ltb iw jw then iw else jw in
  match last hist with
  | None => Undefined (OutOfBounds (-1))
  | Some lh =>
      match (if Single.gtb pivot_f (Single.of_uint (pos_y lh))
             then Some (Spec.extend p w hist lh)
             else Spec.insert_within pivot_f p w hist) with
      | None => Undefined (OutOfBounds (-1))
      | Some u => Done u
      end
  end.

(** The entries touched by the steps [ids], each with the number of its
    step, in the order in which they are touched. *)
Fixpoint touches (buff gene_list0 : list Z) (hist : list History) (ids : list Z)
  : outcome (list (Z * History)) :=
  match ids with
  | [] => Done []
  | i :: rest =>
      u ← touch buff gene_list0 hist i;
      later ← touches buff gene_list0 (Spec.new_history u) rest;
      mret (((fun e => (i, e)) <$> Spec.touched u) ++ later)
  end.

Definition candidates (first_candidate : bool) (gene_list0 gene_list1 : list Z)
  : outcome (list spec_float) :=
  let tw := total_weight options (length gene_list0) in
  buff ← rank_lookup (length gene_list0) gene_list1;
  p0 ← position buff gene_list0 0;
  let first := entry p0 (calculateWeight 0 (pivot options)) in
  ts ← touches buff gene_list0 [first] (seqZ 1 (num_genes options - 1));
  mret ((fun '(i, e) => statistic tw i e)
          <$> ((if first_candidate then [(0, first)] else []) ++ ts)).

Definition score (first_candidate : bool) (gene_list0 gene_list1 : list Z)
  : outcome spec_float :=
  cs ← candidates first_candidate gene_list0 gene_list1;
  mret (SFmul 53 1024 (maximum cs)
          (SFsqrt 53 1024 (binary_normalize 53 1024 (num_genes options) 0 false))).

End Score.

End Claimed.
(** * Properties *)

(** ** Floating point: the order, and rounding *)

Module FloatOrder.
Import Format.

Lemma compare_cont_Eq (m1 m2 : positive) : Pos.compare_cont Eq m1 m2 = (m1 ?= m2)%positive.
Proof. reflexivity. Qed.


Lemma lex_Lt (e1 e2 : Z) (m1 m2 : positive) :
  lex e1 m1 e2 m2 = Lt <-> e1 < e2 \/ (e1 = e2 /\ (m1 < m2)%positive).
Proof.
  unfold lex. destruct (Z.compare_spec e1 e2).
  - rewrite Pos.compare_lt_iff. lia.
  - split; [lia|done].
  - split; [done|lia].
Qed.

Lemma lex_Gt (e1 e2 : Z) (m1 m2 : positive) :
  lex e1 m1 e2 m2 = Gt <-> e2 < e1 \/ (e1 = e2 /\ (m2 < m1)%positive).
Proof.
  unfold lex. destruct (Z.compare_spec e1 e2).
  - rewrite Pos.compare_gt_iff. lia.
  - split; [done|lia].
  - split; [lia|done].
Qed.

Lemma SFltb_finite_pos (m1 m2 : positive) (e1 e2 : Z) :
  SFltb (S754_finite false m1 e1) (S754_finite false m2 e2) = true
  <-> e1 < e2 \/ (e1 = e2 /\ (m1 < m2)%positive).
Proof.
  rewrite <- lex_Lt. unfold SFltb, SFcompare, lex. rewrite compare_cont_Eq.
  destruct (e1 ?= e2); try done. by destruct (m1 ?= m2)%positive.
Qed.

Lemma SFltb_finite_neg (m1 m2 : positive) (e1 e2 : Z) :
  SFltb (S754_finite true m1 e1) (S754_finite true m2 e2) = true
  <-> e2 < e1 \/ (e1 = e2 /\ (m2 < m1)%positive).
Proof.
  rewrite <- lex_Gt. unfold SFltb, SFcompare, lex. rewrite compare_cont_Eq.
  destruct (e1 ?= e2); try done. by destruct (m1 ?= m2)%positive.
Qed.



(** ... and transitive. *)
Lemma SFltb_trans (x y z : spec_float) :
  SFltb x y = true -> SFltb y z = true -> SFltb x z = true.
Proof.
  destruct x as [sx|sx| |sx mx ex], y as [sy|sy| |sy my ey], z as [sz|sz| |sz mz ez];
    try (destruct sx); try (destruct sy); try (destruct sz); try done.
  - intros H1%SFltb_finite_neg H2%SFltb_finite_neg. apply SFltb_finite_neg. lia.
  - intros H1%SFltb_finite_pos H2%SFltb_finite_pos. apply SFltb_finite_pos. lia.
Qed.


Lemma nonneg_cases (x : spec_float) :
  nonneg x = true <->
  (exists s, x = S754_zero s) \/ x = S754_infinity false \/ exists m e, x = S754_finite false m e.
Proof.
  destruct x as [s|[]| |[] m e]; unfold nonneg; simpl; split; try done;
    try (intros [[s' [=]]|[[=]|(m' & e' & [=])]]); eauto.
Qed.

Lemma signed_nonneg (x : spec_float) : signed false x -> nonneg x = true.
Proof. by destruct x as [[]|[]| |[] m e]. Qed.

(** What is above a value that is not negative is not negative. *)
Lemma signed_above (x y : spec_float) :
  signed false x -> SFltb x y = true -> signed false y.
Proof. by destruct x as [[]|[]| |[] mx ex], y as [[]|[]| |[] my ey]. Qed.

Lemma SFleb_refl (s : bool) (x : spec_float) : signed s x -> SFleb x x = true.
Proof.
  destruct x as [[]|[]| |[] m e]; try done; intros _; unfold SFleb, SFcompare;
    rewrite Z.compare_refl, compare_cont_Eq, Pos.compare_refl; done.
Qed.

Lemma SFltb_leb (x y : spec_float) : SFltb x y = true -> SFleb x y = true.
Proof. unfold SFltb, SFleb. by destruct (SFcompare x y) as [[]|]. Qed.

End FloatOrder.

Module Rounding.
Import Format.

Lemma digits2_pos_spec (p : positive) :
  2 ^ (Z.pos (digits2_pos p) - 1) <= Z.pos p < 2 ^ Z.pos (digits2_pos p).
Proof.
  induction p as [p IH|p IH|]; simpl digits2_pos; [| |simpl; lia].
  - rewrite Pos2Z.inj_succ, Z.pow_succ_r by lia.
    replace (Z.succ (Z.pos (digits2_pos p)) - 1) with (Z.succ (Z.pos (digits2_pos p) - 1)) by lia.
    rewrite Z.pow_succ_r by lia. lia.
  - rewrite Pos2Z.inj_succ, Z.pow_succ_r by lia.
    replace (Z.succ (Z.pos (digits2_pos p)) - 1) with (Z.succ (Z.pos (digits2_pos p) - 1)) by lia.
    rewrite Z.pow_succ_r by lia. lia.
Qed.

Lemma Zdigits2_spec (m : Z) :
  0 < m -> 2 ^ (Zdigits2 m - 1) <= m < 2 ^ Zdigits2 m.
Proof. destruct m as [|p|p]; try lia. intros _. apply digits2_pos_spec. Qed.

Lemma Zdigits2_pos (m : Z) : 0 < m -> 0 < Zdigits2 m.
Proof. destruct m as [|p|p]; simpl; lia. Qed.

Lemma Zdigits2_unique (m d : Z) :
  2 ^ (d - 1) <= m < 2 ^ d -> 0 < m -> Zdigits2 m = d.
Proof.
  intros Hm Hpos. pose proof (Zdigits2_spec m Hpos) as Hs.
  pose proof (Zdigits2_pos m Hpos) as Hd.
  assert (0 < d).
  { destruct (decide (0 < d)); [done|]. rewrite (Z.pow_neg_r 2 (d - 1)) in Hm by lia.
    assert (2 ^ d <= 1); [|lia].
    destruct (decide (d = 0)) as [->|]; [simpl; lia|]. rewrite Z.pow_neg_r; lia. }
  destruct (Z.lt_trichotomy (Zdigits2 m) d) as [Hlt|[Heq|Hgt]]; [|done|].
  - assert (2 ^ Zdigits2 m <= 2 ^ (d - 1)) by (apply Z.pow_le_mono_r; lia). lia.
  - assert (2 ^ d <= 2 ^ (Zdigits2 m - 1)) by (apply Z.pow_le_mono_r; lia). lia.
Qed.

Lemma Zdigits2_mul_pow2 (m k : Z) :
  0 < m -> 0 <= k -> Zdigits2 (m * 2 ^ k) = Zdigits2 m + k.
Proof.
  intros Hm Hk. pose proof (Zdigits2_spec m Hm) as Hs. pose proof (Zdigits2_pos m Hm) as Hd.
  assert (0 < 2 ^ k) by (apply Z.pow_pos_nonneg; lia).
  apply Zdigits2_unique; [|nia].
  replace (Zdigits2 m + k - 1) with ((Zdigits2 m - 1) + k) by lia.
  rewrite !Z.pow_add_r by lia. nia.
Qed.

Lemma div_eucl_pair (a b : Z) : Z.div_eucl a b = (a / b, a mod b).
Proof. unfold Z.div, Z.modulo. by destruct (Z.div_eucl a b). Qed.

Lemma shift_match (m s : Z) :
  0 <= s ->
  match s with
  | 0 => m
  | Z.pos _ => Z.shiftl m s
  | Z.neg _ => 0
  end = m * 2 ^ s.
Proof.
  intros Hs. destruct s as [|p|p]; [simpl; lia| |lia].
  by rewrite Z.shiftl_mul_pow2.
Qed.

(** ** Shifting to the right *)

Lemma iter_pos_nat {A : Type} (f : A -> A) (n : positive) :
  forall x : A, SpecFloat.iter_pos f n x = Nat.iter (Pos.to_nat n) f x.
Proof.
  induction n as [n IH|n IH|]; intros x; simpl SpecFloat.iter_pos.
  - rewrite !IH, Pos2Nat.inj_xI.
    replace (S (2 * Pos.to_nat n)) with (S (Pos.to_nat n + Pos.to_nat n)) by lia.
    by rewrite Nat.iter_succ_r, Nat.iter_add.
  - rewrite !IH, Pos2Nat.inj_xO.
    replace (2 * Pos.to_nat n)%nat with (Pos.to_nat n + Pos.to_nat n)%nat by lia.
    by rewrite Nat.iter_add.
  - reflexivity.
Qed.

Lemma shr_1_spec (m : Z) (r s : bool) :
  0 <= m ->
  shr_1 {| shr_m := m; shr_r := r; shr_s := s |}
  = {| shr_m := m / 2; shr_r := Z.odd m; shr_s := r || s |}.
Proof.
  intros Hm. rewrite <- Z.div2_div. by destruct m as [|[p|p|]|p].
Qed.

Lemma shr_iter (k : nat) (m : Z) :
  0 <= m ->
  Nat.iter (S k) shr_1 {| shr_m := m; shr_r := false; shr_s := false |}
  = {| shr_m := m / 2 ^ Z.of_nat (S k);
       shr_r := Z.testbit m (Z.of_nat k);
       shr_s := negb (m mod 2 ^ Z.of_nat k =? 0) |}.
Proof.
  intros Hm. induction k as [|k IH].
  - rewrite Nat.iter_succ. change (Nat.iter 0 shr_1 ?x) with x.
    rewrite shr_1_spec by done. f_equal.
    rewrite Z.mod_1_r. done.
  - rewrite Nat.iter_succ, IH.
    assert (Hp : 0 < 2 ^ Z.of_nat (S k)) by (apply Z.pow_pos_nonneg; lia).
    rewrite shr_1_spec by (apply Z.div_pos; lia). f_equal.
    + rewrite Z.div_div by lia. f_equal.
      rewrite (Nat2Z.inj_succ (S k)), Z.pow_succ_r by lia. lia.
    + rewrite (Z.testbit_odd m (Z.of_nat (S k))), Z.shiftr_div_pow2 by lia. done.
    + rewrite (Nat2Z.inj_succ k), Z.pow_succ_r by lia.
      assert (Hk : 0 < 2 ^ Z.of_nat k) by (apply Z.pow_pos_nonneg; lia).
      rewrite (Z.mul_comm 2), Z.rem_mul_r by lia.
      rewrite <- Z.testbit_spec' by lia.
      pose proof (Z.mod_pos_bound m (2 ^ Z.of_nat k) Hk).
      destruct (Z.testbit m (Z.of_nat k)); simpl Z.b2z.
      * simpl. symmetry. apply negb_true_iff, Z.eqb_neq. lia.
      * simpl. f_equal. rewrite Z.mul_0_r, Z.add_0_r. done.
Qed.

Lemma shr_m_iter (k : nat) (mrs : shr_record) :
  0 <= shr_m mrs -> shr_m (Nat.iter k shr_1 mrs) = shr_m mrs / 2 ^ Z.of_nat k.
Proof.
  intros Hm. induction k as [|k IH].
  - simpl. by rewrite Z.div_1_r.
  - rewrite Nat.iter_succ. destruct (Nat.iter k shr_1 mrs) as [m r s]. simpl in IH.
    assert (Hp : 0 < 2 ^ Z.of_nat k) by (apply Z.pow_pos_nonneg; lia).
    rewrite shr_1_spec by (subst m; apply Z.div_pos; lia). simpl. subst m.
    rewrite Z.div_div by lia. f_equal. rewrite Nat2Z.inj_succ, Z.pow_succ_r by lia. lia.
Qed.


Lemma shr_m_nonneg (mrs : shr_record) (e n : Z) :
  0 <= shr_m mrs -> 0 <= shr_m (shr mrs e n).1.
Proof.
  intros Hm. unfold shr. destruct n as [|p|p]; simpl; try done.
  rewrite iter_pos_nat, shr_m_iter by done.
  apply Z.div_pos; [done|]. apply Z.pow_pos_nonneg; lia.
Qed.

Lemma round_nearest_even_nonneg (m : Z) (l : location) :
  0 <= m -> 0 <= round_nearest_even m l.
Proof. intros Hm. destruct l as [|[]]; simpl; try lia. destruct (Z.even m); lia. Qed.

(** Rounding keeps the sign, and never gives a NaN. *)
Lemma binary_round_aux_signed (prec emax : Z) (s : bool) (M E : Z) (l : location) :
  0 <= M -> signed s (binary_round_aux prec emax s M E l).
Proof.
  intros HM. unfold binary_round_aux, shr_fexp.
  pose proof (shr_m_nonneg (shr_record_of_loc M l) E
                (fexp prec emax (Zdigits2 M + E) - E)) as H1.
  destruct (shr (shr_record_of_loc M l) E _) as [mrs' e']. simpl in H1.
  specialize (H1 ltac:(by destruct l as [|[]])).
  pose proof (round_nearest_even_nonneg (shr_m mrs') (loc_of_shr_record mrs') H1) as H2.
  set (m1 := round_nearest_even (shr_m mrs') (loc_of_shr_record mrs')) in *.
  pose proof (shr_m_nonneg (shr_record_of_loc m1 loc_Exact) e'
                (fexp prec emax (Zdigits2 m1 + e') - e') H2) as H3.
  destruct (shr (shr_record_of_loc m1 loc_Exact) e' _) as [mrs'' e'']. simpl in H3.
  destruct (shr_m mrs'') as [|p|p]; try done; try lia.
  by destruct (e'' <=? emax - prec).
Qed.

Lemma binary_round_signed (prec emax : Z) (s : bool) (m : positive) (e : Z) :
  signed s (binary_round prec emax s m e).
Proof.
  unfold binary_round. destruct (shl_align m e _) as [mz ez].
  by apply binary_round_aux_signed.
Qed.

(** The product of a value that is not a NaN with a finite value. *)
Lemma SFmul_finite_signed (prec emax : Z) (sx sy : bool) (x : spec_float)
      (my : positive) (ey : Z) :
  signed sx x -> signed (xorb sx sy) (SFmul prec emax x (S754_finite sy my ey)).
Proof.
  destruct x as [s|s| |s m e]; simpl; try done; try (by intros ->).
  intros ->. by apply binary_round_aux_signed.
Qed.

(** ** Rounding to the format *)

Section Format.
Variables prec emax : Z.
Hypothesis Hformat : 2 <= prec < emax.
#[local] Set Default Proof Using "Hformat".

Local Abbreviation pack := (pack prec).
Local Abbreviation canon := (canon prec).
Local Abbreviation canon_abs := (canon_abs prec).
Local Abbreviation of_int := (of_int prec emax).
Local Abbreviation normal := (normal prec emax).
Local Abbreviation rint := (rint prec).
Local Abbreviation round_int := (round_int prec).



Lemma fexp_normal (d e : Z) :
  SpecFloat.emin prec emax <= d + e - prec -> fexp prec emax (d + e) = d + e - prec.
Proof. unfold fexp. lia. Qed.

Lemma shr_exact (M E n : Z) :
  0 <= M -> 0 < n ->
  shr {| shr_m := M; shr_r := false; shr_s := false |} E n
  = ({| shr_m := M / 2 ^ n;
        shr_r := Z.testbit M (n - 1);
        shr_s := negb (M mod 2 ^ (n - 1) =? 0) |}, E + n).
Proof.
  intros HM Hn. destruct n as [|p|p]; try lia. unfold shr. f_equal.
  rewrite iter_pos_nat. destruct (Pos.to_nat p) as [|k] eqn:Hk; [lia|].
  rewrite shr_iter by done.
  replace (Z.of_nat (S k)) with (Z.pos p) by lia.
  by replace (Z.of_nat k) with (Z.pos p - 1) by lia.
Qed.

Lemma round_of_record (q : Z) (rb sb : bool) :
  round_nearest_even q (loc_of_shr_record {| shr_m := q; shr_r := rb; shr_s := sb |})
  = if rb then if sb then q + 1 else if Z.even q then q else q + 1 else q.
Proof. by destruct rb, sb. Qed.

Lemma pow2_prec_pos : 0 < 2 ^ (prec - 1).
Proof. apply Z.pow_pos_nonneg; lia. Qed.

Lemma pow2_prec_double : 2 ^ prec = 2 * 2 ^ (prec - 1).
Proof. rewrite <- Z.pow_succ_r by lia. f_equal. lia. Qed.

(** The last step of [binary_round_aux]. *)
Lemma last_shift (s : bool) (m e : Z) :
  2 ^ (prec - 1) <= m <= 2 ^ prec ->
  SpecFloat.emin prec emax <= e -> e + 1 <= emax - prec ->
  (let '(mrs, e') := shr_fexp prec emax m e loc_Exact in
   match shr_m mrs with
   | 0 => S754_zero s
   | Z.pos p => if e' <=? emax - prec then S754_finite s p e' else S754_infinity s
   | Z.neg _ => S754_nan
   end) = pack s m e.
Proof.
  intros Hm He1 He2. pose proof pow2_prec_pos as Hp. pose proof pow2_prec_double as Hd.
  unfold pack, shr_fexp. destruct (Z.eqb_spec m (2 ^ prec)) as [Heq|Hne].
  - assert (Hdig : Zdigits2 m = prec + 1).
    { apply Zdigits2_unique; [|lia]. replace (prec + 1 - 1) with prec by lia.
      rewrite Z.pow_add_r by lia. lia. }
    rewrite Hdig, fexp_normal by lia.
    replace (prec + 1 + e - prec - e) with 1 by lia.
    simpl shr_record_of_loc. rewrite shr_exact by lia.
    cbn [shr_m]. rewrite Z.pow_1_r, Heq, Hd, Z.mul_comm, Z.div_mul by lia.
    destruct (2 ^ (prec - 1)) as [|p|p] eqn:Hpw; try lia.
    simpl Z.to_pos. destruct (Z.leb_spec (e + 1) (emax - prec)); [done|lia].
  - assert (Hdig : Zdigits2 m = prec) by (apply Zdigits2_unique; lia).
    rewrite Hdig, fexp_normal by lia.
    replace (prec + e - prec - e) with 0 by lia. simpl.
    destruct m as [|p|p]; try lia.
    simpl Z.to_pos. destruct (Z.leb_spec e (emax - prec)); [done|lia].
Qed.

(** Rounding an exact mantissa of at least [prec] digits. *)
Lemma binary_round_aux_exact (s : bool) (M E : Z) :
  0 < M ->
  let n := Zdigits2 M - prec in
  0 <= n ->
  SpecFloat.emin prec emax <= E + n -> E + n + 1 <= emax - prec ->
  binary_round_aux prec emax s M E loc_Exact = pack s (rne M n) (E + n).
Proof.
  intros HM n Hn He1 He2. pose proof pow2_prec_pos as Hp. pose proof pow2_prec_double as Hd.
  pose proof (Zdigits2_spec M HM) as Hs.
  unfold binary_round_aux.
  unfold shr_fexp at 1. rewrite fexp_normal by (unfold n in *; lia).
  replace (Zdigits2 M + E - prec - E) with n by (unfold n; lia).
  simpl shr_record_of_loc.
  destruct (decide (n = 0)) as [Hz|Hnz].
  - rewrite Hz. cbn [shr]. cbn [shr_m]. cbn [loc_of_shr_record round_nearest_even].
    unfold rne. change (0 <=? 0) with true. cbn iota. rewrite Z.add_0_r.
    rewrite <- (last_shift s M E); [done| |lia|lia].
    replace (Zdigits2 M) with prec in Hs by (unfold n in *; lia). lia.
  - rewrite shr_exact by lia. rewrite round_of_record.
    assert (Hpn : 0 < 2 ^ n) by (apply Z.pow_pos_nonneg; lia).
    assert (Hq : 2 ^ (prec - 1) <= M / 2 ^ n < 2 ^ prec).
    { replace (Zdigits2 M) with (prec + n) in Hs by (unfold n; lia).
      replace (prec + n - 1) with ((prec - 1) + n) in Hs by lia.
      rewrite !Z.pow_add_r in Hs by lia. split.
      - apply Z.div_le_lower_bound; lia.
      - apply Z.div_lt_upper_bound; lia. }
    unfold rne. destruct (Z.leb_spec n 0); [lia|].
    rewrite <- last_shift; [done| |lia|lia].
    destruct (Z.testbit M (n - 1)), (negb (M mod 2 ^ (n - 1) =? 0)), (Z.even (M / 2 ^ n)); lia.
Qed.

(** Rounding a mantissa of [prec] digits with a remainder. *)
Lemma binary_round_aux_inexact (s : bool) (M E : Z) (l : location) :
  2 ^ (prec - 1) <= M < 2 ^ prec ->
  SpecFloat.emin prec emax <= E -> E + 1 <= emax - prec ->
  binary_round_aux prec emax s M E l = pack s (round_nearest_even M l) E.
Proof.
  intros HM He1 He2. pose proof pow2_prec_pos as Hp.
  unfold binary_round_aux. unfold shr_fexp at 1.
  rewrite (Zdigits2_unique M prec) by lia. rewrite fexp_normal by lia.
  replace (prec + E - prec - E) with 0 by lia. cbn [shr].
  assert (Hl : round_nearest_even (shr_m (shr_record_of_loc M l))
                 (loc_of_shr_record (shr_record_of_loc M l)) = round_nearest_even M l).
  { by destruct l as [|[]]. }
  rewrite Hl. rewrite <- last_shift; [done| |lia|lia].
  destruct l as [|[]]; simpl; try lia; destruct (Z.even M); lia.
Qed.

Lemma pack_finite (s : bool) (m e : Z) :
  exists (p : positive) (e' : Z), pack s m e = S754_finite s p e'.
Proof. unfold pack. destruct (m =? 2 ^ prec); eauto. Qed.


(** ** Integers in the format *)

Lemma iter_xO (k m : positive) : Z.pos (Pos.iter xO m k) = Z.pos m * 2 ^ Z.pos k.
Proof.
  induction k as [|k IH] using Pos.peano_ind.
  - simpl. lia.
  - rewrite Pos.iter_succ, Pos2Z.inj_xO, IH, Pos2Z.inj_succ, Z.pow_succ_r by lia. lia.
Qed.

Lemma shl_align_spec (m : positive) (e e' : Z) :
  let '(mz, ez) := shl_align m e e' in
  Z.pos mz = Z.pos m * 2 ^ (e - ez) /\ ez = Z.min e e'.
Proof.
  unfold shl_align. destruct (e' - e) as [|k|k] eqn:Hk.
  - rewrite Z.sub_diag. simpl. lia.
  - rewrite Z.sub_diag. simpl. lia.
  - rewrite iter_xO. split; [|lia]. f_equal. f_equal. lia.
Qed.



(** Rounding [N * 2 ^ j * 2 ^ (- j)], an integer of at most [prec] digits,
    is exact. *)
Lemma binary_round_int (s : bool) (N j : Z) (m : positive) :
  0 < N -> Zdigits2 N <= prec -> 0 <= j -> Z.pos m = N * 2 ^ j ->
  binary_round prec emax s m (- j) = canon_abs s N.
Proof.
  intros HN Hd Hj Hm. pose proof (Zdigits2_pos N HN) as HdN.
  pose proof pow2_prec_pos as Hp. pose proof pow2_prec_double as Hdb.
  assert (Hdm : Z.pos (digits2_pos m) = Zdigits2 N + j).
  { change (Z.pos (digits2_pos m)) with (Zdigits2 (Z.pos m)).
    rewrite Hm. by apply Zdigits2_mul_pow2. }
  assert (Hmin : SpecFloat.emin prec emax <= Zdigits2 N - prec) by (unfold SpecFloat.emin; lia).
  unfold binary_round, canon_abs.
  pose proof (shl_align_spec m (- j) (fexp prec emax (Z.pos (digits2_pos m) + - j))) as Hsh.
  destruct (shl_align m (- j) (fexp prec emax (Z.pos (digits2_pos m) + - j))) as [mz ez].
  destruct Hsh as [Hmz Hez]. rewrite fexp_normal in Hez by lia.
  assert (Hval : Z.pos mz = N * 2 ^ (- ez)).
  { rewrite Hmz, Hm, <- Z.mul_assoc, <- Z.pow_add_r by lia. f_equal. f_equal. lia. }
  assert (Hdz : Zdigits2 (Z.pos mz) = Zdigits2 N - ez).
  { rewrite Hval. rewrite Zdigits2_mul_pow2 by lia. lia. }
  rewrite binary_round_aux_exact; [|lia|lia|lia|lia].
  rewrite Hdz. unfold pack.
  set (n := Zdigits2 N - ez - prec).
  assert (Hrne : rne (Z.pos mz) n = N * 2 ^ (prec - Zdigits2 N)).
  { unfold rne. destruct (Z.leb_spec n 0) as [Hle|Hgt].
    - rewrite Hval. f_equal. f_equal. lia.
    - assert (Hlow : Z.testbit (Z.pos mz) (n - 1) = false).
      { rewrite Hval. apply Z.mul_pow2_bits_low. lia. }
      rewrite Hlow. rewrite Hval.
      replace (- ez) with ((prec - Zdigits2 N) + n) by lia.
      rewrite Z.pow_add_r, Z.mul_assoc, Z.div_mul by lia. done. }
  rewrite Hrne.
  pose proof (Zdigits2_spec N HN) as HsN.
  assert (Hlt : N * 2 ^ (prec - Zdigits2 N) < 2 ^ prec).
  { replace prec with (Zdigits2 N + (prec - Zdigits2 N)) at 2 by lia.
    rewrite Z.pow_add_r by lia.
    assert (0 < 2 ^ (prec - Zdigits2 N)) by (apply Z.pow_pos_nonneg; lia). nia. }
  destruct (Z.eqb_spec (N * 2 ^ (prec - Zdigits2 N)) (2 ^ prec)); [lia|].
  f_equal. lia.
Qed.


Lemma of_int_canon (z : Z) : Zdigits2 z <= prec -> of_int z = canon z.
Proof.
  intros Hd. unfold of_int, binary_normalize, canon. destruct z as [|p|p]; [done| |].
  - change 0 with (- 0) at 1.
    rewrite (binary_round_int false (Z.pos p) 0 p); [done|lia|done|lia|lia].
  - change 0 with (- 0) at 1.
    rewrite (binary_round_int true (Z.pos p) 0 p); [done|lia|done|lia|lia].
Qed.

Lemma canon_abs_pos (N : Z) : 0 < N -> canon_abs false N = canon N.
Proof. by destruct N. Qed.

Lemma canon_abs_neg (N : Z) : 0 < N -> canon_abs true N = canon (- N).
Proof. by destruct N. Qed.

(** The aligned mantissa of a canonical integer. *)
Lemma canon_align (N ez : Z) :
  0 < N -> Zdigits2 N <= prec -> ez <= Zdigits2 N - prec ->
  Z.pos (shl_align (Z.to_pos (N * 2 ^ (prec - Zdigits2 N))) (Zdigits2 N - prec) ez).1
  = N * 2 ^ (- ez).
Proof.
  intros HN Hd Hez.
  pose proof (shl_align_spec (Z.to_pos (N * 2 ^ (prec - Zdigits2 N))) (Zdigits2 N - prec) ez) as Hsh.
  destruct (shl_align _ _ ez) as [mz ez']. destruct Hsh as [Hmz ->]. simpl.
  assert (0 < 2 ^ (prec - Zdigits2 N)) by (apply Z.pow_pos_nonneg; lia).
  rewrite Hmz, Z2Pos.id by nia. rewrite <- Z.mul_assoc, <- Z.pow_add_r by lia.
  f_equal. f_equal. lia.
Qed.

Lemma canon_finite (z : Z) :
  z <> 0 -> canon z = canon_abs (z <? 0) (Z.abs z).
Proof. by destruct z. Qed.

Lemma normalize_int (z j : Z) :
  Zdigits2 z <= prec -> 0 <= j ->
  binary_normalize prec emax (z * 2 ^ j) (- j) false = canon z.
Proof.
  intros Hd Hj. assert (Hp : 0 < 2 ^ j) by (apply Z.pow_pos_nonneg; lia).
  destruct z as [|p|p].
  - done.
  - destruct (Z.pos p * 2 ^ j) as [|m|m] eqn:Hm; try lia.
    simpl binary_normalize.
    rewrite (binary_round_int false (Z.pos p) j m); [done|lia|done|lia|lia].
  - destruct (Z.neg p * 2 ^ j) as [|m|m] eqn:Hm; try lia.
    simpl binary_normalize.
    rewrite (binary_round_int true (Z.pos p) j m); [done|lia|done|lia|lia].
Qed.

Lemma Zdigits2_opp (z : Z) : Zdigits2 (- z) = Zdigits2 z.
Proof. by destruct z. Qed.

Lemma cond_Zopp_canon (z : Z) :
  z <> 0 -> cond_Zopp (z <? 0) (Z.abs z) = z.
Proof. destruct z; simpl; done. Qed.

(** Addition and subtraction of integers of the format are exact when the
    result is in the format. *)
Lemma SFadd_canon (a b : Z) :
  Zdigits2 a <= prec -> Zdigits2 b <= prec -> Zdigits2 (a + b) <= prec ->
  SFadd prec emax (canon a) (canon b) = canon (a + b).
Proof.
  intros Ha Hb Hab.
  destruct (decide (a = 0)) as [->|Hna]; [by destruct b|].
  destruct (decide (b = 0)) as [->|Hnb]; [rewrite Z.add_0_r; by destruct a|].
  rewrite (canon_finite a Hna), (canon_finite b Hnb). unfold canon_abs. unfold SFadd.
  set (ez := Z.min (Zdigits2 (Z.abs a) - prec) (Zdigits2 (Z.abs b) - prec)).
  assert (HdA : Zdigits2 (Z.abs a) = Zdigits2 a) by (by destruct a).
  assert (HdB : Zdigits2 (Z.abs b) = Zdigits2 b) by (by destruct b).
  assert (Hez : ez <= Zdigits2 (Z.abs a) - prec /\ ez <= Zdigits2 (Z.abs b) - prec)
    by (unfold ez; lia).
  assert (Hez0 : ez <= 0) by lia.
  rewrite !canon_align by lia.
  replace (cond_Zopp (a <? 0) (Z.abs a * 2 ^ (- ez))) with (a * 2 ^ (- ez))
    by (destruct a; simpl; lia).
  replace (cond_Zopp (b <? 0) (Z.abs b * 2 ^ (- ez))) with (b * 2 ^ (- ez))
    by (destruct b; simpl; lia).
  rewrite <- Z.mul_add_distr_r.
  replace ez with (- - ez) at 2 by lia. apply normalize_int; [done|lia].
Qed.

Lemma SFsub_canon (a b : Z) :
  Zdigits2 a <= prec -> Zdigits2 b <= prec -> Zdigits2 (a - b) <= prec ->
  SFsub prec emax (canon a) (canon b) = canon (a - b).
Proof.
  intros Ha Hb Hab.
  destruct (decide (b = 0)) as [->|Hnb]; [rewrite Z.sub_0_r; by destruct a|].
  destruct (decide (a = 0)) as [->|Hna]; [by destruct b|].
  rewrite (canon_finite a Hna), (canon_finite b Hnb). unfold canon_abs. unfold SFsub.
  set (ez := Z.min (Zdigits2 (Z.abs a) - prec) (Zdigits2 (Z.abs b) - prec)).
  assert (HdA : Zdigits2 (Z.abs a) = Zdigits2 a) by (by destruct a).
  assert (HdB : Zdigits2 (Z.abs b) = Zdigits2 b) by (by destruct b).
  assert (Hez : ez <= Zdigits2 (Z.abs a) - prec /\ ez <= Zdigits2 (Z.abs b) - prec)
    by (unfold ez; lia).
  assert (Hez0 : ez <= 0) by lia.
  rewrite !canon_align by lia.
  replace (cond_Zopp (a <? 0) (Z.abs a * 2 ^ (- ez))) with (a * 2 ^ (- ez))
    by (destruct a; simpl; lia).
  replace (cond_Zopp (b <? 0) (Z.abs b * 2 ^ (- ez))) with (b * 2 ^ (- ez))
    by (destruct b; simpl; lia).
  rewrite <- Z.mul_sub_distr_r.
  replace ez with (- - ez) at 2 by lia. apply normalize_int; [done|lia].
Qed.

Lemma SFltb_canon_zero (z : Z) : SFltb (canon z) (S754_zero false) = (z <? 0).
Proof. by destruct z. Qed.


(** ** Products, halves and square roots *)


Lemma canon_normal (z : Z) : z <> 0 -> Zdigits2 z <= prec -> normal (canon z).
Proof.
  intros Hz Hd. rewrite (canon_finite z Hz). unfold canon_abs, normal.
  assert (HN : 0 < Z.abs z) by lia.
  assert (HdA : Zdigits2 (Z.abs z) = Zdigits2 z) by (by destruct z).
  pose proof (Zdigits2_spec _ HN) as Hs. pose proof (Zdigits2_pos _ HN) as Hp.
  rewrite HdA in *.
  assert (Hq : 0 < 2 ^ (prec - Zdigits2 z)) by (apply Z.pow_pos_nonneg; lia).
  rewrite Z2Pos.id by nia. unfold SpecFloat.emin. split; [|lia].
  replace (prec - 1) with ((Zdigits2 z - 1) + (prec - Zdigits2 z)) by lia.
  replace prec with (Zdigits2 z + (prec - Zdigits2 z)) at 4 by lia.
  rewrite !Z.pow_add_r by lia. nia.
Qed.

Lemma pack_rne_bounds (M : Z) :
  0 < M -> prec <= Zdigits2 M ->
  2 ^ (prec - 1) <= rne M (Zdigits2 M - prec) <= 2 ^ prec.
Proof.
  intros HM Hd. pose proof (Zdigits2_spec M HM) as Hs.
  pose proof pow2_prec_pos as Hp. pose proof pow2_prec_double as Hdb.
  unfold rne. set (n := Zdigits2 M - prec) in *.
  destruct (Z.leb_spec n 0) as [Hle|Hgt].
  - replace (Zdigits2 M) with prec in Hs by lia. lia.
  - assert (Hpn : 0 < 2 ^ n) by (apply Z.pow_pos_nonneg; lia).
    assert (Hq : 2 ^ (prec - 1) <= M / 2 ^ n < 2 ^ prec).
    { replace (Zdigits2 M) with (prec + n) in Hs by lia.
      replace (prec + n - 1) with ((prec - 1) + n) in Hs by lia.
      rewrite !Z.pow_add_r in Hs by lia. split.
      - apply Z.div_le_lower_bound; lia.
      - apply Z.div_lt_upper_bound; lia. }
    destruct (Z.testbit M (n - 1)), (negb (M mod 2 ^ (n - 1) =? 0)), (Z.even (M / 2 ^ n)); lia.
Qed.

Lemma pack_normal (s : bool) (m e : Z) :
  2 ^ (prec - 1) <= m <= 2 ^ prec ->
  SpecFloat.emin prec emax <= e -> e + 1 <= emax - prec ->
  normal (pack s m e).
Proof.
  intros Hm He1 He2. pose proof pow2_prec_pos as Hp. pose proof pow2_prec_double as Hdb.
  unfold pack, normal. destruct (Z.eqb_spec m (2 ^ prec)).
  - rewrite Z2Pos.id by lia. lia.
  - rewrite Z2Pos.id by lia. lia.
Qed.

(** The product of two normal values, as long as its exponent stays in
    range. *)
Lemma SFmul_normal (s1 s2 : bool) (m1 m2 : positive) (e1 e2 : Z) :
  normal (S754_finite s1 m1 e1) -> normal (S754_finite s2 m2 e2) ->
  let P := Z.pos m1 * Z.pos m2 in
  let n := Zdigits2 P - prec in
  SpecFloat.emin prec emax <= e1 + e2 + n -> e1 + e2 + n + 1 <= emax - prec ->
  SFmul prec emax (S754_finite s1 m1 e1) (S754_finite s2 m2 e2)
  = pack (xorb s1 s2) (rne P n) (e1 + e2 + n)
  /\ 0 <= n.
Proof.
  intros (Hm1 & _) (Hm2 & _) P n He1 He2.
  pose proof pow2_prec_pos as Hp. pose proof pow2_prec_double as Hdb.
  assert (HP : 0 < P) by (unfold P; lia).
  assert (Hn : 0 <= n).
  { unfold n. pose proof (Zdigits2_spec P HP) as Hs.
    destruct (decide (prec <= Zdigits2 P)) as [|Hlt]; [lia|exfalso].
    assert (2 ^ Zdigits2 P <= 2 ^ (prec - 1)) by (apply Z.pow_le_mono_r; lia).
    assert (2 ^ (prec - 1) <= P); [|lia]. unfold P.
    assert (1 <= 2 ^ (prec - 1)) by lia. nia. }
  split; [|done]. unfold SFmul.
  change (Z.pos (m1 * m2)) with P.
  by rewrite binary_round_aux_exact.
Qed.

Lemma canon_two : canon 2 = S754_finite false (Z.to_pos (2 ^ (prec - 1))) (2 - prec).
Proof.
  unfold canon. simpl Zdigits2. f_equal. f_equal.
  replace (prec - 1) with (Z.succ (prec - 2)) by lia. rewrite Z.pow_succ_r by lia. done.
Qed.

(** Halving a normal value is exact. *)
Lemma SFdiv_two (s : bool) (m : positive) (e : Z) :
  normal (S754_finite s m e) -> SpecFloat.emin prec emax + 2 <= e ->
  SFdiv prec emax (S754_finite s m e) (canon 2) = S754_finite s m (e - 1).
Proof.
  intros (Hm & He1 & He2) He3.
  pose proof pow2_prec_pos as Hp. pose proof pow2_prec_double as Hdb.
  rewrite canon_two. unfold SFdiv, SFdiv_core_binary.
  rewrite Z2Pos.id by lia.
  rewrite (Zdigits2_unique (Z.pos m) prec) by lia.
  rewrite (Zdigits2_unique (2 ^ (prec - 1)) prec) by lia.
  replace (prec + e - (prec + (2 - prec))) with (prec + (e - 2)) by lia.
  rewrite fexp_normal by lia.
  replace (Z.min (prec + (e - 2) - prec) (e - (2 - prec))) with (e - 2) by lia.
  replace (e - (2 - prec) - (e - 2)) with prec by lia.
  rewrite shift_match by lia.
  rewrite div_eucl_pair.
  replace (Z.pos m * 2 ^ prec) with (2 * Z.pos m * 2 ^ (prec - 1)) by lia.
  rewrite Z.div_mul, Z.mod_mul by lia.
  assert (Hloc : new_location (2 ^ (prec - 1)) 0 = loc_Exact).
  { unfold new_location, new_location_even, new_location_odd.
    by destruct (Z.even (2 ^ (prec - 1))). }
  rewrite Hloc, binary_round_aux_exact.
  - assert (Hdig : Zdigits2 (2 * Z.pos m) = prec + 1).
    { apply Zdigits2_unique; [|lia]. replace (prec + 1 - 1) with prec by lia.
      rewrite Z.pow_add_r by lia. lia. }
    rewrite Hdig. replace (prec + 1 - prec) with 1 by lia.
    unfold rne. change (1 <=? 0) with false. cbn iota.
    change (1 - 1) with 0.
    rewrite Z.testbit_even_0, Z.pow_1_r, (Z.mul_comm 2), Z.div_mul by lia.
    unfold pack. destruct (Z.eqb_spec (Z.pos m) (2 ^ prec)); [lia|].
    rewrite xorb_false_r. f_equal. lia.
  - lia.
  - rewrite (Zdigits2_unique (2 * Z.pos m) (prec + 1)); [lia| |lia].
    replace (prec + 1 - 1) with prec by lia. rewrite Z.pow_add_r by lia. lia.
  - rewrite (Zdigits2_unique (2 * Z.pos m) (prec + 1)); [lia| |lia].
    replace (prec + 1 - 1) with prec by lia. rewrite Z.pow_add_r by lia. lia.
  - rewrite (Zdigits2_unique (2 * Z.pos m) (prec + 1)); [lia| |lia].
    replace (prec + 1 - 1) with prec by lia. rewrite Z.pow_add_r by lia. lia.
Qed.

(** The square root of a normal positive value is a normal positive
    value. *)
Lemma SFsqrt_normal (m : positive) (e : Z) :
  normal (S754_finite false m e) ->
  - prec <= e <= prec ->
  exists (m' : positive) (e' : Z),
    SFsqrt prec emax (S754_finite false m e) = S754_finite false m' e'.
Proof.
  intros (Hm & He1 & He2) He.
  pose proof pow2_prec_pos as Hp. pose proof pow2_prec_double as Hdb.
  unfold SFsqrt, SFsqrt_core_binary.
  rewrite (Zdigits2_unique (Z.pos m) prec) by lia.
  rewrite !Z.div2_div.
  set (h := (prec + e + 1) / 2).
  assert (Hh : 2 * h <= prec + e + 1 < 2 * h + 2).
  { unfold h. pose proof (Z.div_mod (prec + e + 1) 2 ltac:(lia)).
    pose proof (Z.mod_pos_bound (prec + e + 1) 2 ltac:(lia)). lia. }
  assert (Hfe : fexp prec emax h = h - prec).
  { unfold fexp, SpecFloat.emin. lia. }
  rewrite Hfe.
  assert (He' : Z.min (h - prec) (e / 2) = h - prec).
  { pose proof (Z.div_mod e 2 ltac:(lia)). pose proof (Z.mod_pos_bound e 2 ltac:(lia)). lia. }
  rewrite He'.
  set (sh := e - 2 * (h - prec)).
  assert (Hsh : prec - 1 <= sh <= prec) by (unfold sh; lia).
  rewrite shift_match by lia.
  set (M := Z.pos m * 2 ^ sh).
  assert (Hps : 2 ^ (prec - 1) <= 2 ^ sh <= 2 ^ prec).
  { split; apply Z.pow_le_mono_r; lia. }
  assert (HM : 2 ^ (prec - 1) * 2 ^ (prec - 1) <= M < 2 ^ prec * 2 ^ prec) by (unfold M; nia).
  pose proof (Z.sqrtrem_spec M ltac:(lia)) as Hsq.
  destruct (Z.sqrtrem M) as [q r]. destruct Hsq as [HMq Hr].
  assert (Hq : 2 ^ (prec - 1) <= q < 2 ^ prec) by nia.
  rewrite binary_round_aux_inexact; [apply pack_finite|done| |].
  - unfold SpecFloat.emin. lia.
  - lia.
Qed.


(** ** Rounding is monotone *)

Lemma rne_arith (V k : Z) :
  0 <= V -> 0 < k ->
  rne V k =
    let q := V / 2 ^ k in
    let r := V mod 2 ^ k in
    if 2 * r <? 2 ^ k then q
    else if 2 * r =? 2 ^ k then (if Z.even q then q else q + 1)
    else q + 1.
Proof.
  intros HV Hk. unfold rne. destruct (Z.leb_spec k 0); [lia|]. cbn zeta.
  assert (Hp : 0 < 2 ^ (k - 1)) by (apply Z.pow_pos_nonneg; lia).
  assert (Hpk : 2 ^ k = 2 ^ (k - 1) * 2).
  { rewrite Z.mul_comm, <- Z.pow_succ_r by lia. f_equal. lia. }
  assert (Hr : V mod 2 ^ k
               = V mod 2 ^ (k - 1) + 2 ^ (k - 1) * Z.b2z (Z.testbit V (k - 1))).
  { rewrite Z.testbit_spec' by lia. rewrite Hpk. apply Z.rem_mul_r; lia. }
  pose proof (Z.mod_pos_bound V (2 ^ (k - 1)) Hp) as Hb.
  destruct (Z.testbit V (k - 1)); simpl Z.b2z in Hr;
    destruct (Z.eqb_spec (V mod 2 ^ (k - 1)) 0) as [Hz|Hnz]; simpl negb; cbn iota;
    repeat match goal with
           | |- context [Z.ltb ?a ?b] => destruct (Z.ltb_spec a b)
           | |- context [Z.eqb ?a ?b] => destruct (Z.eqb_spec a b)
           end; try done; try lia.
Qed.

Lemma rne_mono (V V' k : Z) :
  0 <= V <= V' -> 0 < k -> rne V k <= rne V' k.
Proof.
  intros HV Hk. rewrite !rne_arith by lia. cbn zeta.
  assert (Hp : 0 < 2 ^ k) by (apply Z.pow_pos_nonneg; lia).
  pose proof (Z.div_mod V (2 ^ k) ltac:(lia)) as E1.
  pose proof (Z.div_mod V' (2 ^ k) ltac:(lia)) as E2.
  pose proof (Z.mod_pos_bound V (2 ^ k) Hp) as B1.
  pose proof (Z.mod_pos_bound V' (2 ^ k) Hp) as B2.
  assert (Hq : V / 2 ^ k <= V' / 2 ^ k) by (apply Z.div_le_mono; lia).
  destruct (decide (V / 2 ^ k = V' / 2 ^ k)) as [Heq|Hne].
  - rewrite <- Heq in *. set (q := V / 2 ^ k) in *.
    assert (Hr : V mod 2 ^ k <= V' mod 2 ^ k) by lia.
    repeat match goal with
           | |- context [Z.ltb ?a ?b] => destruct (Z.ltb_spec a b)
           | |- context [Z.eqb ?a ?b] => destruct (Z.eqb_spec a b)
           end; destruct (Z.even q); lia.
  - repeat match goal with
           | |- context [Z.ltb ?a ?b] => destruct (Z.ltb_spec a b)
           | |- context [Z.eqb ?a ?b] => destruct (Z.eqb_spec a b)
           | |- context [Z.even ?a] => destruct (Z.even a)
           end; lia.
Qed.

Lemma rne_shift (V J k : Z) :
  0 <= V -> 0 <= J -> 0 < k -> rne (V * 2 ^ J) (k + J) = rne V k.
Proof.
  intros HV HJ Hk. unfold rne.
  destruct (Z.leb_spec (k + J) 0); [lia|]. destruct (Z.leb_spec k 0); [lia|].
  assert (HpJ : 0 < 2 ^ J) by (apply Z.pow_pos_nonneg; lia).
  assert (Hpk : 0 < 2 ^ (k - 1)) by (apply Z.pow_pos_nonneg; lia).
  replace (k + J - 1) with (J + (k - 1)) by lia.
  rewrite Z.mul_pow2_bits_add by lia.
  replace (2 ^ (J + (k - 1))) with (2 ^ (k - 1) * 2 ^ J)
    by (rewrite <- Z.pow_add_r by lia; f_equal; lia).
  replace (2 ^ (k + J)) with (2 ^ k * 2 ^ J) by (rewrite <- Z.pow_add_r by lia; done).
  rewrite Z.mul_mod_distr_r by lia. rewrite Z.div_mul_cancel_r by lia.
  replace (V mod 2 ^ (k - 1) * 2 ^ J =? 0) with (V mod 2 ^ (k - 1) =? 0); [done|].
  destruct (Z.eqb_spec (V mod 2 ^ (k - 1)) 0) as [->|Hnz]; [done|].
  symmetry. apply Z.eqb_neq. nia.
Qed.


Lemma rint_bounds (V : Z) : 0 < V -> 2 ^ (prec - 1) <= rint V <= 2 ^ prec.
Proof.
  intros HV. unfold rint. pose proof (Zdigits2_spec V HV) as Hs.
  pose proof (Zdigits2_pos V HV) as Hd.
  destruct (Z.leb_spec (Zdigits2 V) prec).
  - assert (Hq : 0 < 2 ^ (prec - Zdigits2 V)) by (apply Z.pow_pos_nonneg; lia).
    replace (prec - 1) with ((Zdigits2 V - 1) + (prec - Zdigits2 V)) by lia.
    replace prec with (Zdigits2 V + (prec - Zdigits2 V)) at 4 by lia.
    rewrite !Z.pow_add_r by lia. nia.
  - apply pack_rne_bounds; lia.
Qed.

Lemma Zdigits2_mono (V V' : Z) : 0 < V <= V' -> Zdigits2 V <= Zdigits2 V'.
Proof.
  intros HV. pose proof (Zdigits2_spec V ltac:(lia)) as Hs.
  pose proof (Zdigits2_spec V' ltac:(lia)) as Hs'.
  destruct (decide (Zdigits2 V <= Zdigits2 V')) as [|Hgt]; [done|exfalso].
  assert (2 ^ Zdigits2 V' <= 2 ^ (Zdigits2 V - 1)); [|lia].
  apply Z.pow_le_mono_r; lia.
Qed.

Lemma round_int_mono (V V' : Z) :
  0 < V <= V' -> SFltb (round_int false V') (round_int false V) = false.
Proof.
  intros HV. pose proof (rint_bounds V ltac:(lia)) as HB.
  pose proof (rint_bounds V' ltac:(lia)) as HB'.
  pose proof (Zdigits2_mono V V' HV) as Hd.
  pose proof pow2_prec_pos as Hp. pose proof pow2_prec_double as Hdb.
  assert (Hsame : Zdigits2 V = Zdigits2 V' -> rint V <= rint V').
  { intros Heq. unfold rint. rewrite <- Heq.
    destruct (Z.leb_spec (Zdigits2 V) prec).
    - apply Z.mul_le_mono_nonneg_r; [apply Z.pow_nonneg|]; lia.
    - apply rne_mono; lia. }
  apply not_true_is_false. unfold round_int, pack.
  destruct (Z.eqb_spec (rint V') (2 ^ prec)), (Z.eqb_spec (rint V) (2 ^ prec));
    intros Hlt%FloatOrder.SFltb_finite_pos; rewrite ?Z2Pos.id in Hlt by lia;
    destruct Hlt as [Hlt|[He Hlt]]; lia.
Qed.

(** The product of two positive integers of the format is the value nearest
    to their product. *)
Lemma SFmul_canon (a b : Z) :
  0 < a -> 0 < b -> Zdigits2 a <= prec -> Zdigits2 b <= prec ->
  Zdigits2 (a * b) < emax ->
  SFmul prec emax (canon a) (canon b) = round_int false (a * b).
Proof.
  intros Ha Hb Hda Hdb Hrange.
  pose proof (canon_normal a ltac:(lia) Hda) as Hna.
  pose proof (canon_normal b ltac:(lia) Hdb) as Hnb.
  rewrite (canon_finite a), (canon_finite b) in * by lia.
  rewrite !Z.abs_eq in * by lia.
  replace (a <? 0) with false in * by (symmetry; apply Z.ltb_ge; lia).
  replace (b <? 0) with false in * by (symmetry; apply Z.ltb_ge; lia).
  unfold canon_abs in *.
  pose proof (Zdigits2_pos a Ha) as Hpa. pose proof (Zdigits2_pos b Hb) as Hpb.
  assert (Hqa : 0 < 2 ^ (prec - Zdigits2 a)) by (apply Z.pow_pos_nonneg; lia).
  assert (Hqb : 0 < 2 ^ (prec - Zdigits2 b)) by (apply Z.pow_pos_nonneg; lia).
  set (J := (prec - Zdigits2 a) + (prec - Zdigits2 b)).
  assert (HP : Z.pos (Z.to_pos (a * 2 ^ (prec - Zdigits2 a)))
               * Z.pos (Z.to_pos (b * 2 ^ (prec - Zdigits2 b))) = a * b * 2 ^ J).
  { rewrite !Z2Pos.id by nia. unfold J. rewrite Z.pow_add_r by lia. ring. }
  assert (HdP : Zdigits2 (a * b * 2 ^ J) = Zdigits2 (a * b) + J).
  { apply Zdigits2_mul_pow2; unfold J; nia. }
  pose proof (Zdigits2_pos (a * b) ltac:(nia)) as Hpab.
  destruct (SFmul_normal _ _ _ _ _ _ Hna Hnb) as [Hmul Hn].
  - rewrite HP, HdP. unfold SpecFloat.emin, J. lia.
  - rewrite HP, HdP. unfold J. lia.
  - rewrite Hmul. rewrite HP, HdP in *. simpl xorb. unfold round_int.
    replace (Zdigits2 a - prec + (Zdigits2 b - prec) + (Zdigits2 (a * b) + J - prec))
      with (Zdigits2 (a * b) - prec) by (unfold J; lia).
    f_equal. unfold rint. destruct (Z.leb_spec (Zdigits2 (a * b)) prec) as [Hle|Hgt].
    + unfold rne. destruct (Z.leb_spec (Zdigits2 (a * b) + J - prec) 0) as [Hle0|Hgt0].
      * f_equal. f_equal. lia.
      * rewrite Z.mul_pow2_bits_low by lia.
        replace J with ((prec - Zdigits2 (a * b)) + (Zdigits2 (a * b) + J - prec)) at 1 by lia.
        rewrite Z.pow_add_r, Z.mul_assoc, Z.div_mul by lia. done.
    + replace (Zdigits2 (a * b) + J - prec) with ((Zdigits2 (a * b) - prec) + J) by lia.
      apply rne_shift; unfold J; nia.
Qed.

End Format.

End Rounding.

(** ** calculateWeight *)

Module WeightFacts.
Import Format.

Lemma Zdigits2_le (z b : Z) : 0 <= b -> Z.abs z < 2 ^ b -> Zdigits2 z <= b.
Proof.
  intros Hb Hz. destruct (decide (z = 0)) as [->|Hnz]; [done|].
  replace (Zdigits2 z) with (Zdigits2 (Z.abs z)) by (by destruct z).
  pose proof (Rounding.Zdigits2_spec (Z.abs z) ltac:(lia)) as Hs.
  destruct (decide (Zdigits2 (Z.abs z) <= b)) as [|Hgt]; [done|exfalso].
  assert (2 ^ b <= 2 ^ (Zdigits2 (Z.abs z) - 1)); [|lia].
  apply Z.pow_le_mono_r; lia.
Qed.

Lemma double_format : 2 <= Double.prec < Double.emax.
Proof. done. Qed.

Lemma single_format : 2 <= Single.prec < Single.emax.
Proof. done. Qed.

Lemma double_of_uint (n : Z) :
  Z.abs n < 2 ^ 53 -> Double.of_uint n = canon 53 n.
Proof.
  intros Hn. apply (Rounding.of_int_canon 53 1024 double_format).
  apply Zdigits2_le; lia.
Qed.

Lemma double_one : Double.one = canon 53 1.
Proof. reflexivity. Qed.

Lemma double_two : Double.two = canon 53 2.
Proof. reflexivity. Qed.

(** The difference of two [unsigned int] is computed exactly. *)
Lemma weight_h (idx pivot : Z) :
  0 <= idx < u32_modulus -> 0 <= pivot < u32_modulus ->
  Double.sub (Double.of_uint pivot) (Double.of_uint idx) = canon 53 (pivot - idx).
Proof.
  unfold u32_modulus. intros Hi Hp.
  rewrite !double_of_uint by lia.
  apply (Rounding.SFsub_canon 53 1024 double_format); apply Zdigits2_le; lia.
Qed.

(** At or before the pivot, with [H = pivot - idx > 0]: the weight is the
    double nearest to [H * (H + 1)], halved. *)
Lemma weight_before_pivot (idx pivot : Z) :
  0 <= idx < pivot -> pivot < u32_modulus ->
  let H := pivot - idx in
  exists (m : positive) (e : Z),
    round_int 53 false (H * (H + 1)) = S754_finite false m e
    /\ calculateWeight idx pivot = S754_finite false m (e - 1).
Proof.
  intros Hi Hp H. unfold u32_modulus in Hp.
  assert (HH : 0 < H < 2 ^ 32) by (unfold H; lia).
  assert (HV : 0 < H * (H + 1) < 2 ^ 64) by nia.
  pose proof (Zdigits2_le (H * (H + 1)) 64 ltac:(lia) ltac:(lia)) as HdV.
  pose proof (Rounding.Zdigits2_pos (H * (H + 1)) ltac:(lia)) as HdV0.
  pose proof (Rounding.rint_bounds 53 1024 double_format (H * (H + 1)) ltac:(lia)) as Hb.
  pose proof (Rounding.pack_normal 53 1024 double_format false (rint 53 (H * (H + 1)))
                (Zdigits2 (H * (H + 1)) - 53) Hb) as Hn.
  destruct (Rounding.pack_finite 53 1024 double_format false (rint 53 (H * (H + 1)))
              (Zdigits2 (H * (H + 1)) - 53)) as (m & e & Hpk).
  fold (round_int 53 false (H * (H + 1))) in Hpk, Hn.
  exists m, e. split; [done|].
  unfold calculateWeight. destruct (Z.eqb_spec pivot 0); [lia|].
  rewrite weight_h by (unfold u32_modulus; lia). fold H.
  rewrite (Rounding.SFltb_canon_zero 53 1024 double_format).
  destruct (Z.ltb_spec H 0); [lia|].
  rewrite double_one, double_two.
  unfold Double.add, Double.mul, Double.div.
  rewrite (Rounding.SFadd_canon 53 1024 double_format) by (apply Zdigits2_le; lia).
  rewrite (Rounding.SFmul_canon 53 1024 double_format)
    by (try lia; apply Zdigits2_le; lia).
  rewrite Hpk in *.
  assert (He : Zdigits2 (H * (H + 1)) - 53 <= e).
  { unfold round_int, pack in Hpk.
    destruct (rint 53 (H * (H + 1)) =? 2 ^ 53); injection Hpk as _ <-; lia. }
  apply (Rounding.SFdiv_two 53 1024 double_format); try done.
  - apply Hn; unfold SpecFloat.emin; lia.
  - unfold SpecFloat.emin. lia.
Qed.

Lemma SFleb_finite_pos (m1 m2 : positive) (e1 e2 : Z) :
  SFleb (S754_finite false m1 e1) (S754_finite false m2 e2) = true
  <-> e1 < e2 \/ (e1 = e2 /\ (m1 <= m2)%positive).
Proof.
  unfold SFleb, SFcompare. rewrite FloatOrder.compare_cont_Eq.
  destruct (Z.compare_spec e1 e2).
  - destruct (Pos.compare_spec m1 m2); split; try done; lia.
  - split; [lia|done].
  - split; [done|lia].
Qed.

(** C6, as stated, fails: at the pivot itself [h = 0], which is not below
    zero, so the weight is [0 * 1 / 2 = 0.0] and not 1.0. *)
Lemma C6_weight_at_pivot_is_zero :
  calculateWeight 1 1 = Double.zero /\ calculateWeight 1 1 <> Double.one.
Proof. split; [vm_compute; reflexivity|vm_compute; discriminate]. Qed.

(** C6, amended.  For a pivot [p > 0]: the weight does not grow from a
    position [i < p] to the next; it is 0.0 at [i = p]; and it is 1.0 at
    every [i > p]. *)
Theorem C6_weight_monotone (i p : Z) :
  0 <= i < u32_modulus -> 0 < p < u32_modulus ->
  (i < p -> SFleb (calculateWeight (i + 1) p) (calculateWeight i p) = true)
  /\ (i = p -> calculateWeight i p = Double.zero)
  /\ (p < i -> calculateWeight i p = Double.one).
Proof.
  intros Hi Hp. split; [|split].
  - intros Hlt.
    destruct (weight_before_pivot i p ltac:(lia) ltac:(lia)) as (m & e & Hr & ->).
    destruct (decide (i + 1 = p)) as [Heq|Hne].
    + rewrite Heq. unfold calculateWeight. destruct (Z.eqb_spec p 0); [lia|].
      rewrite weight_h, Z.sub_diag by lia. done.
    + destruct (weight_before_pivot (i + 1) p ltac:(lia) ltac:(lia)) as (m' & e' & Hr' & ->).
      pose proof (Rounding.round_int_mono 53 1024 double_format
                    ((p - (i + 1)) * (p - (i + 1) + 1)) ((p - i) * (p - i + 1))
                    ltac:(nia)) as Hmono.
      rewrite Hr, Hr' in Hmono.
      apply SFleb_finite_pos.
      destruct (decide (e' - 1 < e - 1 \/ e' - 1 = e - 1 /\ (m' <= m)%positive))
        as [|Hno]; [done|exfalso].
      apply not_true_iff_false in Hmono. apply Hmono.
      apply FloatOrder.SFltb_finite_pos. lia.
  - intros ->. unfold calculateWeight. destruct (Z.eqb_spec p 0); [lia|].
    rewrite weight_h, Z.sub_diag by lia. done.
  - intros Hlt. unfold calculateWeight. destruct (Z.eqb_spec p 0); [lia|].
    rewrite weight_h by lia. rewrite (Rounding.SFltb_canon_zero 53 1024 double_format).
    by destruct (Z.ltb_spec (p - i) 0); [|lia].
Qed.

Lemma C6_weight_monotone_witness :
  SFleb (calculateWeight 3 5) (calculateWeight 2 5) = true
  /\ calculateWeight 5 5 = Double.zero
  /\ calculateWeight 7 5 = Double.one.
Proof.
  split; [|split].
  - apply (proj1 (C6_weight_monotone 2 5 ltac:(done) ltac:(done))). lia.
  - apply (proj1 (proj2 (C6_weight_monotone 5 5 ltac:(done) ltac:(done)))). reflexivity.
  - apply (proj2 (proj2 (C6_weight_monotone 7 5 ltac:(done) ltac:(done)))). lia.
Defined.

(** C7.  With [pivot = 0] the weight is 1.0.  Otherwise, with
    [h = pivot - idx], computed exactly, the weight is 1.0 when [h < 0] and
    the double-precision value of [h * (h + 1) / 2] when not; when
    [h * (h + 1)] is below [2 ^ 53] that is the integer [h * (h + 1) / 2]
    itself.  The weight is never negative and never a NaN.  (Being a
    function of the two arguments, it is pure and deterministic.) *)
Theorem C7_weight_cases (idx pivot : Z) :
  0 <= idx < u32_modulus -> 0 <= pivot < u32_modulus ->
  let h := Double.sub (Double.of_uint pivot) (Double.of_uint idx) in
  (pivot = 0 -> calculateWeight idx pivot = Double.one)
  /\ (0 < pivot ->
      h = of_int Double.prec Double.emax (pivot - idx)
      /\ Double.ltb h Double.zero = (pivot - idx <? 0)
      /\ (pivot - idx < 0 -> calculateWeight idx pivot = Double.one)
      /\ (0 <= pivot - idx ->
          calculateWeight idx pivot
          = Double.div (Double.mul h (Double.add h Double.one)) Double.two)
      /\ (0 <= pivot - idx -> (pivot - idx) * (pivot - idx + 1) < 2 ^ 53 ->
          calculateWeight idx pivot
          = Double.of_uint ((pivot - idx) * (pivot - idx + 1) / 2)))
  /\ nonneg (calculateWeight idx pivot) = true.
Proof.
  intros Hi Hp h.
  assert (Hh : h = canon 53 (pivot - idx)) by (apply weight_h; done).
  assert (Hlt : Double.ltb h Double.zero = (pivot - idx <? 0)).
  { rewrite Hh. apply (Rounding.SFltb_canon_zero 53 1024 double_format). }
  unfold u32_modulus in *.
  split; [|split].
  - intros ->. reflexivity.
  - intros Hpos. split; [|split; [done|split; [|split]]].
    + rewrite Hh. symmetry. apply (Rounding.of_int_canon 53 1024 double_format).
      apply Zdigits2_le; lia.
    + intros Hneg. unfold calculateWeight. destruct (Z.eqb_spec pivot 0); [lia|].
      fold h. rewrite Hlt. by destruct (Z.ltb_spec (pivot - idx) 0); [|lia].
    + intros Hge. unfold calculateWeight. destruct (Z.eqb_spec pivot 0); [lia|].
      fold h. rewrite Hlt. by destruct (Z.ltb_spec (pivot - idx) 0); [lia|].
    + intros Hge Hsmall. destruct (decide (pivot - idx = 0)) as [Hz|Hnz].
      * unfold calculateWeight. destruct (Z.eqb_spec pivot 0); [lia|].
        fold h. rewrite Hh, Hz. reflexivity.
      * destruct (weight_before_pivot idx pivot ltac:(lia) ltac:(unfold u32_modulus; lia))
          as (m & e & Hr & ->).
        set (V := (pivot - idx) * (pivot - idx + 1)) in *.
        assert (HV : 2 <= V) by (unfold V; nia).
        assert (Heven : V = 2 * (V / 2)).
        { pose proof (Z.div_mod V 2 ltac:(lia)) as Hdm.
          assert (V mod 2 = 0); [|lia]. unfold V.
          rewrite Z.mul_mod by lia.
          destruct (Z.mod_pos_bound (pivot - idx) 2 ltac:(lia)) as [? ?].
          replace ((pivot - idx + 1) mod 2) with (((pivot - idx) mod 2 + 1) mod 2)
            by (rewrite Z.add_mod_idemp_l by lia; done).
          assert (Hc : (pivot - idx) mod 2 = 0 \/ (pivot - idx) mod 2 = 1) by lia.
          destruct Hc as [-> | ->]; reflexivity. }
        pose proof (Rounding.Zdigits2_spec V ltac:(lia)) as HsV.
        pose proof (Rounding.Zdigits2_pos V ltac:(lia)) as HdV0.
        assert (HdV : Zdigits2 V <= 53) by (apply Zdigits2_le; lia).
        assert (Hd2 : Zdigits2 (V / 2) = Zdigits2 V - 1).
        { apply Rounding.Zdigits2_unique; [|lia].
          assert (2 <= Zdigits2 V).
          { destruct (decide (2 <= Zdigits2 V)); [done|].
            replace (Zdigits2 V) with 1 in HsV by lia. simpl in HsV. lia. }
          assert (E1 : 2 ^ (Zdigits2 V - 1) = 2 * 2 ^ (Zdigits2 V - 1 - 1))
            by (rewrite <- Z.pow_succ_r by lia; f_equal; lia).
          assert (E2 : 2 ^ Zdigits2 V = 2 * 2 ^ (Zdigits2 V - 1))
            by (rewrite <- Z.pow_succ_r by lia; f_equal; lia).
          lia. }
        rewrite double_of_uint by lia.
        unfold round_int, rint, pack in Hr.
        destruct (Z.leb_spec (Zdigits2 V) 53); [|lia].
        assert (Hq : 0 < 2 ^ (53 - Zdigits2 V)) by (apply Z.pow_pos_nonneg; lia).
        assert (Hm : V * 2 ^ (53 - Zdigits2 V) < 2 ^ 53).
        { replace 53 with (Zdigits2 V + (53 - Zdigits2 V)) at 2 by lia.
          rewrite Z.pow_add_r by lia. nia. }
        destruct (Z.eqb_spec (V * 2 ^ (53 - Zdigits2 V)) (2 ^ 53)); [lia|].
        injection Hr as <- <-.
        rewrite (Rounding.canon_finite 53 1024 double_format (V / 2)) by lia.
        replace (V / 2 <? 0) with false by (symmetry; apply Z.ltb_ge; lia).
        rewrite Z.abs_eq by lia. unfold canon_abs. rewrite Hd2. f_equal; [|lia].
        f_equal. replace (53 - (Zdigits2 V - 1)) with (Z.succ (53 - Zdigits2 V)) by lia.
        rewrite Z.pow_succ_r by lia. lia.
  - destruct (decide (pivot = 0)) as [->|Hnz]; [done|].
    destruct (Z.lt_trichotomy idx pivot) as [Hlt'|[Heq|Hgt]].
    + destruct (weight_before_pivot idx pivot ltac:(lia) ltac:(unfold u32_modulus; lia))
        as (m & e & _ & ->). done.
    + subst idx. unfold calculateWeight. destruct (Z.eqb_spec pivot 0); [lia|].
      fold h. rewrite Hh, Z.sub_diag. done.
    + unfold calculateWeight. destruct (Z.eqb_spec pivot 0); [lia|].
      fold h. rewrite Hlt. by destruct (Z.ltb_spec (pivot - idx) 0); [|lia].
Qed.

Lemma C7_weight_cases_witness :
  calculateWeight 4 0 = Double.one
  /\ calculateWeight 9 5 = Double.one
  /\ calculateWeight 2 5 = Double.of_uint 6
  /\ nonneg (calculateWeight 2 5) = true.
Proof.
  pose proof (C7_weight_cases 4 0 ltac:(done) ltac:(done)) as (H0 & _ & _).
  pose proof (C7_weight_cases 9 5 ltac:(done) ltac:(done)) as (_ & H1 & _).
  pose proof (C7_weight_cases 2 5 ltac:(done) ltac:(done)) as (_ & H2 & H3).
  split; [by apply H0|]. split; [|split; [|done]].
  - apply H1; lia.
  - apply H2; lia.
Defined.

End WeightFacts.

(** ** The scorer *)

Module ScorerFacts.
Import Format.

Lemma bind_done {A B : Type} (f : A -> outcome B) (a : A) : Done a ≫= f = f a.
Proof. reflexivity. Qed.

Lemma bind_undefined {A B : Type} (f : A -> outcome B) (why : fault) :
  Undefined why ≫= f = Undefined why.
Proof. reflexivity. Qed.

Section Walk.
Variable options : Options.
Variables tw pivot_f w : spec_float.
Variable i : Z.

Local Abbreviation trawl := (trawl options tw i pivot_f w).
Local Abbreviation max_over := (Spec.max_over options tw i).

Lemma trawl_S (k : nat) (st : scan) :
  trawl (S k) st
  = match history st !! S k with
    | Some e =>
        if Spec.above pivot_f e then
          trawl k {| history := <[S k := Spec.bump w e]> (history st);
                     rvalue := keep_max (candidate options tw i (Spec.bump w e)) (rvalue st) |}
        else (S k, st)
    | None => (S k, st)
    end.
Proof. reflexivity. Qed.

(** The walk only looks at, and only changes, the entries up to its
    starting point. *)
Lemma trawl_app (k : nat) :
  forall (pre suf : list History) (rv : spec_float),
    (k < length pre)%nat ->
    trawl k {| history := pre ++ suf; rvalue := rv |}
    = let '(k', st') := trawl k {| history := pre; rvalue := rv |} in
      (k', {| history := history st' ++ suf; rvalue := rvalue st' |}).
Proof.
  induction k as [|k IH]; intros pre suf rv Hk; [done|].
  rewrite !trawl_S. cbn [history rvalue]. rewrite lookup_app_l by done.
  destruct (pre !! S k) as [e|] eqn:He; [|done].
  destruct (Spec.above pivot_f e); [|done].
  rewrite insert_app_l by done.
  apply IH. rewrite length_insert. lia.
Qed.

(** The walk from the tail of [first :: rest]: it passes over
    [walk_back] entries, adds [w] to each, and takes their candidates into
    the running maximum, the last entry first. *)
Lemma trawl_walk (rest : list History) :
  forall (first : History) (rv : spec_float),
    let hist := first :: rest in
    let k := (length rest - Spec.walk_back pivot_f (reverse rest))%nat in
    let bumped := Spec.bump w <$> drop (S k) hist in
    trawl (length rest) {| history := hist; rvalue := rv |}
    = (k, {| history := take (S k) hist ++ bumped;
             rvalue := max_over (reverse bumped) rv |}).
Proof.
  induction rest as [|e rest IH] using rev_ind; intros first rv; [done|].
  cbn zeta. rewrite length_app, reverse_app. simpl length. simpl Spec.walk_back.
  replace (length rest + 1)%nat with (S (length rest)) by lia.
  rewrite trawl_S. cbn [history rvalue].
  assert (Hlook : (first :: rest ++ [e]) !! S (length rest) = Some e).
  { simpl. apply list_lookup_middle. done. }
  rewrite Hlook. destruct (Spec.above pivot_f e) eqn:Habove.
  - assert (Hins : <[S (length rest) := Spec.bump w e]> (first :: rest ++ [e])
                   = (first :: rest) ++ [Spec.bump w e]).
    { simpl. f_equal. rewrite insert_app_r_alt by lia.
      by replace (length rest - length rest)%nat with O by lia. }
    rewrite Hins, trawl_app by (simpl; lia).
    specialize (IH first (keep_max (candidate options tw i (Spec.bump w e)) rv)).
    cbn zeta in IH. rewrite IH. cbn [history rvalue].
    set (k := (length rest - Spec.walk_back pivot_f (reverse rest))%nat).
    replace (S (length rest) - S (Spec.walk_back pivot_f (reverse rest)))%nat with k by lia.
    assert (Hk : (S k <= length (first :: rest))%nat) by (simpl; lia).
    change (first :: rest ++ [e]) with ((first :: rest) ++ [e]).
    rewrite take_app_le, drop_app_le by done.
    rewrite fmap_app, reverse_app, app_assoc. done.
  - rewrite Nat.sub_0_r.
    rewrite take_ge, drop_ge by (simpl; rewrite length_app; simpl; lia).
    by rewrite app_nil_r.
Qed.

End Walk.

(** A step of the source is a step of the description on lists. *)
Lemma step_next (o : Options) (tw : spec_float) (buff gene_list0 : list Z)
      (st : scan) (i : Z) :
  step o tw buff gene_list0 st i = Spec.next o tw buff gene_list0 st i.
Proof.
  unfold step, Spec.next.
  destruct (vget gene_list0 i) as [ivalue|]; [|done]. simpl.
  destruct (vget buff ivalue) as [b|]; [|done]. simpl.
  destruct (Single.to_uint (Single.of_uint b)) as [p|]; [|done]. simpl.
  destruct (last (history st)) as [lh|] eqn:Hlast; [|done].
  destruct (Single.gtb (Single.of_uint b) (Single.of_uint (pos_y lh))).
  { unfold Spec.extend. simpl. done. }
  destruct st as [hist rv]. simpl in *.
  destruct hist as [|first rest]; [done|].
  simpl length. replace (S (length rest) - 1)%nat with (length rest) by lia.
  pose proof (trawl_walk o tw (Single.of_uint b)
                (if Double.ltb (calculateWeight i (pivot o)) (calculateWeight p (pivot o))
                 then calculateWeight i (pivot o) else calculateWeight p (pivot o))
                i rest first rv) as Hwalk.
  cbn zeta in Hwalk. rewrite Hwalk. clear Hwalk.
  unfold Spec.insert_within. simpl tail. simpl length.
  replace (S (length rest) - 1)%nat with (length rest) by lia.
  set (k := (length rest - Spec.walk_back (Single.of_uint b) (reverse rest))%nat).
  set (w := if Double.ltb _ _ then _ else _).
  assert (Hk : (k < length (first :: rest))%nat) by (simpl; lia).
  destruct (lookup_lt_is_Some_2 (first :: rest) k Hk) as [stop Hstop].
  set (pre := take (S k) (first :: rest)).
  set (bumped := Spec.bump w <$> drop (S k) (first :: rest)).
  assert (Hlen : S k = length pre).
  { unfold pre. rewrite length_take. simpl. lia. }
  assert (Hpre : pre !! k = Some stop).
  { unfold pre. by rewrite lookup_take_lt by lia. }
  cbn [history rvalue].
  rewrite lookup_app_l, Hpre, Hstop by lia. simpl.
  assert (Hlen' : k = length (take k rest)).
  { rewrite length_take. simpl in Hk. lia. }
  rewrite take_app_length', drop_app_length' by done.
  unfold Spec.max_over. rewrite foldl_app. done.
Qed.

Lemma run_scan_scan_all (o : Options) (gene_list0 gene_list1 : list Z) :
  run_scan o gene_list0 gene_list1 = Spec.scan_all o false gene_list0 gene_list1.
Proof.
  unfold run_scan, Spec.scan_all.
  destruct (rank_lookup (length gene_list0) gene_list1) as [buff|]; [|done]. simpl.
  unfold Spec.first. destruct (first_step o buff gene_list0) as [[hist rv]|]; [|done].
  simpl. generalize (Done {| history := hist; rvalue := rv |}).
  induction (seqZ 1 (num_genes o - 1)) as [|i l IH]; intros acc; [done|].
  simpl. rewrite <- IH. f_equal. destruct acc as [st|]; [|done]. simpl.
  apply step_next.
Qed.

(** ** The sign of the score *)

Lemma keep_max_signed (nvalue rv : spec_float) :
  signed false rv -> signed false (keep_max nvalue rv).
Proof.
  intros Hrv. unfold keep_max, Double.gtb. destruct (SFltb rv nvalue) eqn:Hlt; [|done].
  by apply (FloatOrder.signed_above rv).
Qed.

(** [rvalue] is only ever increased. *)
Lemma keep_max_grows (nvalue rv : spec_float) :
  keep_max nvalue rv = rv \/ Double.ltb rv (keep_max nvalue rv) = true.
Proof.
  unfold keep_max, Double.gtb, Double.ltb. destruct (SFltb rv nvalue) eqn:Hlt; auto.
Qed.

Lemma max_over_signed (o : Options) (tw : spec_float) (i : Z) (es : list History) :
  forall rv : spec_float, signed false rv -> signed false (Spec.max_over o tw i es rv).
Proof.
  unfold Spec.max_over. induction es as [|e es IH]; intros rv Hrv; [done|].
  simpl. apply IH. by apply keep_max_signed.
Qed.

Lemma max_over_grows (o : Options) (tw : spec_float) (i : Z) (es : list History) :
  forall rv : spec_float,
    Spec.max_over o tw i es rv = rv
    \/ Double.ltb rv (Spec.max_over o tw i es rv) = true.
Proof.
  unfold Spec.max_over. induction es as [|e es IH]; intros rv; [by left|].
  simpl. destruct (keep_max_grows (candidate o tw i e) rv) as [->|Hlt]; [apply IH|].
  right. destruct (IH (keep_max (candidate o tw i e) rv)) as [->|Hlt']; [done|].
  by apply (FloatOrder.SFltb_trans _ (keep_max (candidate o tw i e) rv)).
Qed.

Lemma next_rvalue (o : Options) (tw : spec_float) (buff gene_list0 : list Z)
      (st st' : scan) (i : Z) :
  Spec.next o tw buff gene_list0 st i = Done st' ->
  exists es : list History, rvalue st' = Spec.max_over o tw i es (rvalue st).
Proof.
  unfold Spec.next.
  destruct (vget gene_list0 i) as [ivalue|]; [|done]. simpl.
  destruct (vget buff ivalue) as [b|]; [|done]. simpl.
  destruct (Single.to_uint (Single.of_uint b)) as [p|]; [|done]. simpl.
  destruct (last (history st)) as [lh|]; [|done].
  destruct (if Single.gtb _ _ then _ else _) as [u|]; [|done].
  intros [= <-]. by exists (Spec.touched u).
Qed.

Lemma scan_all_signed (o : Options) (gene_list0 gene_list1 : list Z) (st : scan) :
  Spec.scan_all o false gene_list0 gene_list1 = Done st -> signed false (rvalue st).
Proof.
  unfold Spec.scan_all.
  destruct (rank_lookup (length gene_list0) gene_list1) as [buff|]; [|done]. simpl.
  unfold Spec.first, first_step.
  destruct (vget gene_list0 0) as [ivalue|]; [|done]. simpl.
  destruct (vget buff ivalue) as [b|]; [|done]. simpl.
  destruct (Single.to_uint (Single.of_uint b)) as [p|]; [|done]. simpl.
  set (st0 := {| history := _; rvalue := Double.zero |}).
  assert (H0 : signed false (rvalue st0)) by done.
  revert H0. generalize st0. clear st0.
  induction (seqZ 1 (num_genes o - 1)) as [|i l IH]; intros st0 H0; simpl.
  - by intros [= <-].
  - destruct (Spec.next o (total_weight o (length gene_list0)) buff gene_list0 st0 i)
      as [st1|] eqn:Hnext; simpl.
    + apply IH. apply next_rvalue in Hnext as [es ->]. by apply max_over_signed.
    + clear. induction l as [|j l IHl]; [done|]. simpl. apply IHl.
Qed.

Lemma sqrt_num_genes (n : Z) :
  1 <= n < u32_modulus ->
  exists (m : positive) (e : Z), Double.sqrt (Double.of_uint n) = S754_finite false m e.
Proof.
  unfold u32_modulus. intros Hn.
  rewrite WeightFacts.double_of_uint by lia.
  pose proof (WeightFacts.Zdigits2_le n 32 ltac:(lia) ltac:(lia)) as Hd.
  pose proof (Rounding.Zdigits2_pos n ltac:(lia)) as Hd0.
  pose proof (Rounding.canon_normal 53 1024 WeightFacts.double_format n
                ltac:(lia) ltac:(lia)) as Hnormal.
  rewrite (Rounding.canon_finite 53 1024 WeightFacts.double_format n) in * by lia.
  replace (n <? 0) with false in * by (symmetry; apply Z.ltb_ge; lia).
  rewrite Z.abs_eq in * by lia. unfold canon_abs in *.
  apply (Rounding.SFsqrt_normal 53 1024 WeightFacts.double_format); [done|lia].
Qed.

(** The score is never negative, and never a NaN. *)
Lemma scoreLists_signed (o : Options) (gene_list0 gene_list1 : list Z) (v : spec_float) :
  1 <= num_genes o < u32_modulus ->
  scoreLists o gene_list0 gene_list1 = Done v -> signed false v.
Proof.
  intros Hn. unfold scoreLists. rewrite run_scan_scan_all.
  destruct (Spec.scan_all o false gene_list0 gene_list1) as [st|] eqn:Hscan; [|done].
  simpl. intros [= <-]. apply scan_all_signed in Hscan.
  destruct (sqrt_num_genes (num_genes o) Hn) as (m & e & ->).
  by apply (Rounding.SFmul_finite_signed 53 1024 false false).
Qed.

(** ** scoreLists returns *)

Lemma single_of_uint (b : Z) :
  0 <= b < 2 ^ 24 -> Single.of_uint b = canon 24 b.
Proof.
  intros Hb. apply (Rounding.of_int_canon 24 128 WeightFacts.single_format).
  apply WeightFacts.Zdigits2_le; lia.
Qed.

(** A position below [2 ^ 24] goes through [float] unchanged. *)
Lemma single_round_trip (b : Z) :
  0 <= b < 2 ^ 24 -> Single.to_uint (Single.of_uint b) = Done b.
Proof.
  intros Hb. rewrite single_of_uint by done.
  destruct (decide (b = 0)) as [->|Hnz]; [done|].
  pose proof (WeightFacts.Zdigits2_le b 24 ltac:(lia) ltac:(lia)) as Hd.
  pose proof (Rounding.Zdigits2_pos b ltac:(lia)) as Hd0.
  rewrite (Rounding.canon_finite 24 128 WeightFacts.single_format b) by done.
  replace (b <? 0) with false by (symmetry; apply Z.ltb_ge; lia).
  rewrite Z.abs_eq by lia. unfold canon_abs, Single.to_uint, Single.trunc.
  assert (Hq : 0 < 2 ^ (24 - Zdigits2 b)) by (apply Z.pow_pos_nonneg; lia).
  rewrite Z2Pos.id by nia.
  assert (Hval : (if 0 <=? Zdigits2 b - 24
                  then b * 2 ^ (24 - Zdigits2 b) * 2 ^ (Zdigits2 b - 24)
                  else b * 2 ^ (24 - Zdigits2 b) / 2 ^ (- (Zdigits2 b - 24))) = b).
  { destruct (Z.leb_spec 0 (Zdigits2 b - 24)).
    - replace (Zdigits2 b) with 24 by lia. simpl. lia.
    - replace (- (Zdigits2 b - 24)) with (24 - Zdigits2 b) by lia.
      apply Z.div_mul. lia. }
  rewrite Hval. unfold u32_max, u32_modulus.
  destruct (Z.leb_spec 0 b); [|lia]. destruct (Z.leb_spec b (2 ^ 32 - 1)); [done|lia].
Qed.

Lemma vget_defined (v : list Z) (i : Z) (P : Z -> Prop) :
  0 <= i < Z.of_nat (length v) -> Forall P v ->
  exists x : Z, vget v i = Done x /\ P x.
Proof.
  intros Hi Hall. unfold vget.
  destruct (lookup_lt_is_Some_2 v (Z.to_nat i) ltac:(lia)) as [x Hx].
  rewrite Hx. exists x. split; [done|]. by apply (proj1 (Forall_lookup P v) Hall _ _ Hx).
Qed.

(** The rank lookup of a vector of positions below its size: a vector of
    positions below that size. *)
Lemma rank_lookup_defined (size : nat) (gene_list1 : list Z) :
  length gene_list1 = size ->
  Forall (fun x => 0 <= x < Z.of_nat size) gene_list1 ->
  exists buff : list Z,
    rank_lookup size gene_list1 = Done buff
    /\ length buff = size
    /\ Forall (fun x => 0 <= x < Z.of_nat size) buff.
Proof.
  intros Hlen Hall. unfold rank_lookup.
  assert (Hgen : forall (l : list Z) (buff : list Z),
             length buff = size ->
             Forall (fun x => 0 <= x < Z.of_nat size) buff ->
             Forall (fun i => 0 <= i < Z.of_nat size) l ->
             exists buff',
               foldl (fun acc i => buff ← acc; g ← vget gene_list1 i; vset buff g i)
                     (Done buff) l = Done buff'
               /\ length buff' = size
               /\ Forall (fun x => 0 <= x < Z.of_nat size) buff').
  { induction l as [|i l IH]; intros buff Hb Hv Hl; simpl; [by exists buff|].
    apply Forall_cons in Hl as [Hi Hl].
    destruct (vget_defined gene_list1 i _ ltac:(lia) Hall) as (g & -> & Hg). simpl.
    unfold vset. destruct (Z.ltb_spec g (Z.of_nat (length buff))); [|lia].
    apply IH; [by rewrite length_insert| |done].
    by apply Forall_insert. }
  apply Hgen.
  - by rewrite length_replicate.
  - destruct size as [|size']; [constructor|]. apply Forall_replicate. lia.
  - apply Forall_forall. intros i Hi. apply elem_of_seqZ in Hi. lia.
Qed.

Section Defined.
Variable o : Options.
Variables buff gene_list0 : list Z.
Variable tw : spec_float.
Hypothesis Hsize : Z.of_nat (length gene_list0) <= 2 ^ 24.
Hypothesis Hbuff : length buff = length gene_list0.
Hypothesis Hranks : Forall (fun x => 0 <= x < Z.of_nat (length gene_list0)) buff.
Hypothesis Hgenes : Forall (fun x => 0 <= x < Z.of_nat (length gene_list0)) gene_list0.

Lemma position_defined (i : Z) :
  0 <= i < Z.of_nat (length gene_list0) ->
  exists ivalue b : Z,
    vget gene_list0 i = Done ivalue /\ vget buff ivalue = Done b
    /\ Single.to_uint (Single.of_uint b) = Done b.
Proof using Hsize Hbuff Hranks Hgenes.
  intros Hi.
  destruct (vget_defined gene_list0 i _ Hi Hgenes) as (ivalue & Hiv & Hr).
  destruct (vget_defined buff ivalue _ ltac:(lia) Hranks) as (b & Hb & Hbr).
  exists ivalue, b. repeat split; [done|done|]. apply single_round_trip. lia.
Qed.

Lemma first_defined :
  0 < Z.of_nat (length gene_list0) ->
  exists st : scan, first_step o buff gene_list0 = Done st /\ history st <> [].
Proof using Hsize Hbuff Hranks Hgenes.
  intros Hn. destruct (position_defined 0 ltac:(lia)) as (ivalue & b & Hiv & Hb & Hp).
  unfold first_step. rewrite Hiv. simpl. rewrite Hb. simpl. rewrite Hp. simpl.
  eexists. split; [done|done].
Qed.

Lemma next_defined (st : scan) (i : Z) :
  0 <= i < Z.of_nat (length gene_list0) -> history st <> [] ->
  exists st' : scan,
    Spec.next o tw buff gene_list0 st i = Done st' /\ history st' <> [].
Proof using Hsize Hbuff Hranks Hgenes.
  intros Hi Hne. destruct (position_defined i Hi) as (ivalue & b & Hiv & Hb & Hp).
  unfold Spec.next. rewrite Hiv. simpl. rewrite Hb. simpl. rewrite Hp. simpl.
  destruct (last (history st)) as [lh|] eqn:Hlast.
  2: { apply last_None in Hlast. done. }
  destruct (Single.gtb (Single.of_uint b) (Single.of_uint (pos_y lh))).
  - eexists. split; [done|]. simpl. by destruct (history st).
  - unfold Spec.insert_within.
    set (k := (length (history st) - 1 - _)%nat).
    assert (Hk : (k < length (history st))%nat).
    { unfold k. destruct (history st); [done|]. simpl. lia. }
    destruct (lookup_lt_is_Some_2 (history st) k Hk) as [stop ->]. simpl.
    eexists. split; [done|]. simpl. by destruct (take (S k) (history st)).
Qed.

Lemma scan_defined (l : list Z) :
  Forall (fun i => 0 <= i < Z.of_nat (length gene_list0)) l ->
  forall st : scan,
    history st <> [] ->
    exists st' : scan,
      foldl (fun acc i => st ← acc; Spec.next o tw buff gene_list0 st i) (Done st) l
      = Done st'.
Proof using Hsize Hbuff Hranks Hgenes.
  induction l as [|i l IH]; intros Hl st Hne; simpl; [by exists st|].
  apply Forall_cons in Hl as [Hi Hl].
  destruct (next_defined st i Hi Hne) as (st1 & -> & Hne1). simpl.
  by apply IH.
Qed.

End Defined.

(** On two vectors of [num_genes] positions below [num_genes], for at most
    [2 ^ 24] genes, [scoreLists] returns a score. *)
Lemma scoreLists_defined (o : Options) (gene_list0 gene_list1 : list Z) :
  1 <= num_genes o <= 2 ^ 24 ->
  Z.of_nat (length gene_list0) = num_genes o ->
  Z.of_nat (length gene_list1) = num_genes o ->
  Forall (fun x => 0 <= x < num_genes o) gene_list0 ->
  Forall (fun x => 0 <= x < num_genes o) gene_list1 ->
  exists v : spec_float, scoreLists o gene_list0 gene_list1 = Done v.
Proof.
  intros Hn H0 H1 Hg0 Hg1. unfold scoreLists. rewrite run_scan_scan_all.
  unfold Spec.scan_all. rewrite <- H0 in *.
  destruct (rank_lookup_defined (length gene_list0) gene_list1 ltac:(lia) Hg1)
    as (buff & -> & Hlen & Hb). simpl.
  destruct (first_defined o buff gene_list0 ltac:(lia) Hlen Hb Hg0 ltac:(lia))
    as (st0 & Hfirst & Hne).
  unfold Spec.first. rewrite Hfirst. simpl.
  destruct (scan_defined o buff gene_list0 (total_weight o (length gene_list0))
              ltac:(lia) Hlen Hb Hg0
              (seqZ 1 (Z.of_nat (length gene_list0) - 1))
              ltac:(apply Forall_forall; intros i Hi%elem_of_seqZ; lia)
              {| history := history st0; rvalue := rvalue st0 |} Hne) as (st & ->).
  simpl. by eexists.
Qed.

(** C10.  With at least one gene, a score that [scoreLists] returns is not
    negative and not a NaN, whatever the pivot and the two vectors: [rvalue]
    starts at 0.0, and a step leaves it as it is or replaces it by a
    larger value.  And [scoreLists] does return a score on two vectors of
    [num_genes] positions below [num_genes], for up to [2 ^ 24] genes, the
    range in which a position is exact as a [float]. *)
Theorem C10_score_not_negative (o : Options) (gene_list0 gene_list1 : list Z) :
  1 <= num_genes o < u32_modulus ->
  (forall v : spec_float,
     scoreLists o gene_list0 gene_list1 = Done v -> nonneg v = true)
  /\ (forall (tw : spec_float) (buff : list Z) (st st' : scan) (i : Z),
        step o tw buff gene_list0 st i = Done st' ->
        rvalue st' = rvalue st \/ Double.ltb (rvalue st) (rvalue st') = true)
  /\ (num_genes o <= 2 ^ 24 ->
      Z.of_nat (length gene_list0) = num_genes o ->
      Z.of_nat (length gene_list1) = num_genes o ->
      Forall (fun x => 0 <= x < num_genes o) gene_list0 ->
      Forall (fun x => 0 <= x < num_genes o) gene_list1 ->
      exists v : spec_float,
        scoreLists o gene_list0 gene_list1 = Done v /\ nonneg v = true).
Proof.
  intros Hn. split; [|split].
  - intros v Hv. apply FloatOrder.signed_nonneg.
    exact (scoreLists_signed o gene_list0 gene_list1 v Hn Hv).
  - intros tw buff st st' i. rewrite step_next. intros [es ->]%next_rvalue.
    apply max_over_grows.
  - intros Hsmall H0 H1 Hg0 Hg1.
    destruct (scoreLists_defined o gene_list0 gene_list1 ltac:(lia) H0 H1 Hg0 Hg1)
      as (v & Hv).
    exists v. split; [done|].
    apply FloatOrder.signed_nonneg.
    exact (scoreLists_signed o gene_list0 gene_list1 v Hn Hv).
Qed.

Lemma C10_score_not_negative_witness :
  exists v : spec_float,
    scoreLists four_genes [0; 1; 2; 3] [3; 2; 1; 0] = Done v /\ nonneg v = true.
Proof.
  apply (proj2 (proj2 (C10_score_not_negative four_genes [0; 1; 2; 3] [3; 2; 1; 0]
                         ltac:(done)))); try done; repeat constructor; done.
Defined.

End ScorerFacts.

(** ** The list reader *)

Module ReaderFacts.
Import Stream.

Lemma read_digits_nonneg (s : string) : forall acc : Z,
  0 <= acc -> 0 <= (read_digits acc s).1.
Proof.
  induction s as [|c rest IH]; intros acc Hacc; simpl; [done|].
  destruct (is_digit c) eqn:Hc; [|done].
  apply IH. unfold is_digit in Hc. unfold digit_value.
  apply andb_prop in Hc as [Hlo _]. apply Nat.leb_le in Hlo. lia.
Qed.

Lemma extract_uint_range (s s' : string) (v : Z) :
  extract_uint s = Some (v, s') -> 0 <= v <= u32_max.
Proof.
  unfold extract_uint. destruct (skip_space s) as [|c rest]; [done|].
  cbv zeta.
  generalize (if ((c =? "-")%char || (c =? "+")%char)%bool then rest else String c rest).
  intros digits. destruct digits as [|d ds]; [done|].
  destruct (is_digit d); [|done].
  pose proof (read_digits_nonneg (String d ds) 0 ltac:(lia)) as Hnn.
  destruct (read_digits 0 (String d ds)) as [v0 s0]. simpl in Hnn.
  destruct (v0 <=? u32_max) eqn:Hle; [|done].
  intros [= <- <-]. apply Z.leb_le in Hle.
  destruct (c =? "-")%char; [|lia].
  unfold u32, u32_max in *. pose proof (Z.mod_pos_bound (- v0) u32_modulus ltac:(done)).
  lia.
Qed.

(** A sign is part of the number: [+1] is 1, and [-1] is the largest
    [unsigned int]; a sign with no digit after it is no number. *)
Lemma extract_uint_signed :
  extract_uint "+1" = Some (1, EmptyString)
  /\ extract_uint " -1 2" = Some (4294967295, " 2"%string)
  /\ extract_uint "-0" = Some (0, EmptyString)
  /\ extract_uint "- 1" = None
  /\ extract_uint "+" = None
  /\ extract_uint "4294967296" = None.
Proof. repeat split; vm_compute; reflexivity. Qed.

Lemma stored_tokens_length (remaining : nat) : forall s : string,
  (length (stored_tokens remaining s) <= remaining)%nat.
Proof.
  induction remaining as [|r IH]; intros s; simpl; [lia|].
  destruct (extract_uint s) as [[t s']|]; simpl; [|lia].
  specialize (IH s'). lia.
Qed.

Lemma stored_tokens_nonneg (remaining : nat) : forall s : string,
  Forall (fun t => 0 <= t) (stored_tokens remaining s).
Proof.
  induction remaining as [|r IH]; intros s; simpl; [constructor|].
  destruct (extract_uint s) as [[t s']|] eqn:He; [|constructor].
  constructor; [|apply IH]. apply extract_uint_range in He. lia.
Qed.

(** Every token in range: the loop ends normally, having stored them
    all, one position after the other. *)
Lemma read_loop_in_bounds (remaining : nat) :
  forall (s : string) (gidx : Z) (gene_list : list Z),
    Forall (fun t => t < Z.of_nat (length gene_list)) (stored_tokens remaining s) ->
    exists gl' : list Z,
      read_loop remaining s gidx gene_list
        = Done (gl', gidx + Z.of_nat (length (stored_tokens remaining s)))
      /\ length gl' = length gene_list
      /\ (forall k : nat, Z.of_nat k ∉ stored_tokens remaining s ->
                          gl' !! k = gene_list !! k)
      /\ (forall bound : Z,
            0 <= gidx -> gidx + Z.of_nat remaining <= bound ->
            Forall (fun x => 0 <= x < bound) gene_list ->
            Forall (fun x => 0 <= x < bound) gl').
Proof.
  induction remaining as [|r IH]; intros s gidx gl Hall; simpl in *.
  - exists gl. rewrite Z.add_0_r.
    destruct (extract_uint s) as [[t s']|]; done.
  - destruct (extract_uint s) as [[t s']|] eqn:He.
    + apply Forall_cons in Hall as [Ht Hall].
      unfold vset. destruct (t <? Z.of_nat (length gl)) eqn:Hlt; [|lia].
      simpl. specialize (IH s' (gidx + 1) (<[Z.to_nat t := gidx]> gl)).
      rewrite length_insert in IH. destruct (IH Hall) as (gl' & Hrun & Hlen & Hkeep & Hval).
      exists gl'. split; [|split; [|split]].
      * rewrite Hrun. f_equal. f_equal. simpl. lia.
      * done.
      * intros k Hk. apply not_elem_of_cons in Hk as [Hne Hk].
        rewrite (Hkeep k Hk). apply list_lookup_insert_ne.
        apply extract_uint_range in He. lia.
      * intros bound Hg Hb Hgl. apply Hval; [lia|lia|].
        apply Forall_insert; [done|lia].
    + exists gl. rewrite Z.add_0_r. done.
Qed.

(** The first token at or above the size of the vector is written outside
    it. *)
Lemma read_loop_out_of_bounds (remaining : nat) :
  forall (s : string) (gidx : Z) (gene_list pre post : list Z) (t : Z),
    stored_tokens remaining s = pre ++ t :: post ->
    Forall (fun x => x < Z.of_nat (length gene_list)) pre ->
    Z.of_nat (length gene_list) <= t ->
    read_loop remaining s gidx gene_list = Undefined (OutOfBounds t).
Proof.
  induction remaining as [|r IH]; intros s gidx gl pre post t Htok Hpre Ht; simpl in *.
  - by destruct pre.
  - destruct (extract_uint s) as [[t0 s']|] eqn:He; [|by destruct pre].
    destruct pre as [|t1 pre]; simpl in Htok.
    + injection Htok as -> Hpost. unfold vset.
      destruct (t <? Z.of_nat (length gl)) eqn:Hlt; [lia|done].
    + injection Htok as -> Hrest. apply Forall_cons in Hpre as [Ht1 Hpre].
      unfold vset. destruct (t1 <? Z.of_nat (length gl)) eqn:Hlt; [|lia].
      simpl. apply (IH s' _ _ pre post t); [done| |].
      * by rewrite length_insert.
      * by rewrite length_insert.
Qed.

Lemma first_out_of_range (l : list Z) (n : Z) :
  ~ Forall (fun x => x < n) l ->
  exists (pre : list Z) (t : Z) (post : list Z),
    l = pre ++ t :: post /\ Forall (fun x => x < n) pre /\ n <= t.
Proof.
  induction l as [|a l IH]; intros Hnot; [by destruct Hnot; constructor|].
  destruct (decide (a < n)) as [Ha|Ha].
  - destruct IH as (pre & t & post & -> & Hpre & Ht).
    { intros Hl. apply Hnot. by constructor. }
    exists (a :: pre), t, post. repeat split; [by constructor|done].
  - exists [], a, l. repeat split; [constructor|lia].
Qed.

(** A vector that [readLineIndex] returns, when given [num_genes] zeros,
    holds [num_genes] positions below [num_genes]. *)
Lemma read_vector (o : Options) (file : string) (idx : Z) (g : list Z) :
  1 <= num_genes o ->
  readLineIndex o file idx (replicate (Z.to_nat (num_genes o)) 0) = Done g ->
  Z.of_nat (length g) = num_genes o /\ Forall (fun x => 0 <= x < num_genes o) g.
Proof.
  intros Hn. unfold readLineIndex, read_line.
  set (zeros := replicate (Z.to_nat (num_genes o)) 0).
  set (toks := stored_tokens (Z.to_nat (num_genes o)) (line_start file idx)).
  destruct (decide (Forall (fun t => t < Z.of_nat (length zeros)) toks)) as [Hall|Hnot].
  - destruct (read_loop_in_bounds _ _ 0 zeros Hall) as (gl' & -> & Hlen & _ & Hval).
    simpl. intros [= <-]. split.
    + rewrite Hlen. unfold zeros. rewrite length_replicate. lia.
    + apply (Hval (num_genes o)); [lia|lia|]. apply Forall_replicate. lia.
  - destruct (first_out_of_range toks _ Hnot) as (pre & t & post & Htok & Hpre & Ht).
    by rewrite (read_loop_out_of_bounds _ _ 0 zeros pre post t Htok Hpre Ht).
Qed.

(** C8, as stated, fails: the token 2 is used as an index into a vector
    of two elements, and the store [gene_list[2] = 1] is made outside the
    vector; nothing rejects it. *)
Lemma C8_write_out_of_bounds :
  stored_tokens 2 (line_start file_bad_gene 1) = [0; 2]
  /\ readLineIndex two_genes file_bad_gene 1 [0; 0] = Undefined (OutOfBounds 2).
Proof. split; vm_compute; reflexivity. Qed.

(** C8, amended.  Neither the reader nor the scorer checks a range.  The
    reader stores every token below the size of the vector in bounds, and
    then returns a vector of positions below [num_genes]; the first token
    at or above the size is written outside the vector, which is undefined
    behaviour and not a failure of the comparison.  The scorer builds its
    rank lookup in bounds from any vector the reader returned. *)
Theorem C8_no_range_check (o : Options) (file : string) (idx : Z) (gene_list : list Z) :
  let toks := stored_tokens (Z.to_nat (num_genes o)) (line_start file idx) in
  let size := Z.of_nat (length gene_list) in
  (Forall (fun t => t < size) toks ->
     exists gl' : list Z,
       readLineIndex o file idx gene_list = Done gl'
       /\ length gl' = length gene_list
       /\ (Forall (fun x => 0 <= x < num_genes o) gene_list ->
           Forall (fun x => 0 <= x < num_genes o) gl'
           /\ (size = num_genes o ->
               exists buff, rank_lookup (length gl') gl' = Done buff)))
  /\ (forall (pre post : list Z) (t : Z),
        toks = pre ++ t :: post ->
        Forall (fun x => x < size) pre ->
        size <= t ->
        readLineIndex o file idx gene_list = Undefined (OutOfBounds t)).
Proof.
  intros toks size. split.
  - intros Hall.
    destruct (read_loop_in_bounds (Z.to_nat (num_genes o)) (line_start file idx) 0
                gene_list Hall) as (gl' & Hrun & Hlen & _ & Hval).
    exists gl'. split; [|split; [done|]].
    + unfold readLineIndex, read_line. by rewrite Hrun.
    + intros Hgl. assert (Hr : Forall (fun x => 0 <= x < num_genes o) gl').
      { destruct (decide (0 <= num_genes o)) as [Hn|Hn].
        - apply (Hval (num_genes o)); [lia|lia|done].
        - destruct gene_list as [|x l]; [by destruct gl'|].
          apply Forall_cons in Hgl as [Hx _]. lia. }
      split; [done|]. intros Hsize.
      destruct (ScorerFacts.rank_lookup_defined (length gl') gl' eq_refl)
        as (buff & Hb & _).
      * rewrite Hlen. fold size. by rewrite Hsize.
      * by exists buff.
  - intros pre post t Htok Hpre Ht. unfold readLineIndex, read_line.
    by rewrite (read_loop_out_of_bounds _ _ 0 gene_list pre post t Htok Hpre Ht).
Qed.

Lemma C8_no_range_check_witness :
  (exists gl' : list Z,
     readLineIndex two_genes file_bad_gene 2 [0; 0] = Done gl'
     /\ length gl' = 2%nat)
  /\ readLineIndex two_genes file_bad_gene 1 [0; 0] = Undefined (OutOfBounds 2)
  /\ readLineIndex two_genes file_signed_gene 1 [0; 0]
     = Undefined (OutOfBounds 4294967295)
  /\ readLineIndex two_genes file_signed_gene 2 [0; 0] = Undefined (OutOfBounds 2).
Proof.
  split; [|split; [|split]].
  - destruct (proj1 (C8_no_range_check two_genes file_bad_gene 2 [0; 0]))
      as (gl' & Hrun & Hlen & _).
    + vm_compute. repeat constructor.
    + by exists gl'.
  - apply (proj2 (C8_no_range_check two_genes file_bad_gene 1 [0; 0]) [0] [] 2).
    + reflexivity.
    + repeat constructor.
    + simpl. lia.
  - apply (proj2 (C8_no_range_check two_genes file_signed_gene 1 [0; 0])
             [0] [] 4294967295).
    + vm_compute. reflexivity.
    + repeat constructor.
    + simpl. lia.
  - apply (proj2 (C8_no_range_check two_genes file_signed_gene 2 [0; 0]) [0] [] 2).
    + vm_compute. reflexivity.
    + repeat constructor.
    + simpl. lia.
Defined.

(** A line end is white space to the extraction: the reader completes a
    short line with the tokens of the line after it. *)
Lemma short_line_completed_from_next :
  stored_tokens 2 (line_start file_short_line 1) = [0; 1]
  /\ read_line two_genes file_short_line 1 [0; 0] = Done ([0; 1], 2).
Proof. split; vm_compute; reflexivity. Qed.

(** C9, as stated, fails: the file holds one list where two are
    announced.  Reading list 2 stores no token and returns the vector of
    zeros it was given; the pair (1, 2) is scored all the same. *)
Lemma C9_short_read_is_scored :
  tokens_stored two_genes file_one_list 2 [0; 0] = Done 0
  /\ readLineIndex two_genes file_one_list 2 [0; 0] = Done [0; 0]
  /\ score_pair two_genes file_one_list 1 2
     = Single.of_double <$> scoreLists two_genes [0; 1] [0; 0]
  /\ exists v : spec_float, score_pair two_genes file_one_list 1 2 = Done v.
Proof.
  repeat split; try (vm_compute; reflexivity).
  eexists. vm_compute. reflexivity.
Qed.

(** C9, amended.  The reader stores at most [num_genes] tokens, taken
    from the stream from the selected line on, and stops at the first
    extraction that fails, the end of the file included.  When it returns,
    the entries of the vector that no token named are as they were, also
    after a short read; and the score of the pair is the score of the two
    vectors as read, whatever the number of tokens stored. *)
Theorem C9_short_read_goes_on (o : Options) (file : string) :
  (forall (idx : Z) (gene_list gl' : list Z),
     let toks := stored_tokens (Z.to_nat (num_genes o)) (line_start file idx) in
     (length toks <= Z.to_nat (num_genes o))%nat
     /\ (line_start file idx = EmptyString ->
         readLineIndex o file idx gene_list = Done gene_list)
     /\ (readLineIndex o file idx gene_list = Done gl' ->
         tokens_stored o file idx gene_list = Done (Z.of_nat (length toks))
         /\ length gl' = length gene_list
         /\ forall k : nat, Z.of_nat k ∉ toks -> gl' !! k = gene_list !! k))
  /\ (forall (l0 l1 : Z) (g0 g1 : list Z),
        readLineIndex o file l0 (replicate (Z.to_nat (num_genes o)) 0) = Done g0 ->
        readLineIndex o file l1 (replicate (Z.to_nat (num_genes o)) 0) = Done g1 ->
        two_tailed o = false ->
        score_pair o file l0 l1 = Single.of_double <$> scoreLists o g0 g1).
Proof.
  split.
  - intros idx gene_list gl' toks. split; [apply stored_tokens_length|]. split.
    + intros Hempty. unfold readLineIndex, read_line. rewrite Hempty.
      by destruct (Z.to_nat (num_genes o)).
    + unfold readLineIndex, tokens_stored, read_line. intros Hdone.
      destruct (decide (Forall (fun t => t < Z.of_nat (length gene_list)) toks))
        as [Hall|Hnot].
      * destruct (read_loop_in_bounds _ _ 0 gene_list Hall)
          as (gl2 & Hrun & Hlen & Hkeep & _).
        rewrite Hrun in Hdone |- *. simpl in Hdone. injection Hdone as <-.
        by repeat split.
      * exfalso.
        destruct (first_out_of_range toks _ Hnot) as (pre & t & post & Htok & Hpre & Ht).
        rewrite (read_loop_out_of_bounds _ _ 0 gene_list pre post t Htok Hpre Ht) in Hdone.
        done.
  - intros l0 l1 g0 g1 H0 H1 Htt. unfold score_pair. rewrite H0, H1, Htt. simpl.
    by destruct (scoreLists o g0 g1).
Qed.

Lemma C9_short_read_goes_on_witness :
  tokens_stored two_genes file_one_list 2 [0; 0] = Done 0
  /\ tokens_stored two_genes file_plus_sign 1 [0; 0] = Done 2
  /\ score_pair two_genes file_one_list 1 2
     = Single.of_double <$> scoreLists two_genes [0; 1] [0; 0].
Proof.
  pose proof (C9_short_read_goes_on two_genes file_one_list) as [Hread Hscore].
  pose proof (C9_short_read_goes_on two_genes file_plus_sign) as [Hsign _].
  split; [|split].
  - apply (proj2 (proj2 (Hread 2 [0; 0] [0; 0]))). vm_compute. reflexivity.
  - apply (proj2 (proj2 (Hsign 1 [0; 0] [0; 1]))). vm_compute. reflexivity.
  - apply (Hscore 1 2 [0; 1] [0; 0]); vm_compute; reflexivity.
Defined.

End ReaderFacts.

(** ** Two-tailed scoring *)

Module PairFacts.
Import Format.

Lemma of_double_signed (s : bool) (x : spec_float) :
  signed s x -> signed s (Single.of_double x).
Proof.
  destruct x as [s'|s'| |s' m e]; try done. simpl. intros ->.
  apply Rounding.binary_round_signed.
Qed.

Lemma float_max_above (fwd rev : spec_float) :
  signed false fwd -> SFleb fwd (float_max fwd rev) = true.
Proof.
  intros Hf. unfold float_max, Single.gtb. destruct (SFltb fwd rev) eqn:Hlt.
  - by apply FloatOrder.SFltb_leb.
  - by apply (FloatOrder.SFleb_refl false).
Qed.

(** The flag [-t] plays no part in reading or in scoring. *)
Lemma readLineIndex_flag (b : bool) (o : Options) :
  readLineIndex (with_two_tailed b o) = readLineIndex o.
Proof. reflexivity. Qed.

Lemma scoreLists_flag (b : bool) (o : Options) :
  scoreLists (with_two_tailed b o) = scoreLists o.
Proof. reflexivity. Qed.

(** The pair loop, with the flag taken out of the options. *)
Lemma score_pair_flag (b : bool) (o : Options) (file : string) (l0 l1 : Z) :
  score_pair (with_two_tailed b o) file l0 l1
  = (gene_list0 ← readLineIndex o file l0 (replicate (Z.to_nat (num_genes o)) 0);
     gene_list1 ← readLineIndex o file l1 (replicate (Z.to_nat (num_genes o)) 0);
     r ← scoreLists o gene_list0 gene_list1;
     if b then
       t ← scoreLists o gene_list0 (reverse gene_list1);
       mret (float_max (Single.of_double r) (Single.of_double t))
     else mret (Single.of_double r)).
Proof. reflexivity. Qed.

(** Two values that are not negative are comparable. *)
Lemma SFleb_of_not_ltb (x y : spec_float) :
  signed false x -> signed false y -> SFltb x y = false -> SFleb y x = true.
Proof.
  destruct x as [[]|[]| |[] mx ex], y as [[]|[]| |[] my ey]; try done.
  intros _ _ Hlt. apply WeightFacts.SFleb_finite_pos.
  apply not_true_iff_false in Hlt. rewrite FloatOrder.SFltb_finite_pos in Hlt.
  lia.
Qed.

(** C5.  With [-t] the pair loop reports the maximum of the forward score
    and the score against the second vector reversed end to end: what it
    reports is one of the two, and neither of the two is above it; so it
    is never below what is reported without [-t].  For a pair whose two
    lists are read, with at most [2 ^ 24] genes, both scorings return, so
    both runs do report a score. *)
Theorem C5_two_tailed_maximum (o : Options) (file : string) (l0 l1 : Z) :
  1 <= num_genes o < u32_modulus ->
  (forall one two : spec_float,
     score_pair (with_two_tailed false o) file l0 l1 = Done one ->
     score_pair (with_two_tailed true o) file l0 l1 = Done two ->
     exists (gene_list0 gene_list1 : list Z) (fwd rev : spec_float),
       readLineIndex o file l0 (replicate (Z.to_nat (num_genes o)) 0) = Done gene_list0
       /\ readLineIndex o file l1 (replicate (Z.to_nat (num_genes o)) 0) = Done gene_list1
       /\ scoreLists o gene_list0 gene_list1 = Done fwd
       /\ scoreLists o gene_list0 (reverse gene_list1) = Done rev
       /\ one = Single.of_double fwd
       /\ (two = Single.of_double fwd \/ two = Single.of_double rev)
       /\ SFleb (Single.of_double fwd) two = true
       /\ SFleb (Single.of_double rev) two = true)
  /\ (num_genes o <= 2 ^ 24 ->
      forall gene_list0 gene_list1 : list Z,
        readLineIndex o file l0 (replicate (Z.to_nat (num_genes o)) 0) = Done gene_list0 ->
        readLineIndex o file l1 (replicate (Z.to_nat (num_genes o)) 0) = Done gene_list1 ->
        exists fwd rev two : spec_float,
          scoreLists o gene_list0 gene_list1 = Done fwd
          /\ scoreLists o gene_list0 (reverse gene_list1) = Done rev
          /\ score_pair (with_two_tailed false o) file l0 l1 = Done (Single.of_double fwd)
          /\ score_pair (with_two_tailed true o) file l0 l1 = Done two).
Proof.
  intros Hn. split.
  - intros one two. rewrite !score_pair_flag.
    destruct (readLineIndex o file l0 _) as [g0|] eqn:H0;
      [rewrite !ScorerFacts.bind_done|by rewrite ScorerFacts.bind_undefined].
    destruct (readLineIndex o file l1 _) as [g1|] eqn:H1;
      [rewrite !ScorerFacts.bind_done|by rewrite ScorerFacts.bind_undefined].
    destruct (scoreLists o g0 g1) as [fwd|] eqn:Hfwd;
      [rewrite !ScorerFacts.bind_done|by rewrite ScorerFacts.bind_undefined].
    destruct (scoreLists o g0 (reverse g1)) as [rev|] eqn:Hrev;
      [rewrite !ScorerFacts.bind_done|by rewrite ScorerFacts.bind_undefined].
    intros [= <-] [= <-].
    pose proof (of_double_signed false fwd
                  (ScorerFacts.scoreLists_signed o g0 g1 fwd Hn Hfwd)) as Hsf.
    pose proof (of_double_signed false rev
                  (ScorerFacts.scoreLists_signed o g0 _ rev Hn Hrev)) as Hsr.
    exists g0, g1, fwd, rev. repeat split; try done.
    + unfold float_max, Single.gtb. destruct (SFltb _ _); [by right|by left].
    + unfold float_max, Single.gtb.
      destruct (SFltb (Single.of_double fwd) (Single.of_double rev)) eqn:Hlt.
      * by apply FloatOrder.SFltb_leb.
      * by apply (FloatOrder.SFleb_refl false).
    + unfold float_max, Single.gtb.
      destruct (SFltb (Single.of_double fwd) (Single.of_double rev)) eqn:Hlt.
      * by apply (FloatOrder.SFleb_refl false).
      * by apply SFleb_of_not_ltb.
  - intros Hsmall g0 g1 H0 H1.
    destruct (ReaderFacts.read_vector o file l0 g0 ltac:(lia) H0) as [Hlen0 Hg0].
    destruct (ReaderFacts.read_vector o file l1 g1 ltac:(lia) H1) as [Hlen1 Hg1].
    destruct (ScorerFacts.scoreLists_defined o g0 g1 ltac:(lia) Hlen0 Hlen1 Hg0 Hg1)
      as (fwd & Hfwd).
    destruct (ScorerFacts.scoreLists_defined o g0 (reverse g1) ltac:(lia) Hlen0)
      as (rev & Hrev).
    { by rewrite length_reverse. }
    { done. }
    { by apply Forall_reverse. }
    exists fwd, rev, (float_max (Single.of_double fwd) (Single.of_double rev)).
    rewrite !score_pair_flag, H0, H1, !ScorerFacts.bind_done.
    by rewrite Hfwd, !ScorerFacts.bind_done, Hrev, ScorerFacts.bind_done.
Qed.

(** The same list twice: the forward score is 0.0, the score against the
    reversed vector is higher, and it is the one reported with [-t]. *)
Lemma C5_two_tailed_maximum_witness :
  exists rev : spec_float,
    score_pair (with_two_tailed false two_genes) file_same_lists 1 2
    = Done (S754_zero false)
    /\ score_pair (with_two_tailed true two_genes) file_same_lists 1 2
       = Done (S754_finite false 11863283 (-24))
    /\ scoreLists two_genes [0; 1] (reverse [0; 1]) = Done rev
    /\ S754_finite false 11863283 (-24) = Single.of_double rev
    /\ SFltb (S754_zero false) (S754_finite false 11863283 (-24)) = true
    /\ SFleb (Single.of_double rev) (S754_finite false 11863283 (-24)) = true.
Proof.
  assert (Hn : 1 <= num_genes two_genes < u32_modulus) by (vm_compute; split; congruence).
  assert (Hone : score_pair (with_two_tailed false two_genes) file_same_lists 1 2
                 = Done (S754_zero false)) by (vm_compute; reflexivity).
  assert (Htwo : score_pair (with_two_tailed true two_genes) file_same_lists 1 2
                 = Done (S754_finite false 11863283 (-24))) by (vm_compute; reflexivity).
  assert (H1 : readLineIndex two_genes file_same_lists 2
                 (replicate (Z.to_nat (num_genes two_genes)) 0) = Done [0; 1])
    by (vm_compute; reflexivity).
  assert (H0 : readLineIndex two_genes file_same_lists 1
                 (replicate (Z.to_nat (num_genes two_genes)) 0) = Done [0; 1])
    by (vm_compute; reflexivity).
  destruct (proj1 (C5_two_tailed_maximum two_genes file_same_lists 1 2 Hn) _ _ Hone Htwo)
    as (g0 & g1 & fwd & rev & Hr0 & Hr1 & Hfwd & Hrev & Hfz & Hcase & _ & Hle).
  rewrite H0 in Hr0. injection Hr0 as <-. rewrite H1 in Hr1. injection Hr1 as <-.
  exists rev. split; [exact Hone|]. split; [exact Htwo|]. split; [exact Hrev|].
  split; [|split; [reflexivity|exact Hle]].
  destruct Hcase as [Hc|Hc]; [|exact Hc].
  rewrite <- Hfz in Hc. discriminate Hc.
Defined.

End PairFacts.

(** ** The partition of the pairs *)

Module PartitionFacts.
Import Partition.

(** The enumeration of the master: the pairs [(i, j)] with
    [1 <= i <= j <= num_lists], self-pairs included. *)
Lemma elem_of_enumeration (o : Options) (i j : Z) :
  0 <= num_lists o < u32_max ->
  (i, j) ∈ enumeration o <-> 1 <= i <= j /\ j <= num_lists o.
Proof.
  intros HL. unfold enumeration, pairs_from, u32, u32_max, u32_modulus in *.
  rewrite Z.mod_small by lia.
  rewrite list_elem_of_bind. split.
  - intros (i' & Hj & Hi). apply list_elem_of_fmap in Hj as (j' & [= -> ->] & Hj).
    apply elem_of_seqZ in Hi, Hj. lia.
  - intros Hij. exists i. split.
    + apply list_elem_of_fmap. exists j. split; [done|]. apply elem_of_seqZ. lia.
    + apply elem_of_seqZ. lia.
Qed.

(** The loop of [main] without MPI leaves the self-pairs out. *)
Lemma elem_of_main_pairs (o : Options) (i j : Z) :
  (i, j) ∈ main_pairs o <-> 1 <= i < j /\ j <= num_lists o.
Proof.
  unfold main_pairs. rewrite list_elem_of_bind. split.
  - intros (i' & Hj & Hi). apply list_elem_of_fmap in Hj as (j' & [= -> ->] & Hj).
    apply elem_of_seqZ in Hi, Hj. lia.
  - intros Hij. exists (i - 1). split.
    + apply list_elem_of_fmap. exists (j - 1). split; [f_equal; lia|].
      apply elem_of_seqZ. lia.
    + apply elem_of_seqZ. lia.
Qed.

(** C1.  With three lists and one client the enumeration of the master
    holds the six pairs with [1 <= i <= j <= 3], but [total_tests] is
    [3 * 2 / 2 = 3], so the client is sent, and scores, the first three
    pairs only: the pair (2, 3) is in the enumeration and no client
    scores it.  The loop of [main] without MPI does score it. *)
Theorem C1_pairs_left_unscored :
  enumeration three_lists_one_client
    = [(1, 1); (1, 2); (1, 3); (2, 2); (2, 3); (3, 3)]
  /\ total_tests three_lists_one_client = 3
  /\ clients three_lists_one_client = [1]
  /\ scored_by three_lists_one_client 1 = [(1, 1); (1, 2); (1, 3)]
  /\ ((2, 3) ∈ enumeration three_lists_one_client)
  /\ ((2, 3) ∉ scored three_lists_one_client)
  /\ main_pairs three_lists_one_client = [(1, 2); (1, 3); (2, 3)].
Proof.
  repeat split; try reflexivity.
  - by apply (bool_decide_unpack _).
  - by apply (bool_decide_unpack _).
Qed.

End PartitionFacts.

(** ** The history of the scorer *)

Module HistoryFacts.

(** No step changes the first entry of the history: the backward walk
    never reaches it, and the new entry goes after it. *)
Lemma first_entry_fixed (o : Options) (tw : spec_float) (buff gene_list0 : list Z)
      (st st' : scan) (i : Z) :
  step o tw buff gene_list0 st i = Done st' ->
  head (history st') = head (history st).
Proof.
  rewrite ScorerFacts.step_next. unfold Spec.next.
  destruct (vget gene_list0 i) as [ivalue|]; [|done]. rewrite ScorerFacts.bind_done.
  destruct (vget buff ivalue) as [b|]; [|done]. rewrite ScorerFacts.bind_done.
  destruct (Single.to_uint (Single.of_uint b)) as [p|]; [|done].
  rewrite ScorerFacts.bind_done.
  destruct (last (history st)) as [lh|] eqn:Hlast; [|done].
  destruct (Single.gtb (Single.of_uint b) (Single.of_uint (pos_y lh))).
  - intros [= <-]. simpl. destruct (history st); [done|done].
  - unfold Spec.insert_within.
    destruct (history st !! _) as [stop|]; [|done]. simpl.
    intros [= <-]. simpl. by destruct (history st).
Qed.



(** C2.  Lists [0 1] and [1 0], no weighting.  After the first gene the
    history is [(1, 1.0)].  The second gene has [pivot_pos = 0], below the
    only entry, so the step takes the else branch: the walk ends at once,
    because the iterator is at [history.begin()]; the entry with
    [pos_y = 1 > 0] keeps its value 1.0 instead of getting [w = 1.0]
    added, and the new entry (0, 2.0) is placed after it, with the value
    of an entry whose [pos_y] is above [pivot_pos]. *)
Theorem C2_first_entry_never_updated :
  rank_lookup 2 [1; 0] = Done [1; 0]
  /\ first_step two_genes [1; 0] [0; 1]
     = Done {| history := [entry 1 Double.one]; rvalue := Double.zero |}
  /\ step two_genes (total_weight two_genes 2) [1; 0] [0; 1]
          {| history := [entry 1 Double.one]; rvalue := Double.zero |} 1
     = Done {| history := [entry 1 Double.one; entry 0 Double.two];
               rvalue := Double.div Double.one Double.two |}.
Proof. repeat split; vm_compute; reflexivity. Qed.

(** C3.  Lists [0 1 2 3] and [3 2 1 0], two permutations of [0, 4).  The
    history ends with the positions 3, 0, 1, 2: it is not increasing. *)
Theorem C3_history_not_increasing :
  exists st : scan,
    run_scan four_genes [0; 1; 2; 3] [3; 2; 1; 0] = Done st
    /\ pos_y <$> history st = [3; 0; 1; 2]
    /\ ~ increasing_pos_y (history st).
Proof.
  eexists. split; [vm_compute; reflexivity|]. split; [reflexivity|].
  intros Hinc. specialize (Hinc 0%nat 1%nat _ _ ltac:(lia) eq_refl eq_refl).
  simpl in Hinc. lia.
Qed.

End HistoryFacts.

(** ** More on the distribution of the pairs *)

Module DistributionFacts.
Import Partition.

(** The flat vector of a list of pairs, as [test_numbers] lays it out. *)
Lemma take_flat (l : list (Z * Z)) :
  forall a : nat, take (a + a) ('(i, j) ← l; [i; j]) = '(i, j) ← take a l; [i; j].
Proof.
  induction l as [|[i j] l IH]; intros a; [by destruct a|].
  destruct a as [|a]; [done|].
  replace (S a + S a)%nat with (S (S (a + a))) by lia.
  csimpl. by rewrite IH.
Qed.

Lemma drop_flat (l : list (Z * Z)) :
  forall a : nat, drop (a + a) ('(i, j) ← l; [i; j]) = '(i, j) ← drop a l; [i; j].
Proof.
  induction l as [|[i j] l IH]; intros a; [by destruct a|].
  destruct a as [|a]; [done|].
  replace (S a + S a)%nat with (S (S (a + a))) by lia.
  csimpl. by rewrite IH.
Qed.

(** A client that walks the flat vector of a list of pairs gets the pairs
    back. *)
Lemma client_pairs_flat (l : list (Z * Z)) :
  client_pairs ('(i, j) ← l; [i; j]) = l.
Proof.
  induction l as [|[i j] l IH]; [done|]. csimpl. by rewrite IH.
Qed.

Lemma length_flat (l : list (Z * Z)) :
  length ('(i, j) ← l; [i; j]) = (2 * length l)%nat.
Proof. induction l as [|[i j] l IH]; [done|]. csimpl. lia. Qed.

Lemma total_tests_nonneg (o : Options) : 0 <= total_tests o < 2 ^ 31.
Proof.
  unfold total_tests, s32, u32, u32_modulus.
  set (x := (num_lists o * ((num_lists o - 1) mod 2 ^ 32)) mod 2 ^ 32).
  assert (Hx : 0 <= x < 2 ^ 32) by (apply Z.mod_pos_bound; lia).
  assert (Hq : 0 <= x / 2 < 2 ^ 31).
  { split; [apply Z.div_pos; lia|apply Z.div_lt_upper_bound; lia]. }
  rewrite Z.mod_small by lia. lia.
Qed.

(** Without wrap-around, [total_tests] is the number of pairs [i < j]. *)
Lemma total_tests_small (o : Options) :
  0 <= num_lists o <= 2 ^ 16 ->
  2 * total_tests o = num_lists o * (num_lists o - 1).
Proof.
  intros HL. unfold total_tests, s32, u32, u32_modulus.
  destruct (decide (num_lists o = 0)) as [->|Hnz]; [done|].
  rewrite (Z.mod_small (num_lists o - 1)) by lia.
  rewrite (Z.mod_small (num_lists o * (num_lists o - 1))) by nia.
  set (x := num_lists o * (num_lists o - 1)).
  assert (Hx : 0 <= x < 2 ^ 32) by (unfold x; nia).
  assert (Heven : x mod 2 = 0).
  { unfold x. rewrite Z.mul_mod by lia.
    destruct (Z.mod_pos_bound (num_lists o - 1) 2 ltac:(lia)) as [? ?].
    replace (num_lists o mod 2) with (((num_lists o - 1) mod 2 + 1) mod 2)
      by (rewrite Z.add_mod_idemp_l by lia; f_equal; lia).
    assert (Hc : (num_lists o - 1) mod 2 = 0 \/ (num_lists o - 1) mod 2 = 1) by lia.
    destruct Hc as [-> | ->]; reflexivity. }
  pose proof (Z.div_mod x 2 ltac:(lia)) as Hdm.
  assert (Hq : 0 <= x / 2 < 2 ^ 31) by lia.
  rewrite Z.mod_small by lia. lia.
Qed.

(** *** The two enumerations *)

Lemma length_pairs_from (i bound : Z) :
  length (pairs_from i bound) = Z.to_nat (bound - i).
Proof. unfold pairs_from. by rewrite length_fmap, length_seqZ. Qed.

Lemma length_rows (a bound : Z) (m : nat) :
  a + Z.of_nat m <= bound ->
  2 * Z.of_nat (length (i ← seqZ a (Z.of_nat m); pairs_from i bound))
  = Z.of_nat m * (2 * (bound - a) - Z.of_nat m + 1).
Proof.
  induction m as [|m IH]; intros Hm; [done|].
  rewrite seqZ_S, bind_app, length_app, Nat2Z.inj_add. csimpl.
  rewrite app_nil_r, length_pairs_from. nia.
Qed.

Lemma NoDup_enumeration (o : Options) : NoDup (enumeration o).
Proof.
  unfold enumeration. apply NoDup_bind.
  - intros i1 i2 [i j] _ _ H1 H2. unfold pairs_from in *.
    apply list_elem_of_fmap in H1 as (? & [= -> ->] & _).
    by apply list_elem_of_fmap in H2 as (? & [= -> _] & _).
  - intros i _. apply NoDup_fmap_2; [by intros ?? [=]|apply NoDup_seqZ].
  - apply NoDup_seqZ.
Qed.

Lemma length_enumeration (o : Options) :
  0 <= num_lists o < u32_max ->
  2 * Z.of_nat (length (enumeration o)) = num_lists o * (num_lists o + 1).
Proof.
  intros HL. unfold enumeration, u32, u32_max, u32_modulus in *.
  rewrite Z.mod_small by lia.
  replace (num_lists o + 1 - 1) with (Z.of_nat (Z.to_nat (num_lists o))) by lia.
  rewrite length_rows by lia. nia.
Qed.

(** X1.  The vector [test_numbers] of the master holds each pair [(i, j)]
    with [1 <= i <= j <= num_lists] once and nothing else, two integers
    for a pair: [num_lists * (num_lists + 1)] integers. *)
Theorem enumeration_exact (o : Options) :
  0 <= num_lists o < 2 ^ 31 - 1 ->
  (forall i j : Z, (i, j) ∈ enumeration o <-> 1 <= i <= j /\ j <= num_lists o)
  /\ NoDup (enumeration o)
  /\ Z.of_nat (length (test_numbers o)) = num_lists o * (num_lists o + 1)
  /\ client_pairs (test_numbers o) = enumeration o.
Proof.
  intros HL.
  assert (HL' : 0 <= num_lists o < u32_max) by (unfold u32_max, u32_modulus; lia).
  split; [|split; [|split]].
  - intros i j. by apply PartitionFacts.elem_of_enumeration.
  - apply NoDup_enumeration.
  - rewrite <- (length_enumeration o HL'). unfold test_numbers.
    rewrite length_flat. lia.
  - apply client_pairs_flat.
Qed.

Lemma enumeration_exact_witness :
  0 <= num_lists three_lists_one_client < 2 ^ 31 - 1
  /\ ((2, 3) ∈ enumeration three_lists_one_client)
  /\ NoDup (enumeration three_lists_one_client)
  /\ Z.of_nat (length (test_numbers three_lists_one_client)) = 12.
Proof.
  assert (HL : 0 <= num_lists three_lists_one_client < 2 ^ 31 - 1) by (simpl; lia).
  destruct (enumeration_exact three_lists_one_client HL) as (Hin & Hnd & Hlen & _).
  split; [done|]. split; [apply Hin; simpl; lia|]. split; [done|]. exact Hlen.
Defined.

Lemma length_main_rows (L : Z) (m : nat) :
  Z.of_nat m <= L ->
  2 * Z.of_nat (length (i ← seqZ 0 (Z.of_nat m);
                        (fun j => (i + 1, j + 1)) <$> seqZ (i + 1) (L - (i + 1))))
  = Z.of_nat m * (2 * L - Z.of_nat m - 1).
Proof.
  induction m as [|m IH]; intros Hm; [done|].
  rewrite seqZ_S, bind_app, length_app, Nat2Z.inj_add. csimpl.
  rewrite app_nil_r, length_fmap, length_seqZ. nia.
Qed.

Lemma length_main_pairs (o : Options) :
  0 <= num_lists o ->
  2 * Z.of_nat (length (main_pairs o)) = num_lists o * (num_lists o - 1).
Proof.
  intros HL. unfold main_pairs.
  replace (num_lists o) with (Z.of_nat (Z.to_nat (num_lists o))) at 1 by lia.
  rewrite length_main_rows by lia. nia.
Qed.

(** X2.  The pair loop of [main] without MPI scores each pair [(i, j)]
    with [1 <= i < j <= num_lists] once and nothing else:
    [num_lists * (num_lists - 1) / 2] pairs, no list against itself. *)
Theorem main_pairs_exact (o : Options) :
  0 <= num_lists o < 2 ^ 31 ->
  (forall i j : Z, (i, j) ∈ main_pairs o <-> 1 <= i < j /\ j <= num_lists o)
  /\ NoDup (main_pairs o)
  /\ 2 * Z.of_nat (length (main_pairs o)) = num_lists o * (num_lists o - 1).
Proof.
  intros HL. split; [|split].
  - intros i j. apply PartitionFacts.elem_of_main_pairs.
  - unfold main_pairs. apply NoDup_bind.
    + intros i1 i2 [i j] _ _ H1 H2.
      apply list_elem_of_fmap in H1 as (? & [= -> ->] & _).
      apply list_elem_of_fmap in H2 as (? & [= He _] & _). lia.
    + intros i _. apply NoDup_fmap_2; [intros ?? [=]; lia|apply NoDup_seqZ].
    + apply NoDup_seqZ.
  - apply length_main_pairs. lia.
Qed.

Lemma main_pairs_exact_witness :
  0 <= num_lists three_lists_one_client < 2 ^ 31
  /\ ((1, 1) ∉ main_pairs three_lists_one_client)
  /\ NoDup (main_pairs three_lists_one_client)
  /\ 2 * Z.of_nat (length (main_pairs three_lists_one_client)) = 6.
Proof.
  assert (HL : 0 <= num_lists three_lists_one_client < 2 ^ 31) by (simpl; lia).
  destruct (main_pairs_exact three_lists_one_client HL) as (Hin & Hnd & Hlen).
  split; [done|]. split; [|split; [done|exact Hlen]].
  intros H. apply Hin in H. lia.
Defined.

(** *** The chunks of the clients *)

Section Chunks.
Variable o : Options.
Hypothesis Hprocs : 2 <= num_procs o.

Lemma per_node_nonneg : 0 <= processes_per_node o /\ 0 <= extra_processes o
  /\ total_tests o
     = (num_procs o - 1) * processes_per_node o + extra_processes o.
Proof using Hprocs.
  pose proof (total_tests_nonneg o) as HT.
  unfold processes_per_node, extra_processes.
  rewrite Z.quot_div_nonneg, Z.rem_mod_nonneg by lia.
  pose proof (Z.div_mod (total_tests o) (num_procs o - 1) ltac:(lia)).
  pose proof (Z.mod_pos_bound (total_tests o) (num_procs o - 1) ltac:(lia)).
  split; [apply Z.div_pos; lia|]. lia.
Qed.

(** What client [i] scores, counted in pairs. *)
Lemma scored_by_pairs (i : Z) :
  1 <= i ->
  scored_by o i
  = take (Z.to_nat (processes_per_node o
                    + (if i =? num_procs o - 1 then extra_processes o else 0)))
         (drop (Z.to_nat (processes_per_node o * (i - 1))) (enumeration o)).
Proof using Hprocs.
  intros Hi. destruct per_node_nonneg as (Hp & He & _).
  unfold scored_by, buffer, send_count, offset, test_numbers.
  set (c := processes_per_node o + _).
  assert (Hc : 0 <= c) by (unfold c; destruct (i =? num_procs o - 1); lia).
  replace (Z.to_nat (2 * c)) with (Z.to_nat c + Z.to_nat c)%nat by lia.
  replace (Z.to_nat (processes_per_node o * 2 * (i - 1)))
    with (Z.to_nat (processes_per_node o * (i - 1))
          + Z.to_nat (processes_per_node o * (i - 1)))%nat by nia.
  by rewrite drop_flat, take_flat, client_pairs_flat.
Qed.

(** The first [m] clients, when none of them is the last, score the first
    [m * processes_per_node] pairs of the enumeration. *)
Lemma first_clients (m : nat) :
  Z.of_nat m < num_procs o - 1 ->
  (i ← seqZ 1 (Z.of_nat m); scored_by o i)
  = take (m * Z.to_nat (processes_per_node o)) (enumeration o).
Proof using Hprocs.
  destruct per_node_nonneg as (Hp & He & _).
  induction m as [|m IH]; intros Hm; [done|].
  rewrite seqZ_S, bind_app, IH by lia. simpl. rewrite app_nil_r.
  rewrite scored_by_pairs by lia.
  destruct (Z.eqb_spec (1 + Z.of_nat m) (num_procs o - 1)); [lia|].
  rewrite Z.add_0_r.
  replace (Z.to_nat (processes_per_node o * (1 + Z.of_nat m - 1)))
    with (m * Z.to_nat (processes_per_node o))%nat by nia.
  rewrite take_take_drop. f_equal. lia.
Qed.

Lemma scored_prefix :
  scored o = take (Z.to_nat (total_tests o)) (enumeration o).
Proof using Hprocs.
  destruct per_node_nonneg as (Hp & He & HT).
  unfold scored, clients.
  replace (num_procs o - 1) with (Z.of_nat (S (Z.to_nat (num_procs o - 2)))) by lia.
  rewrite seqZ_S, bind_app, first_clients by lia. simpl. rewrite app_nil_r.
  rewrite scored_by_pairs by lia.
  destruct (Z.eqb_spec (1 + Z.of_nat (Z.to_nat (num_procs o - 2))) (num_procs o - 1));
    [|lia].
  replace (Z.to_nat (processes_per_node o * (1 + Z.of_nat (Z.to_nat (num_procs o - 2)) - 1)))
    with (Z.to_nat (num_procs o - 2) * Z.to_nat (processes_per_node o))%nat by nia.
  rewrite take_take_drop. f_equal. nia.
Qed.

(** From here on [num_lists * (num_lists - 1)] fits an [int], so that
    [offset] and [send_count] do not overflow. *)
Hypothesis Hlists : 0 <= num_lists o <= 46341.

Lemma tests_fit :
  2 * total_tests o = num_lists o * (num_lists o - 1)
  /\ 2 * total_tests o < 2 ^ 31
  /\ total_tests o <= Z.of_nat (length (enumeration o)).
Proof using Hlists.
  pose proof (total_tests_small o ltac:(lia)) as HT.
  pose proof (length_enumeration o ltac:(unfold u32_max, u32_modulus; lia)) as HE.
  split; [done|]. split; nia.
Qed.

(** X3.  The clients are sent consecutive chunks of the enumeration, in
    the order of their ranks: put one after the other, the pairs they score
    are the first [total_tests] pairs of the enumeration. *)
Theorem chunks_are_a_prefix :
  scored o = take (Z.to_nat (total_tests o)) (enumeration o).
Proof using Hprocs Hlists. apply scored_prefix. Qed.

(** X4.  No pair is scored twice, by one client or by two, and every pair
    scored is a pair of the enumeration. *)
Theorem no_pair_scored_twice :
  NoDup (scored o)
  /\ (forall i j : Z, (i, j) ∈ scored o -> 1 <= i <= j /\ j <= num_lists o).
Proof using Hprocs Hlists.
  rewrite scored_prefix. split.
  - eapply sublist_NoDup; [apply NoDup_enumeration|apply sublist_take].
  - intros i j Hin. apply elem_of_take in Hin as (k & Hk & _).
    apply list_elem_of_lookup_2 in Hk.
    apply PartitionFacts.elem_of_enumeration in Hk; [done|].
    unfold u32_max, u32_modulus. lia.
Qed.

(** X5.  What the master sends to a client lies inside [test_numbers]:
    the client receives [send_count] integers, and scores
    [processes_per_node] pairs, the last client [extra_processes] more. *)
Theorem chunk_in_bounds (i : Z) :
  1 <= i < num_procs o ->
  0 <= offset o i
  /\ offset o i + send_count o i <= Z.of_nat (length (test_numbers o))
  /\ offset o i + send_count o i < 2 ^ 31
  /\ Z.of_nat (length (buffer o i)) = send_count o i
  /\ Z.of_nat (length (scored_by o i))
     = processes_per_node o
       + (if i =? num_procs o - 1 then extra_processes o else 0).
Proof using Hprocs Hlists.
  intros Hi. destruct per_node_nonneg as (Hp & He & HT).
  destruct tests_fit as (H2 & Hint & Hle).
  assert (Hflat : Z.of_nat (length (test_numbers o))
                  = 2 * Z.of_nat (length (enumeration o))).
  { unfold test_numbers. rewrite length_flat. lia. }
  assert (Hsum : 0 <= offset o i /\ 0 <= send_count o i
                 /\ offset o i + send_count o i <= 2 * total_tests o).
  { unfold offset, send_count.
    destruct (Z.eqb_spec i (num_procs o - 1)) as [->|Hne]; [nia|].
    assert (processes_per_node o * i <= processes_per_node o * (num_procs o - 2)) by nia.
    nia. }
  destruct Hsum as (Ho & Hs & Hsum).
  assert (Hbuf : Z.of_nat (length (buffer o i)) = send_count o i).
  { unfold buffer. rewrite length_take, length_drop. lia. }
  split; [done|]. split; [lia|]. split; [lia|]. split; [done|].
  rewrite scored_by_pairs by lia. rewrite length_take, length_drop.
  unfold offset, send_count in *.
  destruct (i =? num_procs o - 1); nia.
Qed.

(** X6.  The clients send back [total_tests] results between them, the
    number the master waits for; it is the number of pairs the loop of
    [main] without MPI scores. *)
Theorem results_awaited :
  Z.of_nat (length (scored o)) = total_tests o
  /\ length (scored o) = length (main_pairs o).
Proof using Hprocs Hlists.
  destruct tests_fit as (H2 & Hint & Hle).
  pose proof (total_tests_nonneg o) as Hnn.
  assert (Hlen : Z.of_nat (length (scored o)) = total_tests o).
  { rewrite scored_prefix, length_take. lia. }
  split; [done|].
  pose proof (length_main_pairs o ltac:(lia)) as Hmain. lia.
Qed.

End Chunks.

(** Five lists and three clients: ten pairs are distributed, three to
    each client and one more to the last. *)
Lemma chunks_are_a_prefix_witness :
  scored_by five_lists_three_clients 1 = [(1, 1); (1, 2); (1, 3)]
  /\ scored_by five_lists_three_clients 2 = [(1, 4); (1, 5); (2, 2)]
  /\ scored_by five_lists_three_clients 3 = [(2, 3); (2, 4); (2, 5); (3, 3)]
  /\ scored five_lists_three_clients
     = take (Z.to_nat (total_tests five_lists_three_clients))
            (enumeration five_lists_three_clients)
  /\ scored three_lists_one_client
     = take (Z.to_nat (total_tests three_lists_one_client))
            (enumeration three_lists_one_client).
Proof.
  assert (Hp : 2 <= num_procs five_lists_three_clients) by (simpl; lia).
  assert (HL : 0 <= num_lists five_lists_three_clients <= 46341) by (simpl; lia).
  assert (Hp1 : 2 <= num_procs three_lists_one_client) by (simpl; lia).
  assert (HL1 : 0 <= num_lists three_lists_one_client <= 46341) by (simpl; lia).
  split; [reflexivity|]. split; [reflexivity|]. split; [reflexivity|].
  split.
  - exact (chunks_are_a_prefix five_lists_three_clients Hp HL).
  - exact (chunks_are_a_prefix three_lists_one_client Hp1 HL1).
Defined.

Lemma no_pair_scored_twice_witness :
  clients five_lists_three_clients = [1; 2; 3]
  /\ length (scored five_lists_three_clients) = 10%nat
  /\ NoDup (scored five_lists_three_clients)
  /\ (forall i j : Z, (i, j) ∈ scored five_lists_three_clients ->
                      1 <= i <= j /\ j <= 5).
Proof.
  assert (Hp : 2 <= num_procs five_lists_three_clients) by (simpl; lia).
  assert (HL : 0 <= num_lists five_lists_three_clients <= 46341) by (simpl; lia).
  split; [reflexivity|]. split; [reflexivity|].
  exact (no_pair_scored_twice five_lists_three_clients Hp HL).
Defined.

Lemma chunk_in_bounds_witness :
  (offset five_lists_three_clients 2 = 6
   /\ send_count five_lists_three_clients 2 = 6
   /\ Z.of_nat (length (buffer five_lists_three_clients 2)) = 6
   /\ Z.of_nat (length (scored_by five_lists_three_clients 2)) = 3)
  /\ (offset five_lists_three_clients 3 = 12
      /\ send_count five_lists_three_clients 3 = 8
      /\ extra_processes five_lists_three_clients = 1
      /\ 12 + 8 <= Z.of_nat (length (test_numbers five_lists_three_clients))
      /\ Z.of_nat (length (buffer five_lists_three_clients 3)) = 8
      /\ Z.of_nat (length (scored_by five_lists_three_clients 3)) = 3 + 1).
Proof.
  assert (Hp : 2 <= num_procs five_lists_three_clients) by (simpl; lia).
  assert (HL : 0 <= num_lists five_lists_three_clients <= 46341) by (simpl; lia).
  assert (H2 : 1 <= 2 < num_procs five_lists_three_clients) by (simpl; lia).
  assert (H3 : 1 <= 3 < num_procs five_lists_three_clients) by (simpl; lia).
  destruct (chunk_in_bounds five_lists_three_clients Hp HL 2 H2)
    as (_ & _ & _ & Hbuf2 & Hsc2).
  destruct (chunk_in_bounds five_lists_three_clients Hp HL 3 H3)
    as (_ & Hin3 & _ & Hbuf3 & Hsc3).
  split.
  - split; [reflexivity|]. split; [reflexivity|]. split; [exact Hbuf2|exact Hsc2].
  - split; [reflexivity|]. split; [reflexivity|]. split; [reflexivity|].
    split; [exact Hin3|]. split; [exact Hbuf3|exact Hsc3].
Defined.

Lemma results_awaited_witness :
  total_tests five_lists_three_clients = 10
  /\ processes_per_node five_lists_three_clients = 3
  /\ extra_processes five_lists_three_clients = 1
  /\ Z.of_nat (length (scored five_lists_three_clients))
     = total_tests five_lists_three_clients
  /\ length (scored five_lists_three_clients)
     = length (main_pairs five_lists_three_clients).
Proof.
  assert (Hp : 2 <= num_procs five_lists_three_clients) by (simpl; lia).
  assert (HL : 0 <= num_lists five_lists_three_clients <= 46341) by (simpl; lia).
  split; [reflexivity|]. split; [reflexivity|]. split; [reflexivity|].
  exact (results_awaited five_lists_three_clients Hp HL).
Defined.

(** X18.  The pairs that the master leaves out are the last ones of its
    enumeration.  With two lists or more, the pair of the last two lists,
    [(num_lists - 1, num_lists)], is scored by the loop of [main] without
    MPI and by no client. *)
Theorem last_pair_never_scored (o : Options) :
  2 <= num_procs o -> 2 <= num_lists o <= 46341 ->
  ((num_lists o - 1, num_lists o) ∈ main_pairs o)
  /\ ((num_lists o - 1, num_lists o) ∈ enumeration o)
  /\ ((num_lists o - 1, num_lists o) ∉ scored o)
  /\ ((num_lists o, num_lists o) ∉ scored o).
Proof.
  intros Hprocs HL.
  assert (HL0 : 0 <= num_lists o <= 46341) by lia.
  destruct (tests_fit o HL0) as (H2 & _ & _).
  pose proof (total_tests_nonneg o) as Hnn.
  split; [apply PartitionFacts.elem_of_main_pairs; lia|].
  split; [apply PartitionFacts.elem_of_enumeration;
          [unfold u32_max, u32_modulus; lia|lia]|].
  rewrite (scored_prefix o Hprocs).
  pose proof (NoDup_enumeration o) as Hnd.
  rewrite <- (take_drop (Z.to_nat (total_tests o)) (enumeration o)) in Hnd.
  apply NoDup_app in Hnd as (_ & Hnd & _).
  assert (Htail : forall x : Z * Z,
             x ∈ [(num_lists o - 1, num_lists o); (num_lists o, num_lists o)] ->
             x ∈ drop (Z.to_nat (total_tests o)) (enumeration o)).
  { intros x Hx. unfold enumeration, u32, u32_modulus.
    rewrite Z.mod_small by lia.
    assert (Hs1 : forall m : Z, seqZ m 1 = [m]).
    { intros m. by rewrite (seqZ_cons m 1), (seqZ_nil _ (Z.pred 1)) by lia. }
    assert (Hs2 : forall m : Z, seqZ m 2 = [m; m + 1]).
    { intros m. rewrite (seqZ_cons m 2) by lia.
      change (Z.pred 2) with 1. rewrite Hs1. reflexivity. }
    replace (num_lists o + 1 - 1) with ((num_lists o - 2) + 2) by lia.
    rewrite seqZ_app, Hs2 by lia.
    rewrite bind_app. csimpl. rewrite app_nil_r. unfold pairs_from at 2 3.
    replace (num_lists o + 1 - (1 + (num_lists o - 2))) with 2 by lia.
    replace (num_lists o + 1 - (1 + (num_lists o - 2) + 1)) with 1 by lia.
    rewrite Hs2, Hs1. csimpl.
    replace (1 + (num_lists o - 2) + 1) with (num_lists o) by lia.
    replace (1 + (num_lists o - 2)) with (num_lists o - 1) by lia.
    pose proof (length_rows 1 (num_lists o + 1) (Z.to_nat (num_lists o - 2)) ltac:(lia))
      as Hlen.
    rewrite Z2Nat.id in Hlen by lia.
    set (A := i ← seqZ 1 (num_lists o - 2); pairs_from i (num_lists o + 1)) in *.
    change (A ++ (num_lists o - 1, num_lists o - 1)
              :: (num_lists o - 1, num_lists o) :: [(num_lists o, num_lists o)])
      with (A ++ [(num_lists o - 1, num_lists o - 1)]
              ++ [(num_lists o - 1, num_lists o); (num_lists o, num_lists o)]).
    rewrite app_assoc, drop_app_le by (rewrite length_app; simpl; nia).
    apply elem_of_app. by right. }
  split; intros Hin; eapply Hnd; try exact Hin; apply Htail.
  - left.
  - right. left.
Qed.

Lemma last_pair_never_scored_witness :
  ((2, 3) ∈ main_pairs three_lists_one_client)
  /\ ((2, 3) ∉ scored three_lists_one_client)
  /\ ((3, 3) ∉ scored three_lists_one_client).
Proof.
  assert (Hp : 2 <= num_procs three_lists_one_client) by (simpl; lia).
  assert (HL : 2 <= num_lists three_lists_one_client <= 46341) by (simpl; lia).
  destruct (last_pair_never_scored three_lists_one_client Hp HL)
    as (Hmain & _ & Hout & Hself).
  split; [exact Hmain|]. split; [exact Hout|exact Hself].
Defined.

End DistributionFacts.

(** ** More on the list reader *)

Module LineFacts.
Import Stream.

Lemma ignore_line_append (l rest : string) :
  one_line l = true -> ignore_line (append l (String newline rest)) = rest.
Proof.
  induction l as [|c l IH]; intros Hl; simpl.
  - done.
  - unfold one_line in Hl. simpl in Hl. apply andb_prop in Hl as [Hc Hl].
    apply negb_true_iff in Hc. rewrite Hc. by apply IH.
Qed.

(** X7.  In a file made of lines, the [idx] calls of [ignore] leave the
    stream at the start of the line number [idx], counted from 0: the
    header is line 0, and the list number [i] is line [i].  Past the last
    line the stream is at the end of the file. *)
Theorem line_start_of_lines (ls : list string) (idx : Z) :
  Forall (fun l => one_line l = true) ls ->
  line_start (of_lines ls) idx = of_lines (drop (Z.to_nat idx) ls).
Proof.
  intros Hls. unfold line_start. generalize (Z.to_nat idx) as n. intros n.
  revert ls Hls. induction n as [|n IH]; intros ls Hls; [done|].
  rewrite Nat.iter_succ_r. destruct ls as [|l ls]; simpl.
  - clear. induction n as [|n IH]; [done|]. by rewrite Nat.iter_succ_r.
  - apply Forall_cons in Hls as [Hl Hls].
    rewrite ignore_line_append by done. by apply IH.
Qed.

Lemma line_start_of_lines_witness :
  line_start file_two_lists 2 = of_lines ["1 0"%string].
Proof.
  apply (line_start_of_lines ["2 2"; "0 1"; "1 0"]%string 2).
  repeat constructor.
Defined.

(** A loop that ends normally has met tokens below the size of the vector
    only. *)
Lemma read_loop_done (remaining : nat) (s : string) (gidx : Z)
      (gene_list gl' : list Z) (n : Z) :
  read_loop remaining s gidx gene_list = Done (gl', n) ->
  Forall (fun t => t < Z.of_nat (length gene_list)) (stored_tokens remaining s).
Proof.
  intros Hrun.
  destruct (decide (Forall (fun t => t < Z.of_nat (length gene_list))
                           (stored_tokens remaining s))) as [Hall|Hnot]; [done|].
  destruct (ReaderFacts.first_out_of_range _ _ Hnot)
    as (pre & t & post & Htok & Hpre & Ht).
  by rewrite (ReaderFacts.read_loop_out_of_bounds _ _ gidx gene_list pre post t
                Htok Hpre Ht) in Hrun.
Qed.

Lemma read_loop_ranks (remaining : nat) :
  forall (s : string) (gidx : Z) (gene_list gl' : list Z) (n : Z),
    read_loop remaining s gidx gene_list = Done (gl', n) ->
    forall (k : nat) (t : Z),
      stored_tokens remaining s !! k = Some t ->
      t ∉ drop (S k) (stored_tokens remaining s) ->
      gl' !! Z.to_nat t = Some (gidx + Z.of_nat k).
Proof.
  induction remaining as [|r IH]; intros s gidx gl gl' n Hrun k t Hk Hlast;
    simpl in *; [done|].
  destruct (extract_uint s) as [[t0 s']|] eqn:He; [|done].
  unfold vset in Hrun. destruct (t0 <? Z.of_nat (length gl)) eqn:Hlt; [|done].
  simpl in Hrun. apply ReaderFacts.extract_uint_range in He as Ht0.
  destruct k as [|k]; simpl in *.
  - injection Hk as ->. rewrite Z.add_0_r.
    pose proof (read_loop_done _ _ _ _ _ _ Hrun) as Hall.
    destruct (ReaderFacts.read_loop_in_bounds r s' (gidx + 1) _ Hall)
      as (gl'' & Hrun' & _ & Hkeep & _).
    rewrite Hrun in Hrun'. injection Hrun' as <- _.
    rewrite Hkeep by (rewrite Z2Nat.id by lia; done).
    apply list_lookup_insert_eq. apply Z.ltb_lt in Hlt. lia.
  - rewrite (IH _ _ _ _ _ Hrun k t Hk Hlast). f_equal. lia.
Qed.

(** X8.  What [readLineIndex] returns: the vector it was given, with at
    the index [t] the place in the line of the last token equal to [t].
    A gene that the line names twice keeps the later place, with no
    notice; an index that the line does not name keeps what the vector
    held, the initial 0. *)
Theorem reader_stores_ranks (o : Options) (file : string) (idx : Z)
        (gene_list g : list Z) :
  readLineIndex o file idx gene_list = Done g ->
  let tokens := stored_tokens (Z.to_nat (num_genes o)) (line_start file idx) in
  length g = length gene_list
  /\ Forall (fun t => 0 <= t < Z.of_nat (length gene_list)) tokens
  /\ (forall (k : nat) (t : Z),
        tokens !! k = Some t -> t ∉ drop (S k) tokens ->
        g !! Z.to_nat t = Some (Z.of_nat k))
  /\ (forall j : nat, Z.of_nat j ∉ tokens -> g !! j = gene_list !! j).
Proof.
  intros Hrun tokens. unfold readLineIndex, read_line in Hrun.
  destruct (read_loop _ _ 0 gene_list) as [[g' n]|] eqn:Hloop; [|done].
  injection Hrun as <-. simpl.
  pose proof (read_loop_done _ _ _ _ _ _ Hloop) as Hall.
  destruct (ReaderFacts.read_loop_in_bounds _ _ 0 gene_list Hall)
    as (gl'' & Hrun' & Hlen & Hkeep & _).
  rewrite Hloop in Hrun'. injection Hrun' as <- _.
  split; [done|]. split; [|split; [|done]].
  - pose proof (ReaderFacts.stored_tokens_nonneg (Z.to_nat (num_genes o))
                  (line_start file idx)) as Hnn.
    apply Forall_forall. intros t Ht.
    rewrite Forall_forall in Hall, Hnn. split; [by apply Hnn|by apply Hall].
  - intros k t Hk Hlast.
    by rewrite (read_loop_ranks _ _ _ _ _ _ Hloop k t Hk Hlast).
Qed.

(** A line [0 +1]: both tokens are stored, the second at index 1. *)
Lemma reader_stores_ranks_witness :
  readLineIndex two_genes file_plus_sign 1 [0; 0] = Done [0; 1]
  /\ [0; 1] !! Z.to_nat 1 = Some (Z.of_nat 1)
  /\ readLineIndex two_genes file_two_lists 2 [0; 0] = Done [1; 0]
  /\ [1; 0] !! Z.to_nat 1 = Some (Z.of_nat 0).
Proof.
  assert (Hsign : readLineIndex two_genes file_plus_sign 1 [0; 0] = Done [0; 1])
    by (vm_compute; reflexivity).
  assert (Hrun : readLineIndex two_genes file_two_lists 2 [0; 0] = Done [1; 0])
    by (vm_compute; reflexivity).
  split; [done|]. split; [|split; [done|]].
  - destruct (reader_stores_ranks two_genes file_plus_sign 1 [0; 0] [0; 1] Hsign)
      as (_ & _ & Hrank & _).
    apply (Hrank 1%nat 1).
    + vm_compute. reflexivity.
    + by apply (bool_decide_unpack _).
  - destruct (reader_stores_ranks two_genes file_two_lists 2 [0; 0] [1; 0] Hrun)
      as (_ & _ & Hrank & _).
    apply (Hrank 0%nat 1).
    + vm_compute. reflexivity.
    + by apply (bool_decide_unpack _).
Defined.

End LineFacts.

(** ** The rank lookup of the scorer *)

Module LookupFacts.

(** One turn of the loop that fills [buff]. *)
Local Abbreviation store g1 :=
  (fun (acc : outcome (list Z)) (i : Z) => buff ← acc; g ← vget g1 i; vset buff g i).

Lemma lookup_prefix (size : nat) (g1 : list Z) :
  Forall (fun g => 0 <= g) g1 ->
  forall (m : nat) (buff : list Z),
    foldl (store g1) (Done (replicate size 0)) (seqZ 0 (Z.of_nat m)) = Done buff ->
    length buff = size
    /\ (m <= length g1)%nat
    /\ Forall (fun g => g < Z.of_nat size) (take m g1)
    /\ (forall (i : nat) (g : Z), (i < m)%nat -> g1 !! i = Some g ->
          g ∉ drop (S i) (take m g1) -> buff !! Z.to_nat g = Some (Z.of_nat i))
    /\ (forall j : nat, Z.of_nat j ∉ take m g1 -> buff !! j = replicate size 0 !! j).
Proof.
  intros Hnn. rewrite Forall_forall in Hnn.
  induction m as [|m IH]; intros buff Hrun.
  - simpl in Hrun. injection Hrun as <-. rewrite length_replicate.
    split; [done|]. split; [lia|]. split; [by rewrite take_0|]. split; [lia|done].
  - rewrite seqZ_S, foldl_app in Hrun. simpl in Hrun.
    destruct (foldl _ _ (seqZ 0 (Z.of_nat m))) as [b|] eqn:Hb; [|done].
    destruct (IH b eq_refl) as (Hlen & Hm & Hin & Hrank & Hkeep).
    rewrite ScorerFacts.bind_done in Hrun. unfold vget in Hrun.
    rewrite !Z.add_0_l, Nat2Z.id in Hrun.
    destruct (g1 !! m) as [g|] eqn:Hg; [|done].
    rewrite ScorerFacts.bind_done in Hrun.
    unfold vset in Hrun. destruct (g <? Z.of_nat (length b)) eqn:Hlt; [|done].
    injection Hrun as <-. apply Z.ltb_lt in Hlt.
    assert (Hg0 : 0 <= g) by (apply Hnn; by eapply list_elem_of_lookup_2).
    rewrite (take_S_r _ _ _ Hg).
    split; [by rewrite length_insert|].
    split; [apply lookup_lt_Some in Hg; lia|].
    split; [apply Forall_app; split; [done|constructor; [lia|constructor]]|].
    split.
    + intros i g' Hi Hg' Hlast.
      destruct (decide (i = m)) as [->|Hne].
      * rewrite Hg in Hg'. injection Hg' as <-. apply list_lookup_insert_eq. lia.
      * rewrite drop_app_le in Hlast by (rewrite length_take; lia).
        apply not_elem_of_app in Hlast as [Hl1 Hl2].
        apply not_elem_of_cons in Hl2 as [Hl2 _].
        assert (Hg0' : 0 <= g') by (apply Hnn; by eapply list_elem_of_lookup_2).
        rewrite list_lookup_insert_ne by lia. apply Hrank; [lia|done|done].
    + intros j Hj. apply not_elem_of_app in Hj as [Hj1 Hj2].
      apply not_elem_of_cons in Hj2 as [Hj2 _].
      rewrite list_lookup_insert_ne by lia. by apply Hkeep.
Qed.

(** X9.  The lookup vector of [scoreLists].  If the loop that fills
    [buff] ends normally, [gene_list1] has at least as many entries as
    [gene_list0], the first [size] of them below [size].  Then
    [buff[gene_list1[i]] = i] for the last [i] below [size] with that
    entry, and [buff] is 0 where [gene_list1] names no index. *)
Theorem lookup_inverts (size : nat) (gene_list1 buff : list Z) :
  Forall (fun g => 0 <= g) gene_list1 ->
  rank_lookup size gene_list1 = Done buff ->
  length buff = size
  /\ (size <= length gene_list1)%nat
  /\ Forall (fun g => g < Z.of_nat size) (take size gene_list1)
  /\ (forall (i : nat) (g : Z), (i < size)%nat -> gene_list1 !! i = Some g ->
        g ∉ drop (S i) (take size gene_list1) ->
        buff !! Z.to_nat g = Some (Z.of_nat i))
  /\ (forall j : nat, (j < size)%nat -> Z.of_nat j ∉ take size gene_list1 ->
        buff !! j = Some 0).
Proof.
  intros Hnn Hrun.
  destruct (lookup_prefix size gene_list1 Hnn size buff Hrun)
    as (Hlen & Hm & Hin & Hrank & Hkeep).
  repeat split; try done.
  intros j Hj Hout. rewrite (Hkeep j Hout). by apply lookup_replicate_2.
Qed.

Lemma lookup_inverts_witness :
  rank_lookup 3 [2; 0; 1] = Done [1; 2; 0]
  /\ [1; 2; 0] !! Z.to_nat 2 = Some (Z.of_nat 0).
Proof.
  assert (Hnn : Forall (fun g => 0 <= g) [2; 0; 1]) by (repeat constructor; lia).
  assert (Hrun : rank_lookup 3 [2; 0; 1] = Done [1; 2; 0]) by reflexivity.
  split; [done|].
  destruct (lookup_inverts 3 [2; 0; 1] [1; 2; 0] Hnn Hrun) as (_ & _ & _ & Hrank & _).
  apply (Hrank 0%nat 2); [lia|done|].
  by apply (bool_decide_unpack _).
Defined.

(** *** Permutations *)

(** A vector of [n] different positions below [n] holds them all. *)
Lemma covers (n : nat) (l : list Z) :
  length l = n -> NoDup l -> Forall (fun x => 0 <= x < Z.of_nat n) l ->
  forall j : Z, 0 <= j < Z.of_nat n -> j ∈ l.
Proof.
  intros Hlen Hnd Hall j Hj. rewrite Forall_forall in Hall.
  assert (Hperm : l ≡ₚ seqZ 0 (Z.of_nat n)).
  { apply submseteq_length_Permutation.
    - apply NoDup_submseteq; [done|]. intros x Hx. apply elem_of_seqZ.
      specialize (Hall x Hx). lia.
    - rewrite length_seqZ. lia. }
  rewrite Hperm. apply elem_of_seqZ. lia.
Qed.

Lemma NoDup_last (l : list Z) (i m : nat) (g : Z) :
  NoDup l -> l !! i = Some g -> g ∉ drop (S i) (take m l).
Proof.
  intros Hnd Hi Hin. apply list_elem_of_lookup in Hin as [k Hk].
  rewrite lookup_drop, lookup_take in Hk. destruct (decide _); [|done].
  pose proof (proj1 (NoDup_alt l) Hnd _ _ _ Hi Hk). lia.
Qed.

(** The lookup vector of a permutation, by its entries. *)
Lemma lookup_permutation (n : nat) (g1 buff : list Z) :
  length g1 = n -> NoDup g1 -> Forall (fun g => 0 <= g) g1 ->
  rank_lookup n g1 = Done buff ->
  length buff = n
  /\ Forall (fun g => 0 <= g < Z.of_nat n) g1
  /\ (forall (i : nat) (g : Z), g1 !! i = Some g ->
        buff !! Z.to_nat g = Some (Z.of_nat i)).
Proof.
  intros Hlen Hnd Hnn Hrun.
  destruct (lookup_prefix n g1 Hnn n buff Hrun) as (Hb & _ & Hin & Hrank & _).
  rewrite take_ge in Hin by lia.
  split; [done|]. split.
  - rewrite Forall_forall in *. intros g Hg.
    specialize (Hnn g Hg). specialize (Hin g Hg). lia.
  - intros i g Hg. apply Hrank; [|done|by apply NoDup_last].
    apply lookup_lt_Some in Hg. lia.
Qed.

(** X10.  The two-tailed run.  Reversing [gene_list1], a permutation of
    the positions below [n], mirrors the lookup vector: every gene gets
    the position [n - 1 - b] in place of [b]. *)
Theorem reversed_lookup_mirrors (n : nat) (gene_list1 buff : list Z) :
  length gene_list1 = n -> NoDup gene_list1 ->
  Forall (fun g => 0 <= g) gene_list1 ->
  rank_lookup n gene_list1 = Done buff ->
  rank_lookup n (reverse gene_list1)
  = Done ((fun b => Z.of_nat n - 1 - b) <$> buff).
Proof.
  intros Hlen Hnd Hnn Hrun.
  destruct (lookup_permutation n gene_list1 buff Hlen Hnd Hnn Hrun)
    as (Hb & Hin & Hrank).
  destruct (ScorerFacts.rank_lookup_defined n (reverse gene_list1)) as (buff' & Hrun' & Hb' & _).
  { by rewrite length_reverse. }
  { by apply Forall_reverse. }
  rewrite Hrun'. f_equal.
  destruct (lookup_permutation n (reverse gene_list1) buff') as (_ & _ & Hrank').
  { by rewrite length_reverse. }
  { by rewrite reverse_Permutation. }
  { by apply Forall_reverse. }
  { done. }
  apply (list_eq_same_length _ _ n); [by rewrite length_fmap|done|].
  intros x b' b Hx Hl' Hl.
  assert (Hxin : Z.of_nat x ∈ gene_list1) by (apply (covers n); [done|done|done|lia]).
  apply list_elem_of_lookup in Hxin as [j Hj].
  pose proof (lookup_lt_Some _ _ _ Hj) as Hjn.
  pose proof (Hrank j _ Hj) as H1. rewrite Nat2Z.id in H1.
  assert (Hrev : reverse gene_list1 !! (n - S j)%nat = Some (Z.of_nat x)).
  { rewrite reverse_lookup by lia. rewrite <- Hj. f_equal. lia. }
  pose proof (Hrank' _ _ Hrev) as H2. rewrite Nat2Z.id in H2.
  rewrite list_lookup_fmap, H1 in Hl. simpl in Hl.
  rewrite H2 in Hl'. injection Hl as <-. injection Hl' as <-. lia.
Qed.

Lemma reversed_lookup_mirrors_witness :
  rank_lookup 3 (reverse [2; 0; 1]) = Done [1; 0; 2].
Proof.
  assert (Hnd : NoDup [2; 0; 1]) by (by apply (bool_decide_unpack _)).
  assert (Hnn : Forall (fun g => 0 <= g) [2; 0; 1]) by (repeat constructor; lia).
  assert (Hrun : rank_lookup 3 [2; 0; 1] = Done [1; 2; 0]) by reflexivity.
  exact (reversed_lookup_mirrors 3 [2; 0; 1] [1; 2; 0] eq_refl Hnd Hnn Hrun).
Defined.

(** X11.  Reading and looking up.  For a line that holds [num_genes]
    different tokens below [num_genes], [readLineIndex] returns the
    inverse permutation, and the lookup vector that [scoreLists] builds
    from it as [gene_list1] is the line again: [buff[g]] is the token at
    the place [g] of the line. *)
Theorem lookup_of_read_line (o : Options) (file : string) (idx : Z) :
  let n := Z.to_nat (num_genes o) in
  let tokens := stored_tokens n (line_start file idx) in
  length tokens = n -> NoDup tokens ->
  Forall (fun t => t < num_genes o) tokens ->
  exists g : list Z,
    readLineIndex o file idx (replicate n 0) = Done g
    /\ (forall (k : nat) (t : Z),
          tokens !! k = Some t -> g !! Z.to_nat t = Some (Z.of_nat k))
    /\ rank_lookup n g = Done tokens.
Proof.
  intros n tokens Hlen Hnd Hlt.
  pose proof (ReaderFacts.stored_tokens_nonneg n (line_start file idx)) as Hnn.
  fold tokens in Hnn.
  assert (Hall : Forall (fun t => t < Z.of_nat (length (replicate n 0))) tokens).
  { rewrite length_replicate. eapply Forall_impl; [exact Hlt|]. simpl. lia. }
  destruct (ReaderFacts.read_loop_in_bounds n (line_start file idx) 0 _ Hall)
    as (g & Hloop & Hg & _ & Hval).
  rewrite length_replicate in Hg.
  assert (Hrange : Forall (fun x => 0 <= x < Z.of_nat n) g).
  { apply Hval; [lia|lia|].
    destruct n as [|n']; [constructor|]. apply Forall_replicate. lia. }
  assert (Hread : readLineIndex o file idx (replicate n 0) = Done g).
  { unfold readLineIndex, read_line. fold n. by rewrite Hloop. }
  assert (Hrank : forall (k : nat) (t : Z),
             tokens !! k = Some t -> g !! Z.to_nat t = Some (Z.of_nat k)).
  { intros k t Hk.
    rewrite (LineFacts.read_loop_ranks _ _ _ _ _ _ Hloop k t Hk); [f_equal; lia|].
    pose proof (NoDup_last tokens k (length tokens) t Hnd Hk) as Hl.
    by rewrite take_ge in Hl by lia. }
  exists g. split; [done|]. split; [done|].
  destruct (ScorerFacts.rank_lookup_defined n g Hg Hrange) as (buff & Hrun & Hb & _).
  rewrite Hrun. f_equal.
  assert (Htok : Forall (fun x => 0 <= x < Z.of_nat n) tokens).
  { rewrite Forall_forall in *. intros t Ht.
    specialize (Hnn t Ht). specialize (Hlt t Ht). lia. }
  assert (Hgnn : Forall (fun x => 0 <= x) g).
  { eapply Forall_impl; [exact Hrange|]. simpl. lia. }
  destruct (lookup_prefix n g Hgnn n buff Hrun) as (_ & _ & _ & Hinv & _).
  apply (list_eq_same_length _ _ n); [done|done|].
  intros k b t Hk Hb' Ht.
  pose proof (Hrank k t Ht) as Hgt.
  assert (Htn : 0 <= t < Z.of_nat n).
  { rewrite Forall_forall in Htok. apply Htok. by eapply list_elem_of_lookup_2. }
  assert (Hlast : Z.of_nat k ∉ drop (S (Z.to_nat t)) (take n g)).
  { intros Hin. apply list_elem_of_lookup in Hin as [d Hd].
    rewrite lookup_drop, lookup_take in Hd. destruct (decide _) as [Hdn|]; [|done].
    assert (Hcov : Z.of_nat (S (Z.to_nat t) + d) ∈ tokens)
      by (apply (covers n); [done|done|done|lia]).
    apply list_elem_of_lookup in Hcov as [k' Hk'].
    pose proof (Hrank k' _ Hk') as Hg'. rewrite Nat2Z.id, Hd in Hg'.
    injection Hg' as Hkk. apply Nat2Z.inj in Hkk. subst k'.
    rewrite Ht in Hk'. injection Hk' as Hk'. lia. }
  pose proof (Hinv (Z.to_nat t) (Z.of_nat k) ltac:(lia) Hgt Hlast) as Hfin.
  rewrite Nat2Z.id, Hb' in Hfin. injection Hfin as ->. lia.
Qed.

Lemma lookup_of_read_line_witness :
  exists g : list Z,
    readLineIndex two_genes file_two_lists 2 (replicate 2 0) = Done g
    /\ rank_lookup 2 g = Done [1; 0].
Proof.
  assert (Hlen : length (stored_tokens (Z.to_nat (num_genes two_genes))
                           (line_start file_two_lists 2))
                 = Z.to_nat (num_genes two_genes)) by (vm_compute; reflexivity).
  assert (Hnd : NoDup (stored_tokens (Z.to_nat (num_genes two_genes))
                         (line_start file_two_lists 2))).
  { assert (Htok : stored_tokens (Z.to_nat (num_genes two_genes))
                     (line_start file_two_lists 2) = [1; 0])
      by (vm_compute; reflexivity).
    rewrite Htok. by apply (bool_decide_unpack _). }
  assert (Hlt : Forall (fun t => t < num_genes two_genes)
                  (stored_tokens (Z.to_nat (num_genes two_genes))
                     (line_start file_two_lists 2))).
  { assert (Htok : stored_tokens (Z.to_nat (num_genes two_genes))
                     (line_start file_two_lists 2) = [1; 0])
      by (vm_compute; reflexivity).
    rewrite Htok. repeat constructor. }
  destruct (lookup_of_read_line two_genes file_two_lists 2 Hlen Hnd Hlt)
    as (g & Hread & _ & Hlook).
  exists g. split; [exact Hread|]. exact Hlook.
Defined.

End LookupFacts.

(** ** The history of the scorer, over a whole run *)

Module StaircaseFacts.
Import Format.

(** The loop of [scoreLists], from a state on. *)
Local Abbreviation steps o tw buff g0 :=
  (foldl (fun (acc : outcome scan) (i : Z) => st ← acc; step o tw buff g0 st i)).

Lemma steps_undefined (o : Options) (tw : spec_float) (buff g0 : list Z)
      (l : list Z) (why : fault) :
  steps o tw buff g0 (Undefined why) l = Undefined why.
Proof. induction l as [|i l IH]; [done|]. simpl. exact IH. Qed.

Lemma fmap_pos_y_bump (w : spec_float) (l : list History) :
  pos_y <$> (Spec.bump w <$> l) = pos_y <$> l.
Proof. rewrite <- list_fmap_compose. by apply list_fmap_ext. Qed.

(** A step adds one entry, at the position of its gene, and changes no
    position. *)
Lemma next_positions (o : Options) (tw : spec_float) (buff g0 : list Z)
      (st st' : scan) (i : Z) :
  Spec.next o tw buff g0 st i = Done st' ->
  exists p : Z,
    position buff g0 i = Done p
    /\ pos_y <$> history st' ≡ₚ p :: (pos_y <$> history st).
Proof.
  unfold Spec.next, position.
  destruct (vget g0 i) as [ivalue|]; [|done]. rewrite !ScorerFacts.bind_done.
  destruct (vget buff ivalue) as [b|]; [|done]. rewrite !ScorerFacts.bind_done.
  destruct (Single.to_uint (Single.of_uint b)) as [p|]; [|done].
  rewrite ScorerFacts.bind_done.
  destruct (last (history st)) as [lh|] eqn:Hlast; [|done].
  destruct (Single.gtb (Single.of_uint b) (Single.of_uint (pos_y lh))).
  - intros [= <-]. exists p. split; [done|]. simpl.
    rewrite fmap_app. simpl. by rewrite <- Permutation_cons_append.
  - unfold Spec.insert_within.
    destruct (history st !! _) as [stop|]; [|done]. simpl.
    intros [= <-]. exists p. split; [done|]. simpl.
    rewrite fmap_app, fmap_cons, fmap_pos_y_bump. simpl.
    rewrite <- Permutation_middle, <- fmap_app. by rewrite take_drop.
Qed.

Lemma steps_positions (o : Options) (tw : spec_float) (buff g0 : list Z)
      (l : list Z) :
  forall st0 st : scan,
    steps o tw buff g0 (Done st0) l = Done st ->
    exists ps : list Z,
      Forall2 (fun i p => position buff g0 i = Done p) l ps
      /\ pos_y <$> history st ≡ₚ ps ++ (pos_y <$> history st0)
      /\ head (history st) = head (history st0).
Proof.
  induction l as [|i l IH]; intros st0 st Hrun; simpl in Hrun.
  - injection Hrun as <-. exists []. by repeat split.
  - destruct (step o tw buff g0 st0 i) as [st1|why] eqn:Hstep;
      [|by rewrite steps_undefined in Hrun].
    destruct (IH st1 st Hrun) as (ps & Hps & Hperm & Hhead).
    pose proof (HistoryFacts.first_entry_fixed _ _ _ _ _ _ _ Hstep) as Hfix.
    rewrite ScorerFacts.step_next in Hstep.
    destruct (next_positions _ _ _ _ _ _ _ Hstep) as (p & Hp & Hperm1).
    exists (p :: ps). split; [by constructor|]. split; [|congruence].
    rewrite Hperm, Hperm1. simpl. by rewrite Permutation_middle.
Qed.

Lemma run_scan_inv (o : Options) (g0 g1 : list Z) (st : scan) :
  run_scan o g0 g1 = Done st ->
  exists (buff : list Z) (p0 : Z),
    rank_lookup (length g0) g1 = Done buff
    /\ position buff g0 0 = Done p0
    /\ steps o (total_weight o (length g0)) buff g0
         (Done {| history := [entry p0 (calculateWeight 0 (pivot o))];
                  rvalue := Double.zero |})
         (seqZ 1 (num_genes o - 1)) = Done st.
Proof.
  unfold run_scan. intros Hrun.
  destruct (rank_lookup (length g0) g1) as [buff|]; [|done].
  rewrite ScorerFacts.bind_done in Hrun.
  unfold first_step in Hrun. unfold position.
  destruct (vget g0 0) as [ivalue|]; [|done]. rewrite ScorerFacts.bind_done in Hrun.
  destruct (vget buff ivalue) as [b|] eqn:Hb; [|done].
  rewrite ScorerFacts.bind_done in Hrun.
  destruct (Single.to_uint (Single.of_uint b)) as [p|] eqn:Hp; [|done].
  rewrite !ScorerFacts.bind_done in Hrun.
  exists buff, p. split; [done|]. split; [|done].
  rewrite !ScorerFacts.bind_done. by rewrite Hb, ScorerFacts.bind_done.
Qed.

(** X12.  The history holds one entry for each gene of [gene_list0], at
    the position of that gene: no entry is dropped or merged, and no
    position is changed after its entry is made. *)
Theorem history_one_entry_per_gene (o : Options) (gene_list0 gene_list1 : list Z)
        (st : scan) :
  1 <= num_genes o ->
  run_scan o gene_list0 gene_list1 = Done st ->
  exists buff ps : list Z,
    rank_lookup (length gene_list0) gene_list1 = Done buff
    /\ Forall2 (fun i p => position buff gene_list0 i = Done p)
               (seqZ 0 (num_genes o)) ps
    /\ pos_y <$> history st ≡ₚ ps
    /\ Z.of_nat (length (history st)) = num_genes o.
Proof.
  intros Hn Hrun.
  destruct (run_scan_inv o gene_list0 gene_list1 st Hrun)
    as (buff & p0 & Hbuff & Hp0 & Hsteps).
  destruct (steps_positions _ _ _ _ _ _ _ Hsteps) as (ps & Hps & Hperm & _).
  simpl in Hperm.
  exists buff, (p0 :: ps).
  assert (Hseq : seqZ 0 (num_genes o) = 0 :: seqZ 1 (num_genes o - 1)).
  { rewrite (seqZ_cons 0 (num_genes o)) by lia. f_equal. }
  split; [done|]. split; [rewrite Hseq; by constructor|].
  assert (Hperm' : pos_y <$> history st ≡ₚ p0 :: ps).
  { rewrite Hperm. by rewrite <- Permutation_cons_append. }
  split; [done|].
  apply Permutation_length in Hperm'. rewrite length_fmap in Hperm'.
  rewrite Hperm'. simpl. apply Forall2_length in Hps.
  rewrite <- Hps, length_seqZ. lia.
Qed.

Lemma history_one_entry_per_gene_witness :
  exists (st : scan) (buff ps : list Z),
    run_scan four_genes [0; 1; 2; 3] [3; 2; 1; 0] = Done st
    /\ rank_lookup 4 [3; 2; 1; 0] = Done buff
    /\ Forall2 (fun i p => position buff [0; 1; 2; 3] i = Done p) (seqZ 0 4) ps
    /\ pos_y <$> history st ≡ₚ ps
    /\ Z.of_nat (length (history st)) = 4.
Proof.
  assert (Hn : 1 <= num_genes four_genes) by (simpl; lia).
  assert (Hrun : exists st : scan,
             run_scan four_genes [0; 1; 2; 3] [3; 2; 1; 0] = Done st)
    by (eexists; vm_compute; reflexivity).
  destruct Hrun as (st & Hrun).
  destruct (history_one_entry_per_gene four_genes _ _ _ Hn Hrun)
    as (buff & ps & Hb & Hps & Hperm & Hlen).
  exists st, buff, ps. split; [exact Hrun|]. split; [exact Hb|].
  split; [exact Hps|]. split; [exact Hperm|exact Hlen].
Defined.

(** X13.  The first entry of the history is never changed: at the end of
    the run it is the entry made for the first gene of [gene_list0], with
    the value [calculateWeight 0 pivot], whatever was placed after it. *)
Theorem first_entry_is_final (o : Options) (gene_list0 gene_list1 : list Z)
        (st : scan) :
  run_scan o gene_list0 gene_list1 = Done st ->
  exists (buff : list Z) (p0 : Z),
    rank_lookup (length gene_list0) gene_list1 = Done buff
    /\ position buff gene_list0 0 = Done p0
    /\ head (history st) = Some (entry p0 (calculateWeight 0 (pivot o))).
Proof.
  intros Hrun.
  destruct (run_scan_inv o gene_list0 gene_list1 st Hrun)
    as (buff & p0 & Hbuff & Hp0 & Hsteps).
  destruct (steps_positions _ _ _ _ _ _ _ Hsteps) as (_ & _ & _ & Hhead).
  by exists buff, p0.
Qed.

Lemma first_entry_is_final_witness :
  exists (st : scan) (buff : list Z) (p0 : Z),
    run_scan four_genes [0; 1; 2; 3] [3; 2; 1; 0] = Done st
    /\ rank_lookup 4 [3; 2; 1; 0] = Done buff
    /\ position buff [0; 1; 2; 3] 0 = Done p0
    /\ head (history st) = Some (entry p0 (calculateWeight 0 0)).
Proof.
  assert (Hrun : exists st : scan,
             run_scan four_genes [0; 1; 2; 3] [3; 2; 1; 0] = Done st)
    by (eexists; vm_compute; reflexivity).
  destruct Hrun as (st & Hrun).
  destruct (first_entry_is_final four_genes _ _ _ Hrun) as (buff & p0 & Hb & Hp & Hh).
  exists st, buff, p0. split; [exact Hrun|]. split; [exact Hb|].
  split; [exact Hp|exact Hh].
Defined.

(** *** When the history is increasing *)

(** Positions below [2 ^ 24] compare as [float] values the way they do as
    integers. *)
Lemma canon_ltb (prec a b : Z) :
  2 <= prec -> 0 <= a -> 0 <= b -> Zdigits2 a <= prec -> Zdigits2 b <= prec ->
  SFltb (canon prec a) (canon prec b) = (a <? b).
Proof.
  intros Hp Ha Hb Hda Hdb.
  destruct a as [|pa|pa], b as [|pb|pb]; try lia; try done.
  unfold canon.
  pose proof (Rounding.Zdigits2_spec (Z.pos pa) ltac:(lia)) as Hsa.
  pose proof (Rounding.Zdigits2_spec (Z.pos pb) ltac:(lia)) as Hsb.
  set (da := Zdigits2 (Z.pos pa)) in *. set (db := Zdigits2 (Z.pos pb)) in *.
  assert (Hqa : 0 < 2 ^ (prec - da)) by (apply Z.pow_pos_nonneg; lia).
  assert (Hqb : 0 < 2 ^ (prec - db)) by (apply Z.pow_pos_nonneg; lia).
  assert (Hmono : Z.pos pa < Z.pos pb -> da <= db).
  { intros Hlt. apply (Rounding.Zdigits2_mono 24 128 WeightFacts.single_format (Z.pos pa) (Z.pos pb)). lia. }
  assert (Hmono' : Z.pos pb <= Z.pos pa -> db <= da).
  { intros Hle. apply (Rounding.Zdigits2_mono 24 128 WeightFacts.single_format (Z.pos pb) (Z.pos pa)). lia. }
  destruct (Z.ltb_spec (Z.pos pa) (Z.pos pb)) as [Hlt|Hge].
  - apply FloatOrder.SFltb_finite_pos.
    destruct (decide (da = db)) as [Heq|Hne]; [right|left; specialize (Hmono Hlt); lia].
    split; [lia|]. rewrite <- Heq.
    assert (Hm : Z.pos (Z.to_pos (Z.pos pa * 2 ^ (prec - da)))
                 < Z.pos (Z.to_pos (Z.pos pb * 2 ^ (prec - da))))
      by (rewrite !Z2Pos.id by nia; nia).
    exact Hm.
  - apply not_true_is_false. intros [He|[He Hm]]%FloatOrder.SFltb_finite_pos.
    + specialize (Hmono' Hge). lia.
    + assert (Heq : da = db) by lia. rewrite <- Heq in Hm.
      change (Z.pos (Z.to_pos (Z.pos pa * 2 ^ (prec - da)))
              < Z.pos (Z.to_pos (Z.pos pb * 2 ^ (prec - da)))) in Hm.
      rewrite !Z2Pos.id in Hm by nia. nia.
Qed.

Lemma position_gtb (a b : Z) :
  0 <= a < 2 ^ 24 -> 0 <= b < 2 ^ 24 ->
  Single.gtb (Single.of_uint a) (Single.of_uint b) = (b <? a).
Proof.
  intros Ha Hb. unfold Single.gtb.
  rewrite !ScorerFacts.single_of_uint by done.
  apply canon_ltb; [lia|lia|lia| |]; apply WeightFacts.Zdigits2_le; lia.
Qed.

Lemma increasing_cons (a : History) (l : list History) :
  increasing_pos_y (a :: l)
  <-> Forall (fun b => pos_y a < pos_y b) l /\ increasing_pos_y l.
Proof.
  unfold increasing_pos_y. split.
  - intros Hinc. split.
    + apply Forall_forall. intros b [j Hj]%list_elem_of_lookup_1.
      apply (Hinc 0%nat (S j) a b); [lia|done|done].
    + intros i j x y Hij Hx Hy. apply (Hinc (S i) (S j) x y); [lia|done|done].
  - intros [Hall Hinc] i j x y Hij Hx Hy.
    destruct j as [|j]; [lia|]. simpl in Hy. destruct i as [|i]; simpl in Hx.
    + injection Hx as <-. rewrite Forall_forall in Hall. apply Hall.
      by eapply list_elem_of_lookup_2.
    + apply (Hinc i j x y); [lia|done|done].
Qed.

Lemma increasing_nil : increasing_pos_y [].
Proof. intros i j a b _ Ha. done. Qed.

Lemma increasing_app (l1 l2 : list History) :
  increasing_pos_y (l1 ++ l2)
  <-> increasing_pos_y l1 /\ increasing_pos_y l2
      /\ Forall (fun a => Forall (fun b => pos_y a < pos_y b) l2) l1.
Proof.
  induction l1 as [|a l1 IH]; simpl.
  - split; [intros H; split; [apply increasing_nil|split; [done|constructor]]|].
    by intros (_ & H & _).
  - rewrite !increasing_cons, IH, Forall_app, Forall_cons. tauto.
Qed.

Lemma increasing_bump (w : spec_float) (l : list History) :
  increasing_pos_y l -> increasing_pos_y (Spec.bump w <$> l).
Proof.
  induction l as [|a l IH]; [done|]. rewrite fmap_cons, !increasing_cons.
  intros [Hall Hinc]. split; [|by apply IH].
  apply Forall_fmap. by eapply Forall_impl; [exact Hall|].
Qed.

(** In an increasing history the last entry has the highest position. *)
Lemma increasing_last (l : list History) (lh : History) :
  increasing_pos_y l -> last l = Some lh ->
  Forall (fun a => pos_y a <= pos_y lh) l.
Proof.
  intros Hinc [l' ->]%last_Some. apply increasing_app in Hinc as (_ & _ & Hcross).
  apply Forall_app. split; [|by repeat constructor].
  eapply Forall_impl; [exact Hcross|]. simpl. intros a Ha.
  apply Forall_cons in Ha as [Ha _]. lia.
Qed.

Lemma walk_back_spec (pivot_f : spec_float) (l : list History) :
  (Spec.walk_back pivot_f l <= length l)%nat
  /\ Forall (fun e => Spec.above pivot_f e = true) (take (Spec.walk_back pivot_f l) l)
  /\ (forall e : History, l !! Spec.walk_back pivot_f l = Some e ->
                          Spec.above pivot_f e = false).
Proof.
  induction l as [|a l (Hle & Hall & Hstop)]; simpl.
  - split; [lia|]. split; [constructor|done].
  - destruct (Spec.above pivot_f a) eqn:Ha; simpl.
    + split; [lia|]. split; [by constructor|done].
    + split; [lia|]. split; [constructor|]. by intros e [= <-].
Qed.

Lemma vget_elem_of (v : list Z) (i x : Z) : vget v i = Done x -> x ∈ v.
Proof.
  unfold vget. destruct (v !! Z.to_nat i) eqn:Hl; [|done].
  intros [= <-]. by eapply list_elem_of_lookup_2.
Qed.

(** A step keeps the history increasing when the new position is not in
    it yet and is not below its first entry. *)
Lemma next_increasing (o : Options) (tw : spec_float) (buff g0 : list Z)
      (st st' : scan) (i : Z) :
  Forall (fun x => 0 <= x < 2 ^ 24) buff ->
  Forall (fun e => 0 <= pos_y e < 2 ^ 24) (history st) ->
  increasing_pos_y (history st) ->
  Spec.next o tw buff g0 st i = Done st' ->
  NoDup (pos_y <$> history st') ->
  (forall e0 e : History,
     head (history st') = Some e0 -> e ∈ history st' -> pos_y e0 <= pos_y e) ->
  increasing_pos_y (history st')
  /\ Forall (fun e => 0 <= pos_y e < 2 ^ 24) (history st').
Proof.
  intros Hbuff Hrange Hinc. unfold Spec.next.
  destruct (vget g0 i) as [ivalue|]; [|done]. rewrite ScorerFacts.bind_done.
  destruct (vget buff ivalue) as [b|] eqn:Hb; [|done]. rewrite ScorerFacts.bind_done.
  assert (Hbr : 0 <= b < 2 ^ 24).
  { rewrite Forall_forall in Hbuff. apply Hbuff. by eapply vget_elem_of. }
  rewrite (ScorerFacts.single_round_trip b Hbr), ScorerFacts.bind_done.
  destruct (last (history st)) as [lh|] eqn:Hlast; [|done].
  assert (Hlh : 0 <= pos_y lh < 2 ^ 24).
  { rewrite Forall_forall in Hrange. apply Hrange.
    apply last_Some in Hlast as [l' ->]. apply elem_of_app. right. by left. }
  rewrite (position_gtb b (pos_y lh) Hbr Hlh).
  destruct (Z.ltb_spec (pos_y lh) b) as [Hlt|Hge].
  - intros [= <-] _ _. simpl. split.
    + apply increasing_app. split; [done|]. split.
      { apply increasing_cons. split; [constructor|apply increasing_nil]. }
      eapply Forall_impl; [exact (increasing_last _ _ Hinc Hlast)|]. simpl.
      intros a Ha. constructor; [simpl; lia|constructor].
    + apply Forall_app. split; [done|]. constructor; [done|constructor].
  - unfold Spec.insert_within.
    destruct (history st) as [|first rest] eqn:Hhist; [done|].
    destruct (walk_back_spec (Single.of_uint b) (reverse rest))
      as (Hw & Habove & Hstop).
    change (tail (first :: rest)) with rest.
    remember (Spec.walk_back (Single.of_uint b) (reverse rest)) as w eqn:Hweq.
    rewrite length_reverse in Hw.
    replace (length (first :: rest) - 1 - w)%nat with (length rest - w)%nat
      by (simpl; lia).
    remember (length rest - w)%nat as k eqn:Hk.
    destruct ((first :: rest) !! k) as [stop|] eqn:Hst; [|done].
    simpl.
    match goal with |- context [Spec.bump ?x] => generalize x end. intros wt.
    intros [= <-] Hnd Hmin. cbn [history] in *.
    assert (Hdrop : Forall (fun e => b < pos_y e) (drop k rest)).
    { rewrite take_reverse, Forall_reverse, <- Hk in Habove.
      rewrite Forall_forall in Habove, Hrange |- *.
      intros e He. specialize (Habove e He). unfold Spec.above in Habove.
      assert (Her : 0 <= pos_y e < 2 ^ 24).
      { apply Hrange. right. by eapply subseteq_drop. }
      rewrite (position_gtb _ _ Her Hbr) in Habove. by apply Z.ltb_lt. }
    assert (Hstop' : pos_y stop <= b).
    { destruct k as [|k'].
      - simpl in Hst. injection Hst as <-.
        apply (Hmin first {| pos_y := b; value := Double.add (value first) wt |});
          [done|]. rewrite take_0. right. left.
      - simpl in Hst.
        assert (Hrev : reverse rest !! w = Some stop).
        { rewrite reverse_lookup by lia. rewrite <- Hst. f_equal. lia. }
        specialize (Hstop stop Hrev). unfold Spec.above in Hstop.
        assert (Hsr : 0 <= pos_y stop < 2 ^ 24).
        { rewrite Forall_forall in Hrange. apply Hrange. right.
          by eapply list_elem_of_lookup_2. }
        rewrite (position_gtb _ _ Hsr Hbr) in Hstop. by apply Z.ltb_ge. }
    assert (Hsplit : first :: rest = (first :: take k rest) ++ drop k rest)
      by (by rewrite <- app_comm_cons, take_drop).
    rewrite Hsplit in Hinc, Hrange.
    apply increasing_app in Hinc as (Hinc1 & Hinc2 & Hcross).
    apply Forall_app in Hrange as [Hr1 Hr2].
    assert (Htake : Forall (fun a => pos_y a <= pos_y stop) (first :: take k rest)).
    { apply (increasing_last _ _ Hinc1).
      change (first :: take k rest) with (take (S k) (first :: rest)).
      rewrite (take_S_r _ _ _ Hst). by rewrite last_snoc. }
    rewrite app_comm_cons in Hnd |- *.
    rewrite fmap_app in Hnd. apply NoDup_app in Hnd as (_ & Hnd & _).
    assert (Hfresh : Forall (fun a => pos_y a <> b) (first :: take k rest)).
    { apply Forall_forall. intros a Ha Heq.
      apply (Hnd (pos_y a)); [by apply list_elem_of_fmap_2|].
      rewrite Heq, fmap_cons. left. }
    split.
    + apply increasing_app. split; [done|]. split.
      * apply increasing_cons. split; [|by apply increasing_bump].
        apply Forall_fmap. by eapply Forall_impl; [exact Hdrop|].
      * rewrite Forall_forall in Htake, Hfresh, Hcross |- *. intros a Ha.
        specialize (Htake a Ha). specialize (Hfresh a Ha). specialize (Hcross a Ha).
        constructor; [simpl; lia|]. apply Forall_fmap.
        by eapply Forall_impl; [exact Hcross|].
    + apply Forall_app. split; [done|].
      constructor; [done|]. apply Forall_fmap. by eapply Forall_impl; [exact Hr2|].
Qed.

Lemma rank_lookup_range (size : nat) (g1 buff : list Z) :
  rank_lookup size g1 = Done buff ->
  Forall (fun x => 0 <= x < Z.max 1 (Z.of_nat size)) buff.
Proof.
  unfold rank_lookup.
  assert (Hgen : forall (m : nat) (b : list Z),
             (m <= size)%nat ->
             foldl (fun acc i => buff ← acc; g ← vget g1 i; vset buff g i)
                   (Done (replicate size 0)) (seqZ 0 (Z.of_nat m)) = Done b ->
             Forall (fun x => 0 <= x < Z.max 1 (Z.of_nat size)) b).
  { induction m as [|m IH]; intros b Hm Hrun.
    - simpl in Hrun. injection Hrun as <-.
      apply Forall_forall. intros x [-> _]%elem_of_replicate. lia.
    - rewrite seqZ_S, foldl_app in Hrun. simpl in Hrun.
      destruct (foldl _ _ (seqZ 0 (Z.of_nat m))) as [b0|] eqn:Hb0; [|done].
      rewrite ScorerFacts.bind_done in Hrun.
      destruct (vget g1 (0 + Z.of_nat m)) as [g|]; [|done].
      rewrite ScorerFacts.bind_done in Hrun. unfold vset in Hrun.
      destruct (g <? Z.of_nat (length b0)); [|done]. injection Hrun as <-.
      apply Forall_insert; [apply IH; [lia|done]|lia]. }
  intros Hrun. by apply (Hgen size).
Qed.

Lemma position_range (buff g0 : list Z) (i p : Z) :
  Forall (fun x => 0 <= x < 2 ^ 24) buff ->
  position buff g0 i = Done p -> 0 <= p < 2 ^ 24.
Proof.
  intros Hbuff. unfold position.
  destruct (vget g0 i) as [ivalue|]; [|done]. rewrite ScorerFacts.bind_done.
  destruct (vget buff ivalue) as [b|] eqn:Hb; [|done]. rewrite ScorerFacts.bind_done.
  assert (Hbr : 0 <= b < 2 ^ 24).
  { rewrite Forall_forall in Hbuff. apply Hbuff. by eapply vget_elem_of. }
  rewrite (ScorerFacts.single_round_trip b Hbr). by intros [= <-].
Qed.

Lemma steps_increasing (o : Options) (tw : spec_float) (buff g0 : list Z)
      (l : list Z) :
  Forall (fun x => 0 <= x < 2 ^ 24) buff ->
  forall st0 st : scan,
    steps o tw buff g0 (Done st0) l = Done st ->
    Forall (fun e => 0 <= pos_y e < 2 ^ 24) (history st0) ->
    increasing_pos_y (history st0) ->
    NoDup (pos_y <$> history st) ->
    (forall e0 e : History,
       head (history st) = Some e0 -> e ∈ history st -> pos_y e0 <= pos_y e) ->
    increasing_pos_y (history st).
Proof.
  intros Hbuff. induction l as [|i l IH]; intros st0 st Hrun Hrange Hinc Hnd Hmin;
    simpl in Hrun.
  - by injection Hrun as <-.
  - destruct (step o tw buff g0 st0 i) as [st1|why] eqn:Hstep;
      [|by rewrite steps_undefined in Hrun].
    destruct (steps_positions _ _ _ _ _ _ _ Hrun) as (ps & _ & Hperm & Hhead).
    rewrite ScorerFacts.step_next in Hstep.
    assert (Hnd1 : NoDup (pos_y <$> history st1)).
    { rewrite Hperm in Hnd. by apply NoDup_app in Hnd as (_ & _ & Hnd). }
    assert (Hmin1 : forall e0 e : History,
               head (history st1) = Some e0 -> e ∈ history st1 ->
               pos_y e0 <= pos_y e).
    { intros e0 e He0 He. rewrite <- Hhead in He0.
      assert (Hin : pos_y e ∈ pos_y <$> history st).
      { rewrite Hperm. apply elem_of_app. right. by apply list_elem_of_fmap_2. }
      apply list_elem_of_fmap in Hin as (e' & Heq & He').
      rewrite Heq. by apply Hmin. }
    destruct (next_increasing _ _ _ _ _ _ _ Hbuff Hrange Hinc Hstep Hnd1 Hmin1)
      as (Hinc1 & Hrange1).
    by apply (IH st1 st).
Qed.

(** X14.  When the positions are all different, the history ends
    strictly increasing in [pos_y] exactly when its first entry, the one of
    the first gene of [gene_list0], has the lowest position of all. *)
Theorem history_increasing_iff (o : Options) (gene_list0 gene_list1 : list Z)
        (st : scan) :
  Z.of_nat (length gene_list0) <= 2 ^ 24 ->
  run_scan o gene_list0 gene_list1 = Done st ->
  NoDup (pos_y <$> history st) ->
  increasing_pos_y (history st)
  <-> (forall e0 e : History,
         head (history st) = Some e0 -> e ∈ history st -> pos_y e0 <= pos_y e).
Proof.
  intros Hsize Hrun Hnd. split.
  - intros Hinc e0 e He0 He. destruct (history st) as [|first rest]; [done|].
    injection He0 as <-. apply increasing_cons in Hinc as [Hall _].
    apply elem_of_cons in He as [->|He]; [lia|].
    rewrite Forall_forall in Hall. specialize (Hall e He). lia.
  - intros Hmin.
    destruct (run_scan_inv o gene_list0 gene_list1 st Hrun)
      as (buff & p0 & Hbuff & Hp0 & Hsteps).
    assert (Hb : Forall (fun x => 0 <= x < 2 ^ 24) buff).
    { eapply Forall_impl; [exact (rank_lookup_range _ _ _ Hbuff)|]. simpl. lia. }
    pose proof (position_range _ _ _ _ Hb Hp0) as Hp0r.
    apply (steps_increasing _ _ _ _ _ Hb _ _ Hsteps); [| |done|done]; simpl.
    + constructor; [done|constructor].
    + apply increasing_cons. split; [constructor|apply increasing_nil].
Qed.

Lemma history_increasing_iff_witness :
  exists st : scan,
    run_scan four_genes [0; 1; 2; 3] [0; 2; 1; 3] = Done st
    /\ pos_y <$> history st = [0; 1; 2; 3]
    /\ increasing_pos_y (history st).
Proof.
  assert (Hrun : exists st : scan,
             run_scan four_genes [0; 1; 2; 3] [0; 2; 1; 3] = Done st
             /\ pos_y <$> history st = [0; 1; 2; 3]
             /\ head (history st) = Some (entry 0 Double.one)).
  { eexists. split; [vm_compute; reflexivity|]. split; reflexivity. }
  destruct Hrun as (st & Hrun & Hpos & Hhead).
  assert (Hsize : Z.of_nat (length [0; 1; 2; 3]) <= 2 ^ 24) by (simpl; lia).
  assert (Hnd : NoDup (pos_y <$> history st)).
  { rewrite Hpos. by apply (bool_decide_unpack _). }
  exists st. split; [exact Hrun|]. split; [exact Hpos|].
  apply (history_increasing_iff four_genes _ _ st Hsize Hrun Hnd).
  intros e0 e He0 He. rewrite Hhead in He0. injection He0 as <-.
  apply (list_elem_of_fmap_2 pos_y) in He. rewrite Hpos in He. simpl.
  apply elem_of_cons in He as [->|He]; [lia|].
  apply elem_of_cons in He as [->|He]; [lia|].
  apply elem_of_cons in He as [->|He]; [lia|].
  apply elem_of_cons in He as [->|He]; [lia|].
  by apply elem_of_nil in He.
Defined.

End StaircaseFacts.

(** ** The scorer at the edges of its domain *)

Module EdgeFacts.
Import Format.

Local Abbreviation nexts o tw buff g0 :=
  (foldl (fun (acc : outcome scan) (i : Z) => st ← acc; Spec.next o tw buff g0 st i)).

Lemma nexts_undefined (o : Options) (tw : spec_float) (buff g0 : list Z)
      (l : list Z) (why : fault) :
  nexts o tw buff g0 (Undefined why) l = Undefined why.
Proof. induction l as [|i l IH]; [done|]. simpl. exact IH. Qed.

(** X15.  [scoreLists] takes the number of genes from [options], not from
    the vectors: on a [gene_list0] with fewer than [num_genes] entries,
    otherwise well formed, it reads [gene_list0] one place past its end. *)
Theorem short_list_read_past_end (o : Options) (gene_list0 gene_list1 : list Z) :
  Z.of_nat (length gene_list0) < num_genes o ->
  Z.of_nat (length gene_list0) <= 2 ^ 24 ->
  length gene_list1 = length gene_list0 ->
  Forall (fun x => 0 <= x < Z.of_nat (length gene_list0)) gene_list0 ->
  Forall (fun x => 0 <= x < Z.of_nat (length gene_list0)) gene_list1 ->
  scoreLists o gene_list0 gene_list1
  = Undefined (OutOfBounds (Z.of_nat (length gene_list0))).
Proof.
  intros Hshort Hsize H1 Hg0 Hg1. unfold scoreLists.
  rewrite ScorerFacts.run_scan_scan_all. unfold Spec.scan_all.
  destruct (ScorerFacts.rank_lookup_defined (length gene_list0) gene_list1 H1 Hg1)
    as (buff & -> & Hlen & Hb).
  rewrite ScorerFacts.bind_done.
  destruct (decide (length gene_list0 = 0%nat)) as [H0|Hpos].
  - apply nil_length_inv in H0. by subst.
  - destruct (ScorerFacts.first_defined o buff gene_list0 Hsize Hlen Hb Hg0 ltac:(lia))
      as (st0 & Hfirst & Hne).
    unfold Spec.first. rewrite Hfirst. rewrite !ScorerFacts.bind_done.
    set (len := Z.of_nat (length gene_list0)) in *.
    replace (num_genes o - 1) with ((len - 1) + (num_genes o - len)) by lia.
    rewrite seqZ_app, foldl_app by lia.
    destruct (ScorerFacts.scan_defined o buff gene_list0
                (total_weight o (length gene_list0)) Hsize Hlen Hb Hg0
                (seqZ 1 (len - 1))
                ltac:(apply Forall_forall; intros i Hi%elem_of_seqZ; lia)
                {| history := history st0; rvalue := rvalue st0 |} Hne)
      as (st' & Hst').
    simpl in Hst'. simpl. rewrite Hst'.
    rewrite (seqZ_cons (1 + (len - 1))) by lia. simpl.
    replace (1 + (len - 1)) with len by lia.
    assert (Hout : vget gene_list0 len = Undefined (OutOfBounds len)).
    { unfold vget. rewrite lookup_ge_None_2; [done|]. unfold len. lia. }
    assert (Hnext : Spec.next o (total_weight o (length gene_list0)) buff
                      gene_list0 st' len = Undefined (OutOfBounds len))
      by (unfold Spec.next; by rewrite Hout).
    rewrite Hnext. by rewrite nexts_undefined.
Qed.

Lemma short_list_read_past_end_witness :
  scoreLists four_genes [0; 1] [1; 0] = Undefined (OutOfBounds 2).
Proof.
  apply (short_list_read_past_end four_genes [0; 1] [1; 0]).
  - simpl. lia.
  - simpl. lia.
  - reflexivity.
  - repeat constructor; simpl; lia.
  - repeat constructor; simpl; lia.
Defined.

(** *** The square of the number of genes *)

Lemma of_uint_signed (x : Z) : 0 <= x -> signed false (Double.of_uint x).
Proof.
  intros Hx. unfold Double.of_uint, binary_normalize.
  destruct x as [|p|p]; [done| |lia].
  apply Rounding.binary_round_signed.
Qed.

(** When [num_genes * num_genes] is 0 as an [unsigned int], [one_over] is
    an infinity, and no candidate is above any value. *)
Lemma candidate_wrapped (o : Options) (tw : spec_float) (i : Z) (h : History)
      (rv : spec_float) :
  u32 (num_genes o * num_genes o) = 0 ->
  keep_max (candidate o tw i h) rv = rv.
Proof.
  intros Hwrap. unfold keep_max, candidate, one_over. rewrite Hwrap.
  change (Double.div Double.one (Double.of_uint 0)) with (S754_infinity false).
  assert (Hx : 0 <= u32 (u32 (pos_y h + 1) * u32 (i + 1)))
    by (apply Z.mod_pos_bound; done).
  pose proof (of_uint_signed _ Hx) as Hs.
  destruct (Double.of_uint _) as [s|s| |s m e]; simpl in Hs; try done; subst s;
    destruct (Double.div (value h) (Double.of_float tw)) as [s'|[|]| |s' m' e'];
    destruct rv as [s''|[|]| |[|] m'' e'']; reflexivity.
Qed.

Lemma max_over_wrapped (o : Options) (tw : spec_float) (i : Z) (es : list History) :
  u32 (num_genes o * num_genes o) = 0 ->
  forall rv : spec_float, Spec.max_over o tw i es rv = rv.
Proof.
  intros Hwrap. induction es as [|e es IH]; intros rv; [done|].
  simpl. rewrite candidate_wrapped by done. apply IH.
Qed.

Lemma nexts_wrapped (o : Options) (tw : spec_float) (buff g0 : list Z) (l : list Z) :
  u32 (num_genes o * num_genes o) = 0 ->
  forall st0 st : scan,
    nexts o tw buff g0 (Done st0) l = Done st -> rvalue st = rvalue st0.
Proof.
  intros Hwrap. induction l as [|i l IH]; intros st0 st Hrun; simpl in Hrun.
  - by injection Hrun as <-.
  - destruct (Spec.next o tw buff g0 st0 i) as [st1|] eqn:Hnext;
      [|by rewrite nexts_undefined in Hrun].
    rewrite (IH _ _ Hrun).
    apply ScorerFacts.next_rvalue in Hnext as [es ->].
    by apply max_over_wrapped.
Qed.

(** X16.  When [num_genes * num_genes] wraps around to 0 in
    [unsigned int], as it does for 65536 genes and every multiple of it,
    [scoreLists] returns 0.0 for every pair of lists. *)
Theorem wrapped_square_scores_zero (o : Options) (gene_list0 gene_list1 : list Z)
        (r : spec_float) :
  1 <= num_genes o < u32_modulus ->
  u32 (num_genes o * num_genes o) = 0 ->
  scoreLists o gene_list0 gene_list1 = Done r ->
  r = Double.zero.
Proof.
  intros Hn Hwrap. unfold scoreLists. rewrite ScorerFacts.run_scan_scan_all.
  destruct (Spec.scan_all o false gene_list0 gene_list1) as [st|] eqn:Hscan; [|done].
  rewrite ScorerFacts.bind_done. intros [= <-].
  assert (Hrv : rvalue st = Double.zero).
  { unfold Spec.scan_all in Hscan.
    destruct (rank_lookup _ _) as [buff|]; [|done].
    rewrite ScorerFacts.bind_done in Hscan. unfold Spec.first in Hscan.
    destruct (first_step o buff gene_list0) as [st0|] eqn:Hfirst; [|done].
    rewrite !ScorerFacts.bind_done in Hscan.
    rewrite (nexts_wrapped _ _ _ _ _ Hwrap _ _ Hscan). simpl.
    unfold first_step in Hfirst.
    destruct (vget gene_list0 0) as [iv|]; [|done].
    rewrite ScorerFacts.bind_done in Hfirst.
    destruct (vget buff iv) as [b|]; [|done].
    rewrite ScorerFacts.bind_done in Hfirst.
    destruct (Single.to_uint _) as [p|]; [|done].
    by injection Hfirst as <-. }
  rewrite Hrv. destruct (ScorerFacts.sqrt_num_genes (num_genes o) Hn) as (m & e & ->).
  reflexivity.
Qed.

Lemma wrapped_square_scores_zero_witness :
  exists r : spec_float,
    scoreLists many_genes (seqZ 0 65536) (seqZ 0 65536) = Done r
    /\ r = Double.zero.
Proof.
  assert (Hn : 1 <= num_genes many_genes <= 2 ^ 24) by (cbn [num_genes many_genes]; lia).
  assert (Hn' : 1 <= num_genes many_genes < u32_modulus)
    by (cbn [num_genes many_genes]; unfold u32_modulus; lia).
  assert (Hwrap : u32 (num_genes many_genes * num_genes many_genes) = 0)
    by reflexivity.
  assert (Hlen : Z.of_nat (length (seqZ 0 65536)) = num_genes many_genes)
    by (rewrite length_seqZ; cbn [num_genes many_genes]; lia).
  assert (Hall : Forall (fun x => 0 <= x < num_genes many_genes) (seqZ 0 65536)).
  { apply Forall_forall. intros x Hx%elem_of_seqZ. cbn [num_genes many_genes]. lia. }
  destruct (ScorerFacts.scoreLists_defined many_genes _ _ Hn Hlen Hlen Hall Hall)
    as (r & Hr).
  exists r. split; [exact Hr|].
  exact (wrapped_square_scores_zero many_genes _ _ r Hn' Hwrap Hr).
Defined.

(** *** The total weight *)

Lemma of_float_canon (k : Z) :
  0 <= k < 2 ^ 24 -> Double.of_float (canon 24 k) = canon 53 k.
Proof.
  intros Hk. destruct (decide (k = 0)) as [->|Hnz]; [done|].
  pose proof (WeightFacts.Zdigits2_le k 24 ltac:(lia) ltac:(lia)) as Hd.
  rewrite (Rounding.canon_finite 24 128 WeightFacts.single_format k) by done.
  replace (k <? 0) with false by (symmetry; apply Z.ltb_ge; lia).
  rewrite Z.abs_eq by lia. unfold canon_abs at 1, Double.of_float.
  replace (Zdigits2 k - 24) with (- (24 - Zdigits2 k)) by lia.
  assert (Hq : 0 < 2 ^ (24 - Zdigits2 k)) by (apply Z.pow_pos_nonneg; lia).
  rewrite (Rounding.binary_round_int 53 1024 WeightFacts.double_format false k
             (24 - Zdigits2 k)); [|lia|lia|lia|rewrite Z2Pos.id by nia; done].
  apply (Rounding.canon_abs_pos 53 1024 WeightFacts.double_format). lia.
Qed.

Lemma of_double_canon (k : Z) :
  0 <= k < 2 ^ 24 -> Single.of_double (canon 53 k) = canon 24 k.
Proof.
  intros Hk. destruct (decide (k = 0)) as [->|Hnz]; [done|].
  pose proof (WeightFacts.Zdigits2_le k 24 ltac:(lia) ltac:(lia)) as Hd.
  rewrite (Rounding.canon_finite 53 1024 WeightFacts.double_format k) by done.
  replace (k <? 0) with false by (symmetry; apply Z.ltb_ge; lia).
  rewrite Z.abs_eq by lia. unfold canon_abs at 1, Single.of_double.
  replace (Zdigits2 k - 53) with (- (53 - Zdigits2 k)) by lia.
  assert (Hq : 0 < 2 ^ (53 - Zdigits2 k)) by (apply Z.pow_pos_nonneg; lia).
  rewrite (Rounding.binary_round_int 24 128 WeightFacts.single_format false k
             (53 - Zdigits2 k)); [|lia|lia|lia|rewrite Z2Pos.id by nia; done].
  apply (Rounding.canon_abs_pos 24 128 WeightFacts.single_format). lia.
Qed.

(** Adding 1.0 to a [float] that holds an integer. *)
Lemma add_one (k : Z) :
  0 <= k <= 2 ^ 24 ->
  Single.of_double (Double.add (Double.of_float (Single.of_uint k)) Double.one)
  = Single.of_uint (Z.min (k + 1) (2 ^ 24)).
Proof.
  intros Hk.
  destruct (decide (k = 2 ^ 24)) as [->|Hne]; [vm_compute; reflexivity|].
  rewrite ScorerFacts.single_of_uint, of_float_canon by lia.
  rewrite WeightFacts.double_one. unfold Double.add.
  rewrite (Rounding.SFadd_canon 53 1024 WeightFacts.double_format)
    by (apply WeightFacts.Zdigits2_le; lia).
  destruct (decide (k = 2 ^ 24 - 1)) as [->|Hne']; [vm_compute; reflexivity|].
  rewrite Z.min_l by lia.
  by rewrite of_double_canon, ScorerFacts.single_of_uint by lia.
Qed.

(** X17.  Without a pivot every weight is 1.0, and the total weight is
    the number of genes, exactly, up to [2 ^ 24] genes; from there on the
    [float] sum stays at 16777216. *)
Theorem total_weight_counts (o : Options) (size : nat) :
  pivot o = 0 ->
  total_weight o size = Single.of_uint (Z.min (Z.of_nat size) (2 ^ 24)).
Proof.
  intros Hpivot. unfold total_weight. induction size as [|n IH]; [done|].
  rewrite seqZ_S, foldl_app, IH. simpl.
  unfold calculateWeight. rewrite Hpivot. simpl.
  rewrite add_one by lia. f_equal. lia.
Qed.

Lemma total_weight_counts_witness :
  total_weight four_genes 4 = Single.of_uint (Z.min (Z.of_nat 4) (2 ^ 24)).
Proof. apply (total_weight_counts four_genes 4). reflexivity. Defined.

End EdgeFacts.

(** ** When scoring a pair is defined *)

Module PairSafetyFacts.
Import Format.

Lemma readLineIndex_done (o : Options) (file : string) (idx : Z) (g : list Z) :
  0 <= num_genes o ->
  readLineIndex o file idx (replicate (Z.to_nat (num_genes o)) 0) = Done g ->
  Forall (fun t => t < num_genes o)
         (stored_tokens (Z.to_nat (num_genes o)) (line_start file idx)).
Proof.
  unfold readLineIndex, read_line. intros Hn Hrun.
  destruct (read_loop _ _ 0 _) as [[g' n]|] eqn:Hloop; [|done].
  pose proof (LineFacts.read_loop_done _ _ _ _ _ _ Hloop) as Hall.
  rewrite length_replicate in Hall.
  eapply Forall_impl; [exact Hall|]. simpl. lia.
Qed.

Lemma readLineIndex_defined (o : Options) (file : string) (idx : Z) :
  Forall (fun t => t < num_genes o)
         (stored_tokens (Z.to_nat (num_genes o)) (line_start file idx)) ->
  exists g : list Z,
    readLineIndex o file idx (replicate (Z.to_nat (num_genes o)) 0) = Done g.
Proof.
  intros Hall. unfold readLineIndex, read_line.
  destruct (ReaderFacts.read_loop_in_bounds (Z.to_nat (num_genes o))
              (line_start file idx) 0 (replicate (Z.to_nat (num_genes o)) 0))
    as (g & -> & _).
  - rewrite length_replicate. rewrite Forall_forall in *. intros t Ht.
    pose proof (ReaderFacts.stored_tokens_nonneg (Z.to_nat (num_genes o))
                  (line_start file idx)) as Hnn.
    rewrite Forall_forall in Hnn. specialize (Hnn t Ht). specialize (Hall t Ht). lia.
  - by exists g.
Qed.

(** X19.  Scoring a pair, for up to [2 ^ 24] genes.  The pair loop runs
    into no undefined behaviour exactly when every token that the reader
    stores, for either list, is below [num_genes]; and the score it then
    reports is not negative and not a NaN. *)
Theorem score_pair_defined_iff (o : Options) (file : string) (l0 l1 : Z) :
  1 <= num_genes o <= 2 ^ 24 ->
  ((exists r : spec_float, score_pair o file l0 l1 = Done r)
   <-> Forall (fun t => t < num_genes o)
              (stored_tokens (Z.to_nat (num_genes o)) (line_start file l0))
       /\ Forall (fun t => t < num_genes o)
                 (stored_tokens (Z.to_nat (num_genes o)) (line_start file l1)))
  /\ (forall r : spec_float, score_pair o file l0 l1 = Done r -> nonneg r = true).
Proof.
  intros Hn.
  assert (Hn' : 1 <= num_genes o < u32_modulus) by (unfold u32_modulus; lia).
  split; [split|].
  - intros (r & Hrun). unfold score_pair in Hrun.
    destruct (readLineIndex o file l0 _) as [g0|] eqn:H0; [|done].
    rewrite ScorerFacts.bind_done in Hrun.
    destruct (readLineIndex o file l1 _) as [g1|] eqn:H1; [|done].
    split; eapply readLineIndex_done; try done; lia.
  - intros [Hall0 Hall1].
    destruct (readLineIndex_defined o file l0 Hall0) as (g0 & H0).
    destruct (readLineIndex_defined o file l1 Hall1) as (g1 & H1).
    destruct (ReaderFacts.read_vector o file l0 g0 ltac:(lia) H0) as [Hlen0 Hg0].
    destruct (ReaderFacts.read_vector o file l1 g1 ltac:(lia) H1) as [Hlen1 Hg1].
    destruct (ScorerFacts.scoreLists_defined o g0 g1 Hn Hlen0 Hlen1 Hg0 Hg1)
      as (fwd & Hfwd).
    destruct (ScorerFacts.scoreLists_defined o g0 (reverse g1) Hn Hlen0)
      as (rev & Hrev).
    { by rewrite length_reverse. }
    { done. }
    { by apply Forall_reverse. }
    unfold score_pair. rewrite H0, H1, !ScorerFacts.bind_done, Hfwd.
    rewrite ScorerFacts.bind_done. destruct (two_tailed o); [|by eexists].
    rewrite Hrev, ScorerFacts.bind_done. by eexists.
  - intros r Hrun. unfold score_pair in Hrun.
    destruct (readLineIndex o file l0 _) as [g0|]; [|done].
    rewrite ScorerFacts.bind_done in Hrun.
    destruct (readLineIndex o file l1 _) as [g1|]; [|done].
    rewrite ScorerFacts.bind_done in Hrun.
    destruct (scoreLists o g0 g1) as [fwd|] eqn:Hfwd; [|done].
    rewrite ScorerFacts.bind_done in Hrun.
    pose proof (PairFacts.of_double_signed false fwd
                  (ScorerFacts.scoreLists_signed o g0 g1 fwd Hn' Hfwd)) as Hsf.
    apply FloatOrder.signed_nonneg.
    destruct (two_tailed o); [|by injection Hrun as <-].
    destruct (scoreLists o g0 (reverse g1)) as [rev|] eqn:Hrev; [|done].
    rewrite ScorerFacts.bind_done in Hrun. injection Hrun as <-.
    pose proof (PairFacts.of_double_signed false rev
                  (ScorerFacts.scoreLists_signed o g0 _ rev Hn' Hrev)) as Hsr.
    by destruct (Single.gtb _ _).
Qed.

(** Two lists in range are scored; a list that names the gene [-1], read
    as 4294967295, is not. *)
Lemma score_pair_defined_iff_witness :
  (exists r : spec_float, score_pair two_genes file_two_lists 1 2 = Done r)
  /\ ~ (exists r : spec_float, score_pair two_genes file_signed_gene 1 2 = Done r).
Proof.
  assert (Hn : 1 <= num_genes two_genes <= 2 ^ 24) by (simpl; lia).
  assert (H0 : stored_tokens (Z.to_nat (num_genes two_genes))
                 (line_start file_two_lists 1) = [0; 1]) by (vm_compute; reflexivity).
  assert (H1 : stored_tokens (Z.to_nat (num_genes two_genes))
                 (line_start file_two_lists 2) = [1; 0]) by (vm_compute; reflexivity).
  assert (Hs : stored_tokens (Z.to_nat (num_genes two_genes))
                 (line_start file_signed_gene 1) = [0; 4294967295])
    by (vm_compute; reflexivity).
  split.
  - destruct (score_pair_defined_iff two_genes file_two_lists 1 2 Hn) as [Hiff _].
    apply Hiff. rewrite H0, H1. split; repeat constructor.
  - destruct (score_pair_defined_iff two_genes file_signed_gene 1 2 Hn) as [Hiff _].
    intros Hdone. apply Hiff in Hdone as [Hall _]. rewrite Hs in Hall.
    apply Forall_cons in Hall as [_ Hall]. apply Forall_cons in Hall as [Hlt _].
    simpl in Hlt. lia.
Defined.

End PairSafetyFacts.

(** ** The candidates and their maximum *)

Module CandidateFacts.
Import Format.

Local Abbreviation nexts o tw buff g0 :=
  (foldl (fun (acc : outcome scan) (i : Z) => st ← acc; Spec.next o tw buff g0 st i)).





Section Range.
Variable o : Options.
Variables buff g0 : list Z.
Hypothesis Hgenes : num_genes o < 65536.
Hypothesis Hbuff : Forall (fun x => 0 <= x < num_genes o) buff.




End Range.





End CandidateFacts.
